(** * asyncvnc: framebuffer decoding and screen detection

    A shallow embedding of [asyncvnc.py]: the wire reader, the pixel buffer
    of [Video] with its [read], [as_rgba], [is_complete] and
    [detect_screens] methods, [Screen.score], and [Client.read].

    Conventions.
    - A byte of the wire or of the pixel buffer is a [Byte.byte]; Python
      integers are [Z]; array sizes and indices are [nat].
    - The pixel buffer, a numpy array of shape [height x width x 4] and
      dtype ['B'], is a list of rows, each row a list of pixels, each pixel
      its four channel bytes.
    - Code that reads the stream or raises runs in a state-and-exception
      monad over the [Video] object: a raised exception keeps the state
      reached when it was raised, as in Python.
    - A float is an IEEE 754 binary64 number, held as the rational it
      denotes; [float], [/] and [*] round to the nearest float, ties to
      even, and [float] and [/] raise [OverflowError] beyond the floats. *)

From Stdlib Require Import String Ascii.
From Stdlib.Strings Require Import Byte.
From Stdlib Require Import ZArith QArith Lqa Lia Bool Arith Permutation List.
Import ListNotations.

Local Open Scope Z_scope.

(** ** Bytes *)

Definition byte_val (b : byte) : Z := Z.of_N (Byte.to_N b).

(** ** Colour channel orders ([video_modes]) *)

Inductive Mode := BGRA | RGBA | ARGB | ABGR.

Definition mode_str (m : Mode) : string :=
  match m with
  | BGRA => "bgra"
  | RGBA => "rgba"
  | ARGB => "argb"
  | ABGR => "abgr"
  end%string.

(** [str.index]: the position of the first occurrence; [None] stands for
    the [ValueError] Python raises when the character is absent. *)
Fixpoint str_index (c : ascii) (s : string) : option nat :=
  match s with
  | EmptyString => None
  | String c' s' =>
      if Ascii.eqb c c' then Some 0%nat
      else option_map S (str_index c s')
  end.

(** [self.mode.index(c)], for the channel letters of a negotiated mode. *)
Definition mode_index (m : Mode) (c : ascii) : nat :=
  match str_index c (mode_str m) with
  | Some k => k
  | None => 0%nat
  end.

Definition ch_r : ascii := "r".
Definition ch_g : ascii := "g".
Definition ch_b : ascii := "b".
Definition ch_a : ascii := "a".

(** ** Pixels and arrays *)

Record pixel := Px { c0 : byte; c1 : byte; c2 : byte; c3 : byte }.

Definition px0 : pixel := Px x00 x00 x00 x00.

(** [p[k]] on the channel axis. *)
Definition chan (k : nat) (p : pixel) : byte :=
  match k with
  | 0%nat => c0 p
  | 1%nat => c1 p
  | 2%nat => c2 p
  | _ => c3 p
  end.

(** [p[k] = v] on the channel axis. *)
Definition set_chan (k : nat) (v : byte) (p : pixel) : pixel :=
  match k with
  | 0%nat => Px v (c1 p) (c2 p) (c3 p)
  | 1%nat => Px (c0 p) v (c2 p) (c3 p)
  | 2%nat => Px (c0 p) (c1 p) v (c3 p)
  | _ => Px (c0 p) (c1 p) (c2 p) v
  end.

(** [p[::-1]] on the channel axis. *)
Definition rev_pixel (p : pixel) : pixel := Px (c3 p) (c2 p) (c1 p) (c0 p).

Definition array3 := list (list pixel).

(** [np.zeros((h, w, 4), 'B')] *)
Definition np_zeros (h w : nat) : array3 := repeat (repeat px0 w) h.

(** The shape of a buffer allocated for a [h x w] video. *)
Definition shape_ok (h w : nat) (d : array3) : Prop :=
  length d = h /\ Forall (fun row => length row = w) d.

(** A two-dimensional cell lookup; outside the array it yields [dflt],
    which the code never relies on. *)
Definition get2 {A} (dflt : A) (m : list (list A)) (i j : nat) : A :=
  nth j (nth i m []) dflt.

(** ** Slices *)

(** Python's normalisation of one slice bound against a length [n]. *)
Definition norm_idx (n : nat) (z : Z) : nat :=
  if z <? 0 then Z.to_nat (Z.max 0 (z + Z.of_nat n))
  else Z.to_nat (Z.min z (Z.of_nat n)).

(** [update_range f lo hi l]: [l] with [f] applied to the items at
    positions [lo <= k < hi]; positions past the end do not exist. *)
Fixpoint update_range {A} (f : A -> A) (lo hi : nat) (l : list A) {struct l}
  : list A :=
  match l with
  | [] => []
  | x :: l' =>
      match hi with
      | 0%nat => l
      | S hi' =>
          match lo with
          | 0%nat => f x :: update_range f 0 hi' l'
          | S lo' => x :: update_range f lo' hi' l'
          end
      end
  end.

(** [l[lo:hi]] for normalised bounds. *)
Definition slice {A} (lo hi : nat) (l : list A) : list A :=
  firstn (hi - lo) (skipn lo l).

(** [blit_with f off src dst]: [dst[off + k] := f src[k] dst[off + k]] for
    every [k] such that both items exist. *)
Fixpoint blit_with {A B} (f : B -> A -> A) (off : nat) (src : list B)
  (dst : list A) : list A :=
  match dst with
  | [] => []
  | x :: dst' =>
      match off with
      | S off' => x :: blit_with f off' src dst'
      | 0%nat =>
          match src with
          | [] => dst
          | s :: src' => f s x :: blit_with f 0 src' dst'
          end
      end
  end.

(** [np.ndarray((h, w, 4), 'B', buf)]: the first [h*w*4] bytes of [buf]
    seen as [h] rows of [w] pixels. *)
Fixpoint pixels_of (bs : list byte) : list pixel :=
  match bs with
  | a :: b :: c :: d :: rest => Px a b c d :: pixels_of rest
  | _ => []
  end.

Fixpoint rows_of (h w : nat) (ps : list pixel) : list (list pixel) :=
  match h with
  | 0%nat => []
  | S h' => firstn w ps :: rows_of h' w (skipn w ps)
  end.

(** Broadcasting of one axis of the source of an assignment onto a target
    axis of [n] items: an axis of one item is repeated. *)
Definition bcast {A} (n : nat) (l : list A) : list A :=
  match l with
  | [x] => repeat x n
  | _ => l
  end.

Definition fit {A} (n : nat) (l : list A) : list A := firstn n (bcast n l).

Definition broadcast_ok (h w h' w' : nat) : bool :=
  ((h =? h') || (h =? 1))%nat && ((w =? w') || (w =? 1))%nat.

(** ** Exceptions, state and the monad *)

Inductive exn :=
| IncompleteReadError             (* readexactly: the stream ended *)
| ValueError_encoding (e : Z)     (* raise ValueError(encoding) *)
| ValueError_update_type (c : Z)  (* UpdateType(c) for an unknown c *)
| ZlibError                       (* zlib.error *)
| TypeError_buffer                (* np.ndarray: buffer is too small *)
| ValueError_broadcast            (* numpy: could not broadcast *)
| ZeroDivisionError               (* Fraction(n, 0) *)
| OverflowError_float.            (* float(n), n / d: too large for a float *)

Inductive result (A : Type) :=
| Ok (a : A)
| Raise (e : exn).
Arguments Ok {A} a.
Arguments Raise {A} e.

(** Stream readers are objects that several holders may share: they live
    in a store addressed by handles. *)
Definition Streams := nat -> list byte.

Definition set_stream (r : nat) (s : list byte) (ss : Streams) : Streams :=
  fun k => if (k =? r)%nat then s else ss k.

Record St (O : Type) := MkSt { streams : Streams; self : O }.
Arguments MkSt {O} streams self.
Arguments streams {O} s.
Arguments self {O} s.

Definition M (O A : Type) := St O -> result A * St O.

Definition ret {O A} (a : A) : M O A := fun st => (Ok a, st).

Definition bind {O A B} (m : M O A) (k : A -> M O B) : M O B :=
  fun st =>
    match m st with
    | (Ok a, st') => k a st'
    | (Raise e, st') => (Raise e, st')
    end.

Definition raise {O A} (e : exn) : M O A := fun st => (Raise e, st).

Definition get_self {O} : M O O := fun st => (Ok (self st), st).

Definition put_self {O} (o : O) : M O unit :=
  fun st => (Ok tt, MkSt (streams st) o).

Declare Scope vnc_scope.
Delimit Scope vnc_scope with vnc.
Notation "x <- m ;; k" := (bind m (fun x => k))
  (at level 100, m at next level, right associativity) : vnc_scope.
Notation "m ;;; k" := (bind m (fun _ => k))
  (at level 100, right associativity) : vnc_scope.
Local Open Scope vnc_scope.

(** ** The wire reader *)

(** [int.from_bytes(bs, 'big')] *)
Definition from_bytes (bs : list byte) : Z :=
  fold_left (fun acc b => acc * 256 + byte_val b) bs 0.

(** [StreamReader.readexactly(n)] on a stream that ends after its bytes:
    a short stream is emptied and [IncompleteReadError] is raised. *)
Definition readexactly {O} (r : nat) (n : nat) : M O (list byte) :=
  fun st =>
    let s := streams st r in
    if (n <=? length s)%nat
    then (Ok (firstn n s), MkSt (set_stream r (skipn n s) (streams st)) (self st))
    else (Raise IncompleteReadError, MkSt (set_stream r [] (streams st)) (self st)).

Definition read_int {O} (r : nat) (n : nat) : M O Z :=
  bs <- readexactly r n ;; ret (from_bytes bs).

(** ** Video *)

Record Video := MkVideo {
  reader : nat;
  writer : nat;
  (** The bound method [decompressobj().decompress]: its hidden state is
      the input it was fed so far, kept in [fed]; [None] is [zlib.error]. *)
  decompress : list byte -> list byte -> option (list byte);
  fed : list byte;
  name : string;
  width : nat;
  height : nat;
  mode : Mode;
  data : option array3
}.

Definition set_data (d : option array3) (v : Video) : Video :=
  MkVideo (reader v) (writer v) (decompress v) (fed v) (name v)
          (width v) (height v) (mode v) d.

Definition set_fed (f : list byte) (v : Video) : Video :=
  MkVideo (reader v) (writer v) (decompress v) f (name v)
          (width v) (height v) (mode v) (data v).

(** [self.decompress(chunk)] *)
Definition call_decompress (chunk : list byte) : M Video (list byte) :=
  v <- get_self ;;
  match decompress v (fed v) chunk with
  | Some out => put_self (set_fed (fed v ++ chunk) v) ;;; ret out
  | None => raise ZlibError
  end.

(** A rectangle header: x, y, width, height, encoding. *)
Record Header := MkHeader {
  h_x : Z; h_y : Z; h_width : Z; h_height : Z; h_encoding : Z
}.

(** Lines 149-153 of [Video.read]. *)
Definition read_header : M Video Header :=
  v <- get_self ;;
  x <- read_int (reader v) 2 ;;
  y <- read_int (reader v) 2 ;;
  w <- read_int (reader v) 2 ;;
  h <- read_int (reader v) 2 ;;
  e <- read_int (reader v) 4 ;;
  ret (MkHeader x y w h e).

(** Lines 155-162: the payload of the rectangle. *)
Definition read_payload (hd : Header) : M Video (list byte) :=
  v <- get_self ;;
  if h_encoding hd =? 0 then
    readexactly (reader v) (Z.to_nat (h_height hd * h_width hd * 4))
  else if h_encoding hd =? 6 then
    len <- read_int (reader v) 4 ;;
    chunk <- readexactly (reader v) (Z.to_nat len) ;;
    call_decompress chunk
  else raise (ValueError_encoding (h_encoding hd)).

(** The rows and columns that [self.data[y:y + height, x:x + width]]
    selects in a buffer of [H] rows and [W] columns. *)
Definition row_lo (H : nat) (hd : Header) := norm_idx H (h_y hd).
Definition row_hi (H : nat) (hd : Header) := norm_idx H (h_y hd + h_height hd).
Definition col_lo (W : nat) (hd : Header) := norm_idx W (h_x hd).
Definition col_hi (W : nat) (hd : Header) := norm_idx W (h_x hd + h_width hd).

(** [buf[r0:r1, c0:c1] = src] once the shapes are known to agree. *)
Definition assign_region (r0 r1 c0 c1 : nat) (src : list (list pixel))
  (buf : array3) : array3 :=
  blit_with
    (fun srow drow => blit_with (fun p _ => p) c0 (fit (c1 - c0) srow) drow)
    r0 (fit (r1 - r0) src) buf.

(** [buf[r0:r1, c0:c1, k] = v] *)
Definition assign_chan (r0 r1 c0 c1 k : nat) (v : byte) (buf : array3)
  : array3 :=
  update_range (update_range (set_chan k v) c0 c1) r0 r1 buf.

(** Lines 164-167: allocation on first use, the assignment of the decoded
    pixels and the forcing of their alpha bytes.  The buffer has the shape
    [height x width] of the video, line 165 being its only allocation. *)
Definition store_rect (hd : Header) (payload : list byte) : M Video unit :=
  v <- get_self ;;
  let buf := match data v with
             | None => np_zeros (height v) (width v)
             | Some d => d
             end in
  put_self (set_data (Some buf) v) ;;;
  let h := Z.to_nat (h_height hd) in
  let w := Z.to_nat (h_width hd) in
  let H := height v in
  let W := width v in
  let r0 := row_lo H hd in let r1 := row_hi H hd in
  let c0 := col_lo W hd in let c1 := col_hi W hd in
  if (h * w * 4 <=? length payload)%nat then
    if broadcast_ok h w (r1 - r0) (c1 - c0) then
      let buf1 := assign_region r0 r1 c0 c1 (rows_of h w (pixels_of payload)) buf in
      put_self (set_data (Some buf1) v) ;;;
      let buf2 := assign_chan r0 r1 c0 c1 (mode_index (mode v) ch_a) xff buf1 in
      put_self (set_data (Some buf2) v)
    else raise ValueError_broadcast
  else raise TypeError_buffer.

Definition read_body (hd : Header) : M Video unit :=
  payload <- read_payload hd ;; store_rect hd payload.

(** [Video.read] *)
Definition Video_read : M Video unit :=
  hd <- read_header ;; read_body hd.

(** [Video.as_rgba] *)
Definition as_rgba (v : Video) : array3 :=
  match data v with
  | None => np_zeros (height v) (width v)
  | Some d =>
      match mode v with
      | RGBA => d
      | ABGR => map (map rev_pixel) d
      | m => map (map (fun p => Px (chan (mode_index m ch_r) p)
                                   (chan (mode_index m ch_g) p)
                                   (chan (mode_index m ch_b) p)
                                   (chan (mode_index m ch_a) p))) d
      end
  end.

(** [arr.all()] on a plane of bytes: every item is non-zero. *)
Definition all_nonzero (k : nat) (d : array3) : bool :=
  forallb (forallb (fun p => negb (byte_val (chan k p) =? 0))) d.

(** [Video.is_complete] *)
Definition is_complete (v : Video) : bool :=
  match data v with
  | None => false
  | Some d => all_nonzero (mode_index (mode v) ch_a) d
  end.

(** ** Client *)

Inductive UpdateType := VIDEO.

(** [UpdateType(c)]: the member whose value is [c], if any. *)
Definition UpdateType_of (c : Z) : option UpdateType :=
  if c =? 0 then Some VIDEO else None.

Record Client := MkClient { c_reader : nat; video : Video }.

(** Running a method of [self.video] from a method of the client. *)
Definition with_video {A} (m : M Video A) : M Client A :=
  fun st =>
    let '(r, st') := m (MkSt (streams st) (video (self st))) in
    (r, MkSt (streams st') (MkClient (c_reader (self st)) (self st'))).

(** [for _ in range(n): m] *)
Fixpoint repeatM {O} (n : nat) (m : M O unit) : M O unit :=
  match n with
  | 0%nat => ret tt
  | S n' => m ;;; repeatM n' m
  end.

(** [Client.read] *)
Definition Client_read : M Client UpdateType :=
  c <- get_self ;;
  code <- read_int (c_reader c) 1 ;;
  match UpdateType_of code with
  | None => raise (ValueError_update_type code)
  | Some update_type =>
      (match update_type with
       | VIDEO =>
           readexactly (c_reader c) 1 ;;;
           n <- read_int (c_reader c) 2 ;;
           repeatM (Z.to_nat n) (with_video Video_read)
       end) ;;;
      ret update_type
  end.

(** ** Fractions (Python's [fractions.Fraction], as far as [score] uses it) *)

Record Fraction := MkFrac { numerator : Z; denominator : Z }.

(** The normalisation of [Fraction(n, d)] for [d <> 0]. *)
Definition mk_fraction (n d : Z) : Fraction :=
  let g := Z.gcd n d in
  let g := if d <? 0 then - g else g in
  MkFrac (n / g) (d / g).

(** [Fraction(n, d)]; [None] is [ZeroDivisionError]. *)
Definition Fraction_new (n d : Z) : option Fraction :=
  if d =? 0 then None else Some (mk_fraction n d).

Definition frac_eqb (a b : Fraction) : bool :=
  (numerator a =? numerator b) && (denominator a =? denominator b).

Definition frac_leb (a b : Fraction) : bool :=
  numerator a * denominator b <=? numerator b * denominator a.

Definition frac_min (a b : Fraction) : Fraction :=
  if frac_leb a b then a else b.

Definition frac_to_Q (a : Fraction) : Q :=
  Qmake (numerator a) (Z.to_pos (denominator a)).

(** The state [p0, q0, p1, q1, n, d] of the loop of [limit_denominator]. *)
Record LimState := MkLim {
  l_p0 : Z; l_q0 : Z; l_p1 : Z; l_q1 : Z; l_n : Z; l_d : Z
}.

(** The loop of [limit_denominator], as CPython's [fractions] module has
    it: it ends at the first [q2] above the bound.  [None] stands for a
    division by zero or for exhausted fuel. *)
Fixpoint lim_loop (fuel : nat) (maxd : Z) (s : LimState) : option LimState :=
  match fuel with
  | O => None
  | S fuel' =>
      if l_d s =? 0 then None
      else
        let a := l_n s / l_d s in
        let q2 := l_q0 s + a * l_q1 s in
        if q2 >? maxd then Some s
        else lim_loop fuel' maxd
               (MkLim (l_p1 s) (l_q1 s) (l_p0 s + a * l_p1 s) q2
                      (l_d s) (l_n s - a * l_d s))
  end.

(** [Fraction.limit_denominator(maxd)] for [maxd >= 1]. *)
Definition limit_denominator (maxd : Z) (f : Fraction) : option Fraction :=
  if denominator f <=? maxd then Some f
  else
    match lim_loop (Z.to_nat (denominator f)) maxd
                   (MkLim 0 1 1 0 (numerator f) (denominator f)) with
    | None => None
    | Some s =>
        let k := (maxd - l_q0 s) / l_q1 s in
        if 2 * l_d s * (l_q0 s + k * l_q1 s) <=? denominator f
        then Some (MkFrac (l_p1 s) (l_q1 s))
        else Some (MkFrac (l_p0 s + k * l_p1 s) (l_q0 s + k * l_q1 s))
    end.

(** Common screen aspect ratios. *)
Definition screen_ratios : list Fraction :=
  [mk_fraction 3 2; mk_fraction 4 3; mk_fraction 16 10;
   mk_fraction 16 9; mk_fraction 32 9; mk_fraction 64 27].

(** ** Floats (Python's [float], IEEE 754 binary64, as far as [score]
    uses it) *)

(** A finite float is held as the rational number it denotes, in lowest
    terms; the two zeros are one, as they are for Python's comparisons. *)
Inductive pyfloat :=
| Finite (q : Q)
| Infinite (negative : bool)
| NaN.

(** The integer nearest to [n / d], for [d > 0]; of two nearest ones, the
    even one. *)
Definition round_half_even (n d : Z) : Z :=
  let q := n / d in
  let r := n mod d in
  if 2 * r <? d then q
  else if d <? 2 * r then q + 1
  else if Z.even q then q else q + 1.

(** The [k] with [2 ^ k <= n / d < 2 ^ (k + 1)], for [n > 0] and [d > 0]. *)
Definition ilog2 (n d : Z) : Z :=
  let k := Z.log2 n - Z.log2 d in
  if (if 0 <=? k then d * 2 ^ k <=? n else d <=? n * 2 ^ (- k))
  then k else k - 1.

(** The float nearest to [n / d], for [d > 0] (round to nearest, ties to
    even): a multiple [m * 2 ^ e] of the weight [2 ^ e] of the last of 53
    bits, [e] no less than -1074; from [2 ^ 1024] on, an infinity. *)
Definition round64 (n d : Z) : pyfloat :=
  if n =? 0 then Finite 0
  else
    let a := Z.abs n in
    let e := Z.max (ilog2 a d - 52) (-1074) in
    let m := if 0 <=? e then round_half_even a (d * 2 ^ e)
             else round_half_even (a * 2 ^ (- e)) d in
    if (0 <=? e) && (2 ^ 1024 <=? m * 2 ^ e) then Infinite (n <? 0)
    else Finite (Qred (Qmake (Z.sgn n * m * 2 ^ Z.max e 0)
                             (Z.to_pos (2 ^ Z.max (- e) 0)))).

(** [float(n)] of an integer *)
Definition float_of_int (n : Z) : result pyfloat :=
  match round64 n 1 with
  | Infinite _ => Raise OverflowError_float
  | f => Ok f
  end.

(** [n / d] of two integers: the quotient, rounded once *)
Definition int_truediv (n d : Z) : result pyfloat :=
  if d =? 0 then Raise ZeroDivisionError
  else
    match (if d <? 0 then round64 (- n) (- d) else round64 n d) with
    | Infinite _ => Raise OverflowError_float
    | f => Ok f
    end.

(** [float(f)] of a fraction: [f.numerator / f.denominator] *)
Definition Fraction_float (f : Fraction) : result pyfloat :=
  int_truediv (numerator f) (denominator f).

(** [x * y] of two floats *)
Definition float_mul (x y : pyfloat) : pyfloat :=
  match x, y with
  | NaN, _ | _, NaN => NaN
  | Finite a, Finite b =>
      round64 (Qnum (a * b)) (Zpos (Qden (a * b)))
  | Finite a, Infinite s | Infinite s, Finite a =>
      if Qnum a =? 0 then NaN else Infinite (xorb s (Qnum a <? 0))
  | Infinite s, Infinite t => Infinite (xorb s t)
  end.

(** [x < y] of two floats *)
Definition float_lt (x y : pyfloat) : bool :=
  match x, y with
  | NaN, _ | _, NaN => false
  | Finite a, Finite b => negb (Qle_bool b a)
  | Finite _, Infinite neg => negb neg
  | Infinite neg, Finite _ => neg
  | Infinite n1, Infinite n2 => n1 && negb n2
  end.

(** ** Screen *)

Record Screen := MkScreen { s_x : Z; s_y : Z; s_width : Z; s_height : Z }.

(** [Screen.slices]: the bounds of the row slice and of the column slice. *)
Definition slices (s : Screen) : (Z * Z) * (Z * Z) :=
  ((s_y s, s_y s + s_height s), (s_x s, s_x s + s_width s)).

(** The two members of [ratios]; [None] is [ZeroDivisionError]. *)
Definition score_ratios (s : Screen) : option (Fraction * Fraction) :=
  match Fraction_new (s_width s) (s_height s) with
  | None => None
  | Some f1 =>
      match limit_denominator 64 f1 with
      | None => None
      | Some r1 =>
          match Fraction_new (s_height s) (s_width s) with
          | None => None
          | Some f2 =>
              match limit_denominator 64 f2 with
              | None => None
              | Some r2 => Some (r1, r2)
              end
          end
      end
  end.

Definition is_screen_ratio (r : Fraction) : bool :=
  existsb (frac_eqb r) screen_ratios.

(** [Screen.score] *)
Definition score (s : Screen) : result pyfloat :=
  match float_of_int (s_width s * s_height s) with
  | Raise e => Raise e
  | Ok value =>
      match score_ratios s with
      | None => Raise ZeroDivisionError
      | Some (r1, r2) =>
          if negb (is_screen_ratio r1 || is_screen_ratio r2)
          then
            match Fraction_float (frac_min r1 r2) with
            | Raise e => Raise e
            | Ok m => Ok (float_mul value (float_mul m (Finite (1 # 2))))
            end
          else Ok value
      end
  end.

(** ** Screen detection *)

(** [astype(np.int8)] and the wrap-around of int8 arithmetic. *)
Definition int8 (z : Z) : Z := (z + 128) mod 256 - 128.

Definition sub8 (a b : Z) : Z := int8 (a - b).
Definition and8 (a b : Z) : Z := int8 (Z.land a b).

(** [np.pad(m, ((1, 1), (1, 1)))] of a plane of [w] columns. *)
Definition np_pad (w : nat) (m : list (list Z)) : list (list Z) :=
  repeat 0 (w + 2)%nat :: map (fun row => 0 :: row ++ [0]) m
    ++ [repeat 0 (w + 2)%nat].

(** The arrays [detect_screens] works with: the pixel buffer [self.data]
    and the padded mask it allocates.  A view names the array it looks
    into, so that a write through a view lands in that array. *)
Record Arrays := MkArrays { buffer : array3; work : list (list Z) }.

Inductive Base :=
| OfBuffer (k : nat)   (* channel k of the pixel buffer *)
| OfWork.              (* the padded mask *)

Record View := MkView {
  base : Base; roff : nat; coff : nat; vrows : nat; vcols : nat
}.

(** [view[i, j]] *)
Definition view_get (A : Arrays) (v : View) (i j : nat) : Z :=
  match base v with
  | OfBuffer k => byte_val (chan k (get2 px0 (buffer A) (roff v + i) (coff v + j)))
  | OfWork => get2 0 (work A) (roff v + i) (coff v + j)
  end.

(** The absolute bounds in the base array of [view[lo:hi]] on one axis. *)
Definition abs_lo (off n : nat) (sl : Z * Z) : nat := (off + norm_idx n (fst sl))%nat.
Definition abs_hi (off n : nat) (sl : Z * Z) : nat := (off + norm_idx n (snd sl))%nat.

(** [view[rows, cols].all()] *)
Definition view_all (A : Arrays) (v : View) (sl : (Z * Z) * (Z * Z)) : bool :=
  let r0 := abs_lo (roff v) (vrows v) (fst sl) in
  let r1 := abs_hi (roff v) (vrows v) (fst sl) in
  let c0 := abs_lo (coff v) (vcols v) (snd sl) in
  let c1 := abs_hi (coff v) (vcols v) (snd sl) in
  match base v with
  | OfBuffer k =>
      forallb (fun row => forallb (fun p => negb (byte_val (chan k p) =? 0))
                                  (slice c0 c1 row))
              (slice r0 r1 (buffer A))
  | OfWork =>
      forallb (fun row => forallb (fun z => negb (z =? 0)) (slice c0 c1 row))
              (slice r0 r1 (work A))
  end.

(** [view[rows, cols] = 0] *)
Definition view_zero (A : Arrays) (v : View) (sl : (Z * Z) * (Z * Z)) : Arrays :=
  let r0 := abs_lo (roff v) (vrows v) (fst sl) in
  let r1 := abs_hi (roff v) (vrows v) (fst sl) in
  let c0 := abs_lo (coff v) (vcols v) (snd sl) in
  let c1 := abs_hi (coff v) (vcols v) (snd sl) in
  match base v with
  | OfBuffer k => MkArrays (assign_chan r0 r1 c0 c1 k x00 (buffer A)) (work A)
  | OfWork =>
      MkArrays (buffer A)
               (update_range (update_range (fun _ => 0) c0 c1) r0 r1 (work A))
  end.

(** [np.argwhere(f)] over an array of [rows x cols] items, row-major. *)
Definition argwhere (f : nat -> nat -> bool) (rows cols : nat) : list (nat * nat) :=
  flat_map (fun i => map (fun j => (i, j)) (filter (f i) (seq 0 cols)))
           (seq 0 rows).

(** [itertools.product] of four lists. *)
Definition product4 {A} (la lb lc ld : list A) : list (A * A * A * A) :=
  flat_map (fun a =>
    flat_map (fun b =>
      flat_map (fun c => map (fun d => (a, b, c, d)) ld) lc) lb) la.

(** One corner test: [p - r & q - r == -1] on int8 items. *)
Definition corner_test (p q r : Z) : bool :=
  and8 (sub8 p r) (sub8 q r) =? -1.

Definition Rect := (Z * Z * Z * Z)%type.

Definition Rect_eq_dec : forall a b : Rect, {a = b} + {a <> b}.
Proof. repeat decide equality. Defined.

(** The tuples one combination of corners adds to [rects], in order. *)
Definition rects_of (q : (nat * nat) * (nat * nat) * (nat * nat) * (nat * nat))
  : list Rect :=
  let '(a, b, c, d) := q in
  let a0 := fst a in let a1 := snd a in
  let b0 := fst b in let b1 := snd b in
  let c0 := fst c in let c1 := snd c in
  let d0 := fst d in let d1 := snd d in
  let ab := ((a0 =? b0) && (a1 <? b1))%nat in
  let cd := ((c0 =? d0) && (c1 <? d1))%nat in
  let ac := ((a1 =? c1) && (a0 <? c0))%nat in
  let bd := ((b1 =? d1) && (b0 <? d0))%nat in
  let z := Z.of_nat in
  (if ab && ac then [(z a1, z a0, z b1, z c0)] else [])
  ++ (if ab && bd then [(z a1, z a0, z d1, z d0)] else [])
  ++ (if cd && ac then [(z a1, z a0, z d1, z d0)] else [])
  ++ (if cd && bd then [(z c1, z b0, z d1, z d0)] else []).

Definition screen_of (r : Rect) : Screen :=
  let '(x0, y0, x1, y1) := r in MkScreen x0 y0 (x1 - x0) (y1 - y0).

(** The keys of [candidates.sort]: every score is computed first. *)
Fixpoint with_keys (l : list Screen) : result (list (pyfloat * Screen)) :=
  match l with
  | [] => Ok []
  | s :: l' =>
      match score s with
      | Raise e => Raise e
      | Ok k =>
          match with_keys l' with
          | Raise e => Raise e
          | Ok kl => Ok ((k, s) :: kl)
          end
      end
  end.

(** A stable sort by descending key, as [sort(key=..., reverse=True)]:
    of two candidates, the earlier one stays ahead unless its key is the
    smaller. *)
Fixpoint insert_desc (x : pyfloat * Screen) (l : list (pyfloat * Screen))
  : list (pyfloat * Screen) :=
  match l with
  | [] => [x]
  | y :: l' =>
      if float_lt (fst x) (fst y) then y :: insert_desc x l'
      else x :: l
  end.

Definition sort_desc (l : list (pyfloat * Screen)) : list (pyfloat * Screen) :=
  fold_right insert_desc [] l.

(** The number of non-zero items of the padded mask. *)
Definition nz (z : Z) : nat := if z =? 0 then 0%nat else 1%nat.

Definition row_area (row : list Z) : nat := list_sum (map nz row).

Definition area (m : list (list Z)) : nat := list_sum (map row_area m).

Section Detect.

(** The order in which Python iterates over the set [rects], given the
    tuples in the order they were added: some enumeration of the
    distinct tuples. *)
Variable set_iter : list Rect -> list Rect.
Hypothesis set_iter_perm :
  forall l, Permutation (set_iter l) (nodup Rect_eq_dec l).

(** The height and width of the pixel buffer. *)
Variables (H W : nat).

Definition mask_a := MkView OfWork 1 1 (H + 1) (W + 1).
Definition mask_b := MkView OfWork 1 0 (H + 1) (W + 1).
Definition mask_c := MkView OfWork 0 1 (H + 1) (W + 1).
Definition mask_d := MkView OfWork 0 0 (H + 1) (W + 1).

(** [p - r & q - r == -1] on three of the views. *)
Definition corners_where (A : Arrays) (p q r : View) : list (nat * nat) :=
  argwhere (fun i j => corner_test (view_get A p i j) (view_get A q i j)
                                   (view_get A r i j))
           (H + 1) (W + 1).

Definition top_left (A : Arrays) := corners_where A mask_b mask_c mask_a.
Definition top_right (A : Arrays) := corners_where A mask_a mask_d mask_b.
Definition bottom_left (A : Arrays) := corners_where A mask_d mask_a mask_c.
Definition bottom_right (A : Arrays) := corners_where A mask_c mask_b mask_d.

(** Lines 213-236: the candidates of one round, before sorting. *)
Definition candidates (A : Arrays) : list Screen :=
  let corners := product4 (top_left A) (top_right A)
                          (bottom_left A) (bottom_right A) in
  map screen_of (set_iter (flat_map rects_of corners)).

(** Lines 240-244: the first candidate whose region is all set. *)
Definition first_filled (A : Arrays) (cands : list Screen) : option Screen :=
  find (fun s => view_all A mask_a (slices s)) cands.

(** One round of the [while] loop: [Ok None] when no screen remains. *)
Definition detect_round (A : Arrays) : result (option (Screen * Arrays)) :=
  match with_keys (candidates A) with
  | Raise e => Raise e
  | Ok keyed =>
      match first_filled A (map snd (sort_desc keyed)) with
      | Some s => Ok (Some (s, view_zero A mask_a (slices s)))
      | None => Ok None
      end
  end.

(** The [while True] loop; [None] when the fuel runs out. *)
Fixpoint detect_loop (fuel : nat) (A : Arrays) (screens : list Screen)
  : option (result (list Screen) * Arrays) :=
  match fuel with
  | O => None
  | S fuel' =>
      match detect_round A with
      | Raise e => Some (Raise e, A)
      | Ok None => Some (Ok screens, A)
      | Ok (Some (s, A')) => detect_loop fuel' A' (screens ++ [s])
      end
  end.

End Detect.

(** Lines 203-204.  [mask = self.data[:, :, k]] is a view of the pixel
    buffer; [mask // 255] reads through it into a new array, which
    [np.pad] and [astype] copy again: the padded mask shares nothing with
    the buffer. *)
Definition alpha_view (h w k : nat) : View := MkView (OfBuffer k) 0 0 h w.

Definition initial_mask (h w k : nat) (d : array3) : list (list Z) :=
  np_pad w
    (map (fun i =>
            map (fun j => int8 (view_get (MkArrays d []) (alpha_view h w k) i j / 255))
                (seq 0 w))
         (seq 0 h)).

(** [Video.detect_screens]: the screens, together with the video object as
    the call leaves it.  The loop is given one round per filled cell of
    the mask, and one more; [None] would mean that this was not enough. *)
Definition detect_screens (set_iter : list Rect -> list Rect) (v : Video)
  : option (result (list Screen) * Video) :=
  match data v with
  | None => Some (Ok [], v)
  | Some d =>
      let m := initial_mask (height v) (width v) (mode_index (mode v) ch_a) d in
      match detect_loop set_iter (height v) (width v) (S (area m))
                        (MkArrays d m) [] with
      | None => None
      | Some (r, A) => Some (r, set_data (Some (buffer A)) v)
      end
  end.

(** ** Definitions that follow the specification's wording *)

(** Spec: a cell is a corner exactly when the two first differences both
    equal [-1]. *)
Definition corner_spec (p q r : Z) : bool :=
  (p - r =? -1) && (q - r =? -1).

Definition corners_spec (h w : nat) (A : Arrays) (p q r : View) : list (nat * nat) :=
  argwhere (fun i j => corner_spec (view_get A p i j) (view_get A q i j)
                                   (view_get A r i j))
           (h + 1) (w + 1).

(** The R,G,B,A gather of one pixel of a buffer in mode [m]. *)
Definition to_rgba (m : Mode) (p : pixel) : pixel :=
  Px (chan (mode_index m ch_r) p) (chan (mode_index m ch_g) p)
     (chan (mode_index m ch_b) p) (chan (mode_index m ch_a) p).

(** Spec: the inverse permutation, which puts the channels of an R,G,B,A
    pixel back at the positions mode [m] names. *)
Definition inv_index (m : Mode) (k : nat) : nat :=
  match String.get k (mode_str m) with
  | Some c => match str_index c "rgba" with Some i => i | None => 0%nat end
  | None => 0%nat
  end.

Definition from_rgba (m : Mode) (p : pixel) : pixel :=
  Px (chan (inv_index m 0) p) (chan (inv_index m 1) p)
     (chan (inv_index m 2) p) (chan (inv_index m 3) p).

(** A pixel [(i, j)] lies inside the rectangle a header announces. *)
Definition inside (hd : Header) (i j : nat) : Prop :=
  h_y hd <= Z.of_nat i < h_y hd + h_height hd /\
  h_x hd <= Z.of_nat j < h_x hd + h_width hd.

(** [decodes st hds st']: from [st], successive calls of [Video.read]
    succeed, decoding the rectangles [hds] in turn and ending in [st']. *)
Inductive decodes : St Video -> list Header -> St Video -> Prop :=
| decodes_nil : forall st, decodes st [] st
| decodes_cons : forall st hd st1 st2 hds st3,
    read_header st = (Ok hd, st1) ->
    read_body hd st1 = (Ok tt, st2) ->
    decodes st2 hds st3 ->
    decodes st (hd :: hds) st3.

(** [reads v hds v']: successive calls of [Video.read] on the video [v]
    succeed, decoding the rectangles [hds] in turn and leaving the video
    [v'].  Between two calls anything may be read from or written to the
    streams: each call finds them in a state [ss] of its own. *)
Inductive reads : Video -> list Header -> Video -> Prop :=
| reads_nil : forall v, reads v [] v
| reads_cons : forall v ss hd st2 hds v',
    Video_read (MkSt ss v) = (Ok tt, st2) ->
    fst (read_header (MkSt ss v)) = Ok hd ->
    reads (self st2) hds v' ->
    reads v (hd :: hds) v'.

(** [iterates m k st st']: [k] consecutive runs of [m] from [st] succeed
    and end in [st']. *)
Inductive iterates {O} (m : M O unit) : nat -> St O -> St O -> Prop :=
| iterates_O : forall st, iterates m 0 st st
| iterates_S : forall k st st1 st2,
    m st = (Ok tt, st1) ->
    iterates m k st1 st2 ->
    iterates m (S k) st st2.

(** ** Concrete inputs *)

Definition video_alpha1 : Video :=
  MkVideo 0 0 (fun _ _ => None) [] "" 1 1 RGBA (Some [[Px x00 x00 x00 x01]]).


(** A decompressor that rejects every input. *)
Definition no_inflate : list byte -> list byte -> option (list byte) :=
  fun _ _ => None.

(** A one-pixel [rgba] video without a buffer, reading stream 0. *)
Definition video_1x1 : Video :=
  MkVideo 0 0 no_inflate [] "" 1 1 RGBA None.

(** A video of no pixel, without a buffer. *)
Definition video_0x0 : Video :=
  MkVideo 0 0 no_inflate [] "" 0 0 RGBA None.

(** Two pixels in a row: the first with alpha byte 255, the second with
    alpha byte 254. *)
Definition video_255_254 : Video :=
  MkVideo 0 0 no_inflate [] "" 2 1 RGBA
          (Some [[Px x00 x00 x00 xff; Px x00 x00 x00 xfe]]).

(** The store in which stream 0 holds [bs]. *)
Definition stream_of (bs : list byte) : Streams :=
  fun k => if (k =? 0)%nat then bs else [].

(** The header of a 1x1 rectangle at the origin with encoding [e]. *)
Definition header_1x1 (e : byte) : list byte :=
  [x00; x00; x00; x00; x00; x01; x00; x01; x00; x00; x00; e].

(** A Raw 1x1 rectangle whose body is missing. *)
Definition st_raw_short : St Video :=
  MkSt (stream_of (header_1x1 x00)) video_1x1.

(** A 1x1 rectangle with the unsupported encoding 5. *)
Definition st_enc5 : St Video :=
  MkSt (stream_of (header_1x1 x05)) video_1x1.

(** A Raw 1x1 rectangle whose pixel has alpha byte 0. *)
Definition st_raw_1px : St Video :=
  MkSt (stream_of (header_1x1 x00 ++ [x0a; x0b; x0c; x00])) video_1x1.

(** A Raw 2x2 rectangle, whole, sent to the one-pixel video. *)
Definition st_raw_2x2 : St Video :=
  MkSt (stream_of ([x00; x00; x00; x00; x00; x02; x00; x02;
                    x00; x00; x00; x00] ++ repeat x00 16))
       video_1x1.

(** A client, sharing stream 0 with its video, that receives a video
    update of one rectangle with the unsupported encoding 5. *)
Definition client_enc5 : St Client :=
  MkSt (stream_of ([x00; x00; x00; x01] ++ header_1x1 x05))
       (MkClient 0 video_1x1).

(** A client that receives the unknown update type 1. *)
Definition client_type1 : St Client :=
  MkSt (stream_of [x01; x00; x00; x00]) (MkClient 0 video_1x1).

(** An iteration order for [rects]: the order of first insertion. *)
Definition set_order : list Rect -> list Rect := nodup Rect_eq_dec.

Definition opaque_px : pixel := Px x00 x00 x00 xff.

(** A [rgba] video of [w] columns and [h] rows whose buffer is filled. *)
Definition video_filled (w h : nat) : Video :=
  MkVideo 0 0 no_inflate [] "" w h RGBA (Some (repeat (repeat opaque_px w) h)).

(** The buffer in which exactly the regions (0,0,800,600) and
    (800,0,800,600) are filled: a filled buffer of 1600 by 600. *)
Definition video_two_regions : Video := video_filled 1600 600.

(** The arrays of [detect_screens] on a filled buffer of one pixel. *)
Definition arrays_1x1 : Arrays :=
  MkArrays [[opaque_px]] (initial_mask 1 1 3 [[opaque_px]]).
(** ** Notions used to state the properties *)

(** [consumed r n st st']: [st'] is [st] with [n] bytes taken from the
    front of stream [r] and nothing else changed. *)
Definition consumed {O} (r n : nat) (st st' : St O) : Prop :=
  self st' = self st /\
  (n <= length (streams st r))%nat /\
  streams st' r = skipn n (streams st r) /\
  (forall k, k <> r -> streams st' k = streams st k).

(** [kept v v']: the methods changed at most [fed] between [v] and [v']. *)
Definition kept (v v' : Video) : Prop :=
  reader v' = reader v /\ width v' = width v /\ height v' = height v /\
  mode v' = mode v /\ data v' = data v.

(** The buffer [store_rect] writes into, and the buffer it leaves. *)
Definition buffer_of (v : Video) : array3 :=
  match data v with
  | None => np_zeros (height v) (width v)
  | Some d => d
  end.

Definition stored (hd : Header) (payload : list byte) (v : Video) : array3 :=
  let H := height v in
  let W := width v in
  assign_chan (row_lo H hd) (row_hi H hd) (col_lo W hd) (col_hi W hd)
    (mode_index (mode v) ch_a) xff
    (assign_region (row_lo H hd) (row_hi H hd) (col_lo W hd) (col_hi W hd)
       (rows_of (Z.to_nat (h_height hd)) (Z.to_nat (h_width hd))
                (pixels_of payload))
       (buffer_of v)).

(** [Client.read] after its first byte. *)
Definition after_code (r : nat) (code : Z) : M Client UpdateType :=
  match UpdateType_of code with
  | None => raise (ValueError_update_type code)
  | Some update_type =>
      (match update_type with
       | VIDEO =>
           readexactly r 1 ;;;
           n <- read_int r 2 ;;
           repeatM (Z.to_nat n) (with_video Video_read)
       end) ;;;
      ret update_type
  end.

(** [covered hds i j]: pixel [(i, j)] lies inside one of the rectangles. *)
Definition covered (hds : list Header) (i j : nat) : Prop :=
  exists hd, In hd hds /\ inside hd i j.

(** The state of the buffer after the rectangles [seen] were decoded into
    a video of [H] rows and [W] columns whose alpha channel is [a]. *)
Definition buffer_inv (H W a : nat) (v : Video) (seen : list Header) : Prop :=
  height v = H /\ width v = W /\ mode_index (mode v) ch_a = a /\
  match data v with
  | None => seen = []
  | Some d =>
      shape_ok H W d /\
      forall i j, (i < H)%nat -> (j < W)%nat ->
        (chan a (get2 px0 d i j) = xff /\ covered seen i j) \/
        (chan a (get2 px0 d i j) = x00 /\ ~ covered seen i j)
  end.

(** A mask whose cells are all 0 or 1. *)
Definition bit_mask (m : list (list Z)) : Prop :=
  forall i j, get2 0 m i j = 0 \/ get2 0 m i j = 1.

(** What the loop of [limit_denominator] keeps true, for a reduced
    fraction with denominator [D] above the bound [maxd]. *)
Definition lim_inv (D maxd : Z) (s : LimState) : Prop :=
  l_n s * l_q1 s + l_d s * l_q0 s = D /\
  Z.gcd (l_n s) (l_d s) = 1 /\
  0 < l_n s /\ 0 <= l_d s /\
  0 <= l_q0 s <= maxd /\ 0 <= l_q1 s <= maxd.

(** The screen spanning columns [x0 .. x1 - 1] and rows [y0 .. y1 - 1]. *)
Definition span (x0 y0 x1 y1 : nat) : Screen :=
  MkScreen (Z.of_nat x0) (Z.of_nat y0)
           (Z.of_nat x1 - Z.of_nat x0) (Z.of_nat y1 - Z.of_nat y0).

(** The shape of the padded mask of a [H x W] buffer. *)
Definition mask_shape (H W : nat) (m : list (list Z)) : Prop :=
  length m = (H + 2)%nat /\ Forall (fun row => length row = (W + 2)%nat) m.

(** The padded cells of a mask filled exactly on rows [y0 .. y1 - 1] and
    columns [x0 .. x1 - 1]. *)
Definition in_rect (x0 y0 x1 y1 i j : nat) : bool :=
  ((y0 <? i) && (i <=? y1) && (x0 <? j) && (j <=? x1))%nat.

Definition rect_mask (x0 y0 x1 y1 : nat) (m : list (list Z)) : Prop :=
  forall i j, get2 0 m i j = if in_rect x0 y0 x1 y1 i j then 1 else 0.

Definition zero_mask (m : list (list Z)) : Prop :=
  forall i j, get2 0 m i j = 0.

(** Rows [y .. y + h - 1] and columns [x .. x + w - 1]. *)
Definition in_region (x y w h i j : nat) : Prop :=
  (y <= i < y + h /\ x <= j < x + w)%nat.


(** * The remaining methods *)

(** ** More exceptions *)

(** The methods below also raise exceptions that the ones above do not. *)
Inductive exc :=
| Exn (e : exn)          (* one of the exceptions above *)
| OverflowError          (* int.to_bytes: negative, or too big *)
| UnicodeDecodeError.    (* bytes.decode *)

Inductive outcome (A : Type) :=
| Done (a : A)
| Fail (e : exc).
Arguments Done {A} a.
Arguments Fail {A} e.

Definition MX (O A : Type) := St O -> outcome A * St O.

Definition retX {O A} (a : A) : MX O A := fun st => (Done a, st).

Definition bindX {O A B} (m : MX O A) (k : A -> MX O B) : MX O B :=
  fun st =>
    match m st with
    | (Done a, st') => k a st'
    | (Fail e, st') => (Fail e, st')
    end.

Definition raiseX {O A} (e : exc) : MX O A := fun st => (Fail e, st).

(** A computation of the first monad, run in the second. *)
Definition liftX {O A} (m : M O A) : MX O A :=
  fun st =>
    match m st with
    | (Ok a, st') => (Done a, st')
    | (Raise e, st') => (Fail (Exn e), st')
    end.

Notation "x <~ m ;; k" := (bindX m (fun x => k))
  (at level 100, m at next level, right associativity) : vnc_scope.
Notation "m ;;~ k" := (bindX m (fun _ => k))
  (at level 100, right associativity) : vnc_scope.

(** ** The wire writer *)

Definition byte_of (z : Z) : byte :=
  match Byte.of_N (Z.to_N z) with
  | Some b => b
  | None => x00
  end.

(** The [n] big-endian bytes of [v], for [0 <= v < 256 ^ n]. *)
Fixpoint be_bytes (n : nat) (v : Z) : list byte :=
  match n with
  | O => []
  | S n' => be_bytes n' (v / 256) ++ [byte_of (v mod 256)]
  end.

(** [v.to_bytes(n, 'big')]; [None] is [OverflowError]. *)
Definition to_bytes (n : nat) (v : Z) : option (list byte) :=
  if (0 <=? v) && (v <? 256 ^ Z.of_nat n) then Some (be_bytes n v) else None.

(** [StreamWriter.write(bs)]: a writer is an object of the store too; its
    list holds the bytes written so far. *)
Definition write {O} (w : nat) (bs : list byte) : MX O unit :=
  fun st =>
    (Done tt, MkSt (set_stream w (streams st w ++ bs) (streams st)) (self st)).

(** ** [read_text] *)

(** [read_text(reader, encoding)], with [decode] for [bytes.decode] in
    that encoding; [None] is [UnicodeDecodeError]. *)
Definition read_text {O} (decode : list byte -> option string) (r : nat)
  : MX O string :=
  len <~ liftX (read_int r 4) ;;
  bs <~ liftX (readexactly r (Z.to_nat len)) ;;
  match decode bs with
  | Some s => retX s
  | None => raiseX UnicodeDecodeError
  end.

(** ** [Video.create] and [Video.refresh] *)

(** [video_modes] *)
Definition video_modes : list (list byte * Mode) :=
  [([x20; x18; x00; x01; x00; xff; x00; xff; x00; xff; x10; x08; x00], BGRA);
   ([x20; x18; x00; x01; x00; xff; x00; xff; x00; xff; x00; x08; x10], RGBA);
   ([x20; x18; x01; x01; x00; xff; x00; xff; x00; xff; x10; x08; x00], ARGB);
   ([x20; x18; x01; x01; x00; xff; x00; xff; x00; xff; x00; x08; x10], ABGR)].

(** [dict.get(key)] *)
Fixpoint dict_get {V} (key : list byte) (d : list (list byte * V)) : option V :=
  match d with
  | [] => None
  | (k, v) :: d' =>
      if list_eq_dec Byte.byte_eq_dec key k then Some v else dict_get key d'
  end.

(** [b & 1] on a byte. *)
Definition and1 (b : byte) : byte := byte_of (Z.land (byte_val b) 1).

(** Lines 116-117: [mode_data[2] &= 1; mode_data[3] &= 1]. *)
Definition normalise_flags (mode_data : list byte) : list byte :=
  update_range and1 2 4 mode_data.

(** The message that asks the server for 32-bit [rgba] pixels. *)
Definition set_pixel_format_msg : list byte :=
  [x00; x00; x00; x00; x20; x18; x00; x01; x00; xff;
   x00; xff; x00; xff; x00; x08; x10; x00; x00; x00].

(** The message that announces the encodings of the client. *)
Definition set_encodings_msg : list byte :=
  [x02; x00; x00; x01; x00; x00; x00; x06].

(** [Video.create(reader, writer)]: [inflate] is the behaviour of a new
    [decompressobj()], [decode] is UTF-8 decoding. *)
Definition Video_create
  (decode : list byte -> option string)
  (inflate : list byte -> list byte -> option (list byte))
  (rd wr : nat) : MX unit Video :=
  width <~ liftX (read_int rd 2) ;;
  height <~ liftX (read_int rd 2) ;;
  mode_data <~ liftX (readexactly rd 13) ;;
  let mode := dict_get (normalise_flags mode_data) video_modes in
  liftX (readexactly rd 3) ;;~
  name <~ read_text decode rd ;;
  (match mode with
   | None => write wr set_pixel_format_msg
   | Some _ => retX tt
   end) ;;~
  write wr set_encodings_msg ;;~
  retX (MkVideo rd wr inflate [] name (Z.to_nat width) (Z.to_nat height)
                (match mode with None => RGBA | Some m => m end) None).

(** The bytes of the request that [Video.refresh] writes. *)
Definition refresh_msg (incremental x y w h : Z) : option (list byte) :=
  match to_bytes 1 incremental, to_bytes 2 x, to_bytes 2 y,
        to_bytes 2 w, to_bytes 2 h with
  | Some bi, Some bx, Some by_, Some bw, Some bh =>
      Some ([x03] ++ bi ++ bx ++ by_ ++ bw ++ bh)
  | _, _, _, _, _ => None
  end.

(** [Video.refresh(x, y, width, height)]; the defaults of the arguments
    are [0], [0], [None], [None]. *)
Definition Video_refresh (x y : Z) (w h : option Z) : MX Video unit :=
  v <~ liftX get_self ;;
  let incremental := match data v with Some _ => 1 | None => 0 end in
  let w := match w with None => Z.of_nat (width v) | Some w => w end in
  let h := match h with None => Z.of_nat (height v) | Some h => h end in
  match refresh_msg incremental x y w h with
  | Some msg => write (writer v) msg
  | None => raiseX OverflowError
  end.

(** ** [Client.screenshot] *)

Definition with_videoX {A} (m : MX Video A) : MX Client A :=
  fun st =>
    let '(r, st') := m (MkSt (streams st) (video (self st))) in
    (r, MkSt (streams st') (MkClient (c_reader (self st)) (self st'))).

(** [self.video.data = None] *)
Definition drop_buffer : MX Client unit :=
  fun st =>
    (Done tt, MkSt (streams st)
                   (MkClient (c_reader (self st))
                             (set_data None (video (self st))))).

(** The [while True] loop of [screenshot]; [None] when the fuel runs out. *)
Fixpoint screenshot_loop (fuel : nat) (st : St Client)
  : option (outcome array3 * St Client) :=
  match fuel with
  | O => None
  | S fuel' =>
      match Client_read st with
      | (Raise e, st') => Some (Fail (Exn e), st')
      | (Ok VIDEO, st') =>
          if is_complete (video (self st'))
          then Some (Done (as_rgba (video (self st'))), st')
          else screenshot_loop fuel' st'
      end
  end.

(** [Client.screenshot(x, y, width, height)] *)
Definition Client_screenshot (fuel : nat) (x y : Z) (w h : option Z)
  (st : St Client) : option (outcome array3 * St Client) :=
  match (drop_buffer ;;~ with_videoX (Video_refresh x y w h)) st with
  | (Fail e, st') => Some (Fail e, st')
  | (Done _, st') => screenshot_loop fuel st'
  end.

(** ** [main.py]: the reader over recorded data *)

(** [Reader.readexactly(n)]: the bytes taken and the bytes left; a short
    read raises nothing. *)
Definition Reader_readexactly (n : nat) (d : list byte)
  : list byte * list byte :=
  (firstn n d, skipn n d).

(** [read_int(reader, length)] of [main.py] *)
Definition main_read_int (n : nat) (d : list byte) : Z * list byte :=
  let '(bs, rest) := Reader_readexactly n d in (from_bytes bs, rest).

(** [read_text(reader, encoding)] of [main.py] *)
Definition main_read_text (decode : list byte -> option string)
  (d : list byte) : option string * list byte :=
  let '(len, d1) := main_read_int 4 d in
  let '(bs, d2) := Reader_readexactly (Z.to_nat len) d1 in
  (decode bs, d2).

(** ** Examples for the remaining code *)

(** A decoder for 7-bit text, the part of UTF-8 the examples use; any
    other byte is refused. *)
Definition decode_ascii (bs : list byte) : option string :=
  if forallb (fun b => byte_val b <? 128) bs
  then Some (string_of_list_byte bs) else None.

(** The store in which the reader is stream 0 and the writer stream 1, and
    the server announces a 2x1 desktop named [ab] in a 16-bit pixel format. *)
Definition st_server_init : St unit :=
  MkSt (stream_of ([x00; x02; x00; x01]
                   ++ [x10; x10; x00; x01; x00; x1f; x00; x3f; x00; x1f;
                       x0b; x05; x00]
                   ++ [x00; x00; x00]
                   ++ [x00; x00; x00; x02] ++ [x61; x62]))
       tt.

(** A server initialisation that ends after the width. *)
Definition st_server_short : St unit :=
  MkSt (stream_of [x00; x02]) tt.


(** ** Notions used to state the properties of the remaining code *)

(** Pixel [(i, j)] belongs to screen [s]. *)
Definition covers (s : Screen) (i j : nat) : Prop :=
  s_y s <= Z.of_nat i < s_y s + s_height s /\
  s_x s <= Z.of_nat j < s_x s + s_width s.

(** No pixel belongs to two screens of the list. *)
Definition disjoint_screens (screens : list Screen) : Prop :=
  forall k1 k2 s1 s2,
    k1 <> k2 ->
    nth_error screens k1 = Some s1 -> nth_error screens k2 = Some s2 ->
    forall i j, ~ (covers s1 i j /\ covers s2 i j).

(** What the detection loop keeps true of the mask [m0] it started from,
    of its working mask and of the screens accepted so far. *)
Definition loop_inv (H W : nat) (m0 : list (list Z)) (A : Arrays)
  (screens : list Screen) : Prop :=
  mask_shape H W (work A) /\
  (forall i j, get2 0 (work A) i j <> 0 -> get2 0 m0 i j <> 0) /\
  (forall s, In s screens ->
     (exists x0 y0 x1 y1 : nat,
         s = span x0 y0 x1 y1 /\ (x0 < x1 <= W)%nat /\ (y0 < y1 <= H)%nat) /\
     (forall i j, covers s i j ->
        get2 0 m0 (S i) (S j) <> 0 /\ get2 0 (work A) (S i) (S j) = 0)) /\
  disjoint_screens screens.

(** What the loop of [limit_denominator] keeps of the numerators when the
    fraction is at most one: each convergent is at most one, but for the
    state that follows the first step, whose [p0 / q0] is [1 / 0]. *)
Definition lim_low (s : LimState) : Prop :=
  0 <= l_p0 s /\ 0 <= l_p1 s /\ l_p1 s <= l_q1 s /\
  (l_p0 s <= l_q0 s \/
   (l_p0 s = 1 /\ l_q0 s = 0 /\ l_p1 s = 0 /\ l_q1 s = 1 /\
    l_d s <= l_n s)).

(** No stream is longer in [st'] than in [st]. *)
Definition shrinks {O O'} (st : St O) (st' : St O') : Prop :=
  forall k, (length (streams st' k) <= length (streams st k))%nat.

(** A computation that writes to no stream. *)
Definition quiet {O A} (m : M O A) : Prop :=
  forall st x st', m st = (x, st') -> shrinks st st'.

(** The state a method of the client's video runs in. *)
Definition video_state (st : St Client) : St Video :=
  MkSt (streams st) (video (self st)).

(** [q] is [x] up to the relative error [c]. *)
Definition near (c x q : Q) : Prop :=
  (x * (1 - c) <= q /\ q <= x * (1 + c))%Q.
(** * Properties *)

(** ** Bytes and channels *)

Lemma byte_val_range : forall b, 0 <= byte_val b < 256.
Proof.
  intros b. unfold byte_val.
  pose proof (Byte.to_N_bounded b) as Hb. lia.
Qed.

Lemma byte_val_inj : forall a b, byte_val a = byte_val b -> a = b.
Proof.
  intros a b H. unfold byte_val in H.
  apply N2Z.inj in H.
  apply (f_equal Byte.of_N) in H.
  rewrite !Byte.of_to_N in H. congruence.
Qed.

Lemma byte_val_xff : forall b, byte_val b = 255 <-> b = xff.
Proof.
  intros b; split; intros H.
  - apply byte_val_inj. rewrite H. reflexivity.
  - subst. reflexivity.
Qed.

Lemma byte_val_x00 : forall b, byte_val b = 0 <-> b = x00.
Proof.
  intros b; split; intros H.
  - apply byte_val_inj. rewrite H. reflexivity.
  - subst. reflexivity.
Qed.


(** ** Lists: ranges, slices, lookups *)

Lemma nth_map_seq {A} (g : nat -> A) (n i : nat) (d : A) :
  (i < n)%nat -> nth i (map g (seq 0 n)) d = g i.
Proof.
  intros Hi.
  rewrite (nth_indep _ d (g 0%nat)) by (rewrite length_map, length_seq; exact Hi).
  rewrite (map_nth g (seq 0 n) 0%nat i). rewrite seq_nth by exact Hi. reflexivity.
Qed.

Lemma length_update_range {A} (f : A -> A) (l : list A) :
  forall lo hi, length (update_range f lo hi l) = length l.
Proof.
  induction l as [|x l IH]; intros lo hi; simpl; [reflexivity|].
  destruct hi; [reflexivity|]. destruct lo; simpl; rewrite IH; reflexivity.
Qed.

Lemma nth_update_range_in {A} (f : A -> A) (d : A) (l : list A) :
  forall lo hi i,
    (lo <= i < hi)%nat -> (i < length l)%nat ->
    nth i (update_range f lo hi l) d = f (nth i l d).
Proof.
  induction l as [|x l IH]; intros lo hi i Hr Hi; simpl in *; [lia|].
  destruct hi; [lia|]. destruct lo.
  - destruct i; simpl; [reflexivity|]. apply IH; lia.
  - destruct i; [lia|]. simpl. apply IH; lia.
Qed.

Lemma nth_update_range_out {A} (f : A -> A) (d : A) (l : list A) :
  forall lo hi i,
    (i < lo \/ hi <= i)%nat ->
    nth i (update_range f lo hi l) d = nth i l d.
Proof.
  induction l as [|x l IH]; intros lo hi i Hr; simpl in *; [reflexivity|].
  destruct hi; [reflexivity|]. destruct lo.
  - destruct i; simpl; [lia|]. apply IH; lia.
  - destruct i; [reflexivity|]. simpl. apply IH; lia.
Qed.

Lemma Forall_update_range {A} (P : A -> Prop) (f : A -> A) (l : list A) :
  (forall x, P x -> P (f x)) ->
  forall lo hi, Forall P l -> Forall P (update_range f lo hi l).
Proof.
  intros Hf. induction l as [|x l IH]; intros lo hi Hl; simpl; [constructor|].
  inversion Hl; subst.
  destruct hi; [assumption|]. destruct lo; constructor; auto.
Qed.

Lemma length_blit_with {A B} (f : B -> A -> A) (dst : list A) :
  forall off src, length (blit_with f off src dst) = length dst.
Proof.
  induction dst as [|x dst IH]; intros off src; simpl; [reflexivity|].
  destruct off; [destruct src|]; simpl; try rewrite IH; reflexivity.
Qed.

Lemma nth_blit_with_out {A B} (f : B -> A -> A) (d : A) (dst : list A) :
  forall off src i,
    (i < off \/ off + length src <= i)%nat ->
    nth i (blit_with f off src dst) d = nth i dst d.
Proof.
  induction dst as [|x dst IH]; intros off src i Hr; simpl; [reflexivity|].
  destruct off.
  - destruct src as [|s src]; [reflexivity|]. simpl in Hr.
    destruct i; [lia|]. simpl. apply IH. simpl. lia.
  - destruct i; [reflexivity|]. simpl. apply IH. lia.
Qed.

Lemma nth_blit_with_in {A B} (f : B -> A -> A) (d : A) (dst : list A) :
  forall off src i,
    (off <= i < off + length src)%nat -> (i < length dst)%nat ->
    exists s, In s src /\ nth i (blit_with f off src dst) d = f s (nth i dst d).
Proof.
  induction dst as [|x dst IH]; intros off src i Hr Hi; simpl in *; [lia|].
  destruct off.
  - destruct src as [|s src]; simpl in *; [lia|].
    destruct i.
    + exists s. split; [left; reflexivity | reflexivity].
    + destruct (IH 0%nat src i) as (s' & Hin & Heq); [simpl; lia | lia |].
      exists s'. split; [right; exact Hin | exact Heq].
  - destruct i; [lia|]. simpl. apply IH; lia.
Qed.

Lemma Forall_blit_with {A B} (P : A -> Prop) (f : B -> A -> A) (dst : list A) :
  (forall s x, P x -> P (f s x)) ->
  forall off src, Forall P dst -> Forall P (blit_with f off src dst).
Proof.
  intros Hf. induction dst as [|x dst IH]; intros off src Hd; simpl; [constructor|].
  inversion Hd; subst.
  destruct off; [destruct src|]; try constructor; auto.
Qed.

Lemma length_fit {A} (n : nat) (l : list A) : (length (fit n l) <= n)%nat.
Proof. unfold fit. rewrite length_firstn. lia. Qed.

Lemma forallb_slice_nth {A} (p : A -> bool) (d : A) (l : list A) (lo hi i : nat) :
  forallb p (slice lo hi l) = true ->
  (lo <= i < hi)%nat -> (i < length l)%nat ->
  p (nth i l d) = true.
Proof.
  unfold slice. intros Hall Hr Hi.
  rewrite forallb_forall in Hall.
  assert (Hk : (i - lo < length (firstn (hi - lo) (skipn lo l)))%nat)
    by (rewrite length_firstn, length_skipn; lia).
  pose proof (nth_In _ d Hk) as Hin.
  rewrite nth_firstn, nth_skipn in Hin.
  destruct (i - lo <? hi - lo)%nat eqn:Hlt; [| apply Nat.ltb_ge in Hlt; lia].
  replace (lo + (i - lo))%nat with i in Hin by lia.
  apply Hall. exact Hin.
Qed.

Lemma slice_forallb_intro {A} (p : A -> bool) (d : A) (l : list A) (lo hi : nat) :
  (forall i, (lo <= i < hi)%nat -> (i < length l)%nat -> p (nth i l d) = true) ->
  forallb p (slice lo hi l) = true.
Proof.
  unfold slice. intros Hall. rewrite forallb_forall. intros x Hx.
  destruct (In_nth _ _ d Hx) as (k & Hk & Hnth).
  rewrite length_firstn, length_skipn in Hk.
  rewrite nth_firstn in Hnth.
  destruct (k <? hi - lo)%nat eqn:Hlt; [| apply Nat.ltb_ge in Hlt; lia].
  rewrite nth_skipn in Hnth. rewrite <- Hnth. apply Hall; lia.
Qed.

(** ** [argwhere] and [product4] *)

Lemma in_argwhere (f : nat -> nat -> bool) (rows cols i j : nat) :
  In (i, j) (argwhere f rows cols) <->
  (i < rows)%nat /\ (j < cols)%nat /\ f i j = true.
Proof.
  unfold argwhere. rewrite in_flat_map. split.
  - intros (i' & Hi' & Hin). rewrite in_map_iff in Hin.
    destruct Hin as (j' & Heq & Hj'). injection Heq as -> ->.
    rewrite filter_In in Hj'. rewrite in_seq in Hi', Hj'. repeat split; try lia.
    apply Hj'.
  - intros (Hi & Hj & Hf). exists i. split; [rewrite in_seq; lia|].
    rewrite in_map_iff. exists j. split; [reflexivity|].
    rewrite filter_In, in_seq. repeat split; try lia. exact Hf.
Qed.

Lemma argwhere_ext (f g : nat -> nat -> bool) (rows cols : nat) :
  (forall i j, (i < rows)%nat -> (j < cols)%nat -> f i j = g i j) ->
  argwhere f rows cols = argwhere g rows cols.
Proof.
  intros Hfg. unfold argwhere. rewrite !flat_map_concat_map. f_equal.
  apply map_ext_in. intros i Hi.
  rewrite in_seq in Hi. f_equal. apply filter_ext_in. intros j Hj.
  rewrite in_seq in Hj. apply Hfg; lia.
Qed.

Lemma filter_seq_nil (p : nat -> bool) (n s : nat) :
  (forall j, (s <= j < s + n)%nat -> p j = false) ->
  filter p (seq s n) = [].
Proof.
  revert s. induction n as [|n IH]; intros s Hp; simpl; [reflexivity|].
  rewrite (Hp s) by lia. apply IH. intros j Hj. apply Hp. lia.
Qed.

Lemma filter_seq_single (p : nat -> bool) (k n s : nat) :
  (s <= k < s + n)%nat ->
  (forall j, (s <= j < s + n)%nat -> j <> k -> p j = false) ->
  p k = true ->
  filter p (seq s n) = [k].
Proof.
  revert s. induction n as [|n IH]; intros s Hk Hp Hpk; simpl; [lia|].
  destruct (Nat.eq_dec s k) as [->|Hne].
  - rewrite Hpk. f_equal. apply filter_seq_nil. intros j Hj. apply Hp; lia.
  - rewrite (Hp s) by lia. apply IH; [lia | | exact Hpk].
    intros j Hj. apply Hp. lia.
Qed.

Lemma flat_map_seq_nil {B} (g : nat -> list B) (n s : nat) :
  (forall j, (s <= j < s + n)%nat -> g j = []) ->
  flat_map g (seq s n) = [].
Proof.
  revert s. induction n as [|n IH]; intros s Hg; simpl; [reflexivity|].
  rewrite (Hg s) by lia. simpl. apply IH. intros j Hj. apply Hg. lia.
Qed.

Lemma flat_map_seq_single {B} (g : nat -> list B) (k n s : nat) :
  (s <= k < s + n)%nat ->
  (forall j, (s <= j < s + n)%nat -> j <> k -> g j = []) ->
  flat_map g (seq s n) = g k.
Proof.
  revert s. induction n as [|n IH]; intros s Hk Hg; simpl; [lia|].
  destruct (Nat.eq_dec s k) as [->|Hne].
  - rewrite flat_map_seq_nil; [apply app_nil_r|].
    intros j Hj. apply Hg; lia.
  - rewrite (Hg s) by lia. simpl. apply IH; [lia|].
    intros j Hj. apply Hg. lia.
Qed.

Lemma argwhere_nil (f : nat -> nat -> bool) (rows cols : nat) :
  (forall i j, (i < rows)%nat -> (j < cols)%nat -> f i j = false) ->
  argwhere f rows cols = [].
Proof.
  intros Hf. unfold argwhere. apply flat_map_seq_nil. intros i Hi.
  rewrite filter_seq_nil; [reflexivity|]. intros j Hj. apply Hf; lia.
Qed.

Lemma argwhere_single (f : nat -> nat -> bool) (rows cols i0 j0 : nat) :
  (i0 < rows)%nat -> (j0 < cols)%nat ->
  f i0 j0 = true ->
  (forall i j, (i < rows)%nat -> (j < cols)%nat -> f i j = true ->
               i = i0 /\ j = j0) ->
  argwhere f rows cols = [(i0, j0)].
Proof.
  intros Hi0 Hj0 Hf0 Hf. unfold argwhere.
  rewrite (flat_map_seq_single _ i0 rows 0).
  - rewrite (filter_seq_single _ j0); [reflexivity | lia | | exact Hf0].
    intros j Hj Hne. destruct (f i0 j) eqn:E; [|reflexivity].
    destruct (Hf i0 j) as [? ?]; try lia. exact E.
  - lia.
  - intros i Hi Hne. rewrite filter_seq_nil; [reflexivity|].
    intros j Hj. destruct (f i j) eqn:E; [|reflexivity].
    destruct (Hf i j) as [? ?]; try lia. exact E.
Qed.

Lemma in_product4 {A} (la lb lc ld : list A) (a b c d : A) :
  In (a, b, c, d) (product4 la lb lc ld) ->
  In a la /\ In b lb /\ In c lc /\ In d ld.
Proof.
  unfold product4. rewrite in_flat_map. intros (a' & Ha & H1).
  rewrite in_flat_map in H1. destruct H1 as (b' & Hb & H2).
  rewrite in_flat_map in H2. destruct H2 as (c' & Hc & H3).
  rewrite in_map_iff in H3. destruct H3 as (d' & Heq & Hd).
  injection Heq as -> -> -> ->. auto.
Qed.
(** ** [as_rgba] *)

Lemma mode_index_is_str_index : forall m,
  str_index ch_r (mode_str m) = Some (mode_index m ch_r) /\
  str_index ch_g (mode_str m) = Some (mode_index m ch_g) /\
  str_index ch_b (mode_str m) = Some (mode_index m ch_b) /\
  str_index ch_a (mode_str m) = Some (mode_index m ch_a).
Proof. intros []; repeat split; reflexivity. Qed.

Lemma from_to_rgba : forall m p, from_rgba m (to_rgba m p) = p.
Proof. intros [] []; reflexivity. Qed.

Lemma to_from_rgba : forall m p, to_rgba m (from_rgba m p) = p.
Proof. intros [] []; reflexivity. Qed.

Lemma map_map_id {A} (f g : A -> A) (d : list (list A)) :
  (forall x, f (g x) = x) -> map (map f) (map (map g) d) = d.
Proof.
  intros Hfg. rewrite map_map.
  rewrite <- (map_id d) at 2. apply map_ext. intros row.
  rewrite map_map. rewrite <- (map_id row) at 2. apply map_ext. exact Hfg.
Qed.

Lemma to_rgba_RGBA : forall p, to_rgba RGBA p = p.
Proof. intros []; reflexivity. Qed.

Lemma to_rgba_ABGR : forall p, to_rgba ABGR p = rev_pixel p.
Proof. intros []; reflexivity. Qed.

Lemma as_rgba_gather : forall v d,
  data v = Some d -> as_rgba v = map (map (to_rgba (mode v))) d.
Proof.
  intros v d Hd. unfold as_rgba. rewrite Hd.
  destruct (mode v); try reflexivity.
  rewrite <- (map_id d) at 1. apply map_ext. intros row.
  rewrite <- (map_id row) at 1. apply map_ext. intros p.
  symmetry. apply to_rgba_RGBA.
Qed.

(** C7.  On an allocated buffer, [as_rgba] gathers the channels in R,G,B,A
    order: channel [c] of the result is channel [mode.index(c)] of the
    buffer; for [rgba] the buffer comes back as it is, for [abgr] with its
    channel axis reversed; the inverse permutation undoes the gather, and
    the gather undoes the inverse permutation.  With no buffer, the result
    is the all-zero array of [height] rows of [width] pixels. *)
Theorem as_rgba_permutes_channels :
  forall rd wr dc fd nm w h,
    (forall m d,
        let v := MkVideo rd wr dc fd nm w h m (Some d) in
        as_rgba v = map (map (to_rgba m)) d /\
        map (map (from_rgba m)) (as_rgba v) = d /\
        as_rgba (MkVideo rd wr dc fd nm w h m (Some (map (map (from_rgba m)) d))) = d /\
        str_index ch_r (mode_str m) = Some (mode_index m ch_r) /\
        str_index ch_g (mode_str m) = Some (mode_index m ch_g) /\
        str_index ch_b (mode_str m) = Some (mode_index m ch_b) /\
        str_index ch_a (mode_str m) = Some (mode_index m ch_a)) /\
    (forall d, as_rgba (MkVideo rd wr dc fd nm w h RGBA (Some d)) = d) /\
    (forall d, as_rgba (MkVideo rd wr dc fd nm w h ABGR (Some d))
               = map (map rev_pixel) d) /\
    (forall m, as_rgba (MkVideo rd wr dc fd nm w h m None)
               = repeat (repeat (Px x00 x00 x00 x00) w) h).
Proof.
  intros rd wr dc fd nm w h. split; [| split; [| split]].
  - intros m d v.
    pose proof (mode_index_is_str_index m) as (Hr & Hg & Hb & Ha).
    repeat split; try assumption.
    + apply as_rgba_gather. reflexivity.
    + rewrite (as_rgba_gather v d eq_refl). apply map_map_id, from_to_rgba.
    + erewrite as_rgba_gather by reflexivity. apply map_map_id, to_from_rgba.
  - intros d. reflexivity.
  - intros d. reflexivity.
  - intros m. reflexivity.
Qed.

(** ** [is_complete] *)

Lemma all_nonzero_Forall : forall k d,
  all_nonzero k d = true <-> Forall (Forall (fun p => chan k p <> x00)) d.
Proof.
  intros k d. unfold all_nonzero.
  rewrite forallb_forall, Forall_forall.
  split; intros Hall row Hrow; specialize (Hall row Hrow).
  - rewrite forallb_forall in Hall. rewrite Forall_forall. intros p Hp.
    specialize (Hall p Hp). apply negb_true_iff, Z.eqb_neq in Hall.
    intros Heq. apply Hall. rewrite Heq. reflexivity.
  - rewrite Forall_forall in Hall. rewrite forallb_forall. intros p Hp.
    apply negb_true_iff, Z.eqb_neq. intros Hz.
    apply (Hall p Hp). apply byte_val_x00. exact Hz.
Qed.

Lemma Forall2_impl {A} (P Q : A -> Prop) (d : list (list A)) :
  (forall x, P x -> Q x) -> Forall (Forall P) d -> Forall (Forall Q) d.
Proof.
  intros HPQ Hd. eapply Forall_impl; [| exact Hd].
  intros row Hrow. eapply Forall_impl; [| exact Hrow]. exact HPQ.
Qed.

Lemma Forall2_and {A} (P Q : A -> Prop) (d : list (list A)) :
  Forall (Forall P) d -> Forall (Forall Q) d ->
  Forall (Forall (fun x => P x /\ Q x)) d.
Proof.
  intros HP HQ. rewrite Forall_forall in *. intros row Hrow.
  specialize (HP row Hrow). specialize (HQ row Hrow).
  rewrite Forall_forall in *. intros x Hx. split; auto.
Qed.

(** C2, as the code has it.  [is_complete] is true exactly when a buffer
    is allocated and every alpha byte is non-zero; on a buffer whose alpha
    bytes are all 0 or 255, that is exactly when every alpha byte is 255. *)
Theorem is_complete_iff_alpha_nonzero :
  forall v,
    let a := mode_index (mode v) ch_a in
    (is_complete v = true <->
     exists d, data v = Some d /\ Forall (Forall (fun p => chan a p <> x00)) d) /\
    (forall d,
        data v = Some d ->
        Forall (Forall (fun p => chan a p = x00 \/ chan a p = xff)) d ->
        (is_complete v = true <-> Forall (Forall (fun p => chan a p = xff)) d)).
Proof.
  intros v a. unfold is_complete. fold a. split.
  - destruct (data v) as [d|].
    + rewrite all_nonzero_Forall. split.
      * intros Hd. exists d. split; [reflexivity | exact Hd].
      * intros (d' & Heq & Hd'). injection Heq as ->. exact Hd'.
    + split; [discriminate | intros (d' & Heq & _); discriminate].
  - intros d Hd Hbin. rewrite Hd, all_nonzero_Forall. split; intros Hall.
    + eapply Forall2_impl; [| exact (Forall2_and _ _ d Hbin Hall)].
      intros p [[H0 | Hff] Hne]; [contradiction | exact Hff].
    + eapply Forall2_impl; [| exact Hall].
      intros p Heq. rewrite Heq. discriminate.
Qed.

(** C2 fails as stated: a buffer whose only alpha byte is 1 is reported
    complete. *)
Lemma is_complete_alpha1 :
  is_complete video_alpha1 = true /\
  data video_alpha1 = Some [[Px x00 x00 x00 x01]] /\
  chan (mode_index (mode video_alpha1) ch_a) (Px x00 x00 x00 x01) <> xff.
Proof. repeat split. discriminate. Qed.

(** ** The wire reader *)

Lemma from_bytes_acc_nonneg : forall bs acc,
  0 <= acc -> 0 <= fold_left (fun a b => a * 256 + byte_val b) bs acc.
Proof.
  induction bs as [|b bs IH]; intros acc Hacc; simpl; [exact Hacc|].
  apply IH. pose proof (byte_val_range b). lia.
Qed.

Lemma from_bytes_nonneg : forall bs, 0 <= from_bytes bs.
Proof. intros bs. apply from_bytes_acc_nonneg. lia. Qed.

Lemma consumed_trans {O} (r n m : nat) (st st1 st2 : St O) :
  consumed r n st st1 -> consumed r m st1 st2 -> consumed r (n + m) st st2.
Proof.
  intros (Hs1 & Hl1 & Hr1 & Ho1) (Hs2 & Hl2 & Hr2 & Ho2).
  rewrite Hr1, length_skipn in Hl2.
  repeat split.
  - congruence.
  - lia.
  - rewrite Hr2, Hr1, skipn_skipn. f_equal. lia.
  - intros k Hk. rewrite Ho2, Ho1 by exact Hk. reflexivity.
Qed.

Lemma readexactly_inv {O} (r n : nat) (st st' : St O) (x : result (list byte)) :
  readexactly r n st = (x, st') ->
  (x = Ok (firstn n (streams st r)) /\ consumed r n st st') \/
  (x = Raise IncompleteReadError /\ (length (streams st r) < n)%nat /\
   self st' = self st).
Proof.
  unfold readexactly. intros Heq.
  destruct (n <=? length (streams st r))%nat eqn:Hn;
    injection Heq as <- <-.
  - left. apply Nat.leb_le in Hn. split; [reflexivity|].
    repeat split; simpl; try assumption.
    + unfold set_stream. rewrite Nat.eqb_refl. reflexivity.
    + intros k Hk. unfold set_stream. apply Nat.eqb_neq in Hk. rewrite Hk.
      reflexivity.
  - right. apply Nat.leb_gt in Hn. auto.
Qed.

Lemma read_int_inv {O} (r n : nat) (st st' : St O) (x : result Z) :
  read_int r n st = (x, st') ->
  (x = Ok (from_bytes (firstn n (streams st r))) /\ consumed r n st st') \/
  (x = Raise IncompleteReadError /\ (length (streams st r) < n)%nat /\
   self st' = self st).
Proof.
  unfold read_int, bind. intros Heq.
  destruct (readexactly r n st) as [[bs|e] st1] eqn:Hrd.
  - apply readexactly_inv in Hrd. destruct Hrd as [(Hx & Hc) | (Hx & _)];
      [|discriminate].
    injection Hx as ->. unfold ret in Heq. injection Heq as <- <-. left. auto.
  - apply readexactly_inv in Hrd. destruct Hrd as [(Hx & _) | (Hx & Hl & Hs)];
      [discriminate|].
    injection Hx as ->. injection Heq as <- <-. right. auto.
Qed.

(** A successful [read_header] takes the twelve bytes of the header from
    the video's stream, and nothing else; its fields are not negative. *)
Lemma read_header_ok : forall st hd st1,
  read_header st = (Ok hd, st1) ->
  consumed (reader (self st)) 12 st st1 /\
  0 <= h_x hd /\ 0 <= h_y hd /\ 0 <= h_width hd /\ 0 <= h_height hd.
Proof.
  intros st hd st1. unfold read_header, bind at 1, get_self.
  set (r := reader (self st)).
  unfold bind at 1.
  destruct (read_int r 2 st) as [[x|e] s1] eqn:E1; [|discriminate].
  unfold bind at 1.
  destruct (read_int r 2 s1) as [[y|e] s2] eqn:E2; [|discriminate].
  unfold bind at 1.
  destruct (read_int r 2 s2) as [[w|e] s3] eqn:E3; [|discriminate].
  unfold bind at 1.
  destruct (read_int r 2 s3) as [[h|e] s4] eqn:E4; [|discriminate].
  unfold bind at 1.
  destruct (read_int r 4 s4) as [[enc|e] s5] eqn:E5; [|discriminate].
  unfold ret. intros Heq. injection Heq as <- <-.
  apply read_int_inv in E1, E2, E3, E4, E5.
  destruct E1 as [(X1 & C1) | (X1 & _)]; [|discriminate].
  destruct E2 as [(X2 & C2) | (X2 & _)]; [|discriminate].
  destruct E3 as [(X3 & C3) | (X3 & _)]; [|discriminate].
  destruct E4 as [(X4 & C4) | (X4 & _)]; [|discriminate].
  destruct E5 as [(X5 & C5) | (X5 & _)]; [|discriminate].
  injection X1 as ->. injection X2 as ->. injection X3 as ->.
  injection X4 as ->. injection X5 as ->.
  split.
  - pose proof (consumed_trans _ _ _ _ _ _
                  (consumed_trans _ _ _ _ _ _
                     (consumed_trans _ _ _ _ _ _
                        (consumed_trans _ _ _ _ _ _ C1 C2) C3) C4) C5) as Hc.
    exact Hc.
  - simpl. repeat split; apply from_bytes_nonneg.
Qed.

Lemma kept_refl : forall v, kept v v.
Proof. intros v. repeat split. Qed.

(** What [read_payload] does: for an encoding other than 0 and 6 it
    raises at once; otherwise it never raises [ValueError(encoding)], and
    it leaves the buffer alone. *)
Lemma read_payload_inv : forall hd st x st',
  read_payload hd st = (x, st') ->
  kept (self st) (self st') /\
  ((h_encoding hd <> 0 /\ h_encoding hd <> 6 /\
    x = Raise (ValueError_encoding (h_encoding hd)) /\ st' = st) \/
   ((h_encoding hd = 0 \/ h_encoding hd = 6) /\
    (x = Raise IncompleteReadError \/ x = Raise ZlibError \/
     exists p, x = Ok p))).
Proof.
  intros hd st x st'. unfold read_payload, bind at 1, get_self.
  set (r := reader (self st)).
  destruct (h_encoding hd =? 0) eqn:E0.
  - apply Z.eqb_eq in E0. intros Hrd. apply readexactly_inv in Hrd.
    destruct Hrd as [(-> & Hs & _) | (-> & _ & Hs)];
      (split; [rewrite Hs; apply kept_refl|]); right; (split; [auto|]); eauto.
  - apply Z.eqb_neq in E0. destruct (h_encoding hd =? 6) eqn:E6.
    + apply Z.eqb_eq in E6. unfold bind at 1.
      destruct (read_int r 4 st) as [[len|e] s1] eqn:R1.
      * apply read_int_inv in R1. destruct R1 as [(_ & Hs1 & _) | (X & _)];
          [|discriminate].
        unfold bind at 1.
        destruct (readexactly r (Z.to_nat len) s1) as [[chunk|e] s2] eqn:R2.
        -- apply readexactly_inv in R2.
           destruct R2 as [(_ & Hs2 & _) | (X & _)]; [|discriminate].
           unfold call_decompress, bind at 1, get_self.
           destruct (decompress (self s2) (fed (self s2)) chunk) as [out|].
           ++ unfold bind, put_self, ret. intros Heq. injection Heq as <- <-.
              simpl. split; [|right; split; eauto].
              rewrite Hs2, Hs1. repeat split.
           ++ unfold raise. intros Heq. injection Heq as <- <-.
              split; [|right; split; eauto].
              rewrite Hs2, Hs1. apply kept_refl.
        -- apply readexactly_inv in R2.
           destruct R2 as [(X & _) | (X & _ & Hs2)]; [discriminate|].
           injection X as ->. intros Heq. injection Heq as <- <-.
           split; [|right; split; eauto].
           rewrite Hs2, Hs1. apply kept_refl.
      * apply read_int_inv in R1. destruct R1 as [(X & _) | (X & _ & Hs1)];
          [discriminate|].
        injection X as ->. intros Heq. injection Heq as <- <-.
        split; [|right; split; eauto].
        rewrite Hs1. apply kept_refl.
    + apply Z.eqb_neq in E6. unfold raise. intros Heq. injection Heq as <- <-.
      split; [apply kept_refl|]. left. auto.
Qed.

Lemma store_rect_inv : forall hd payload st x st',
  store_rect hd payload st = (x, st') ->
  streams st' = streams st /\
  ((x = Ok tt /\ self st' = set_data (Some (stored hd payload (self st))) (self st)) \/
   ((x = Raise TypeError_buffer \/ x = Raise ValueError_broadcast) /\
    self st' = set_data (Some (buffer_of (self st))) (self st))).
Proof.
  intros hd payload st x st'.
  unfold store_rect, bind at 1, get_self. unfold bind at 1, put_self.
  cbv zeta. fold (buffer_of (self st)).
  destruct (_ <=? length payload)%nat.
  - destruct (broadcast_ok _ _ _ _).
    + unfold bind, put_self. simpl. intros Heq. injection Heq as <- <-.
      split; [reflexivity|]. left. split; reflexivity.
    + unfold raise. intros Heq. injection Heq as <- <-.
      split; [reflexivity|]. right. auto.
  - unfold raise. intros Heq. injection Heq as <- <-.
    split; [reflexivity|]. right. auto.
Qed.

(** [Video.read] as a whole, once its header was read. *)
Lemma Video_read_after_header : forall st hd st1,
  read_header st = (Ok hd, st1) -> Video_read st = read_body hd st1.
Proof. intros st hd st1 Hh. unfold Video_read, bind. rewrite Hh. reflexivity. Qed.

(** C8, as the code has it.  Once the twelve bytes of the header are read,
    [Video.read] raises [ValueError(encoding)] exactly when the encoding
    is neither 0 nor 6; it does so with only the header consumed and with
    the video object, its buffer included, as it was.  For encodings 0 and
    6 a raised exception is never that one. *)
Theorem Video_read_unsupported_encoding :
  forall st hd st1,
    read_header st = (Ok hd, st1) ->
    let r := reader (self st) in
    (self st1 = self st /\
     streams st1 r = skipn 12 (streams st r) /\
     (forall k, k <> r -> streams st1 k = streams st k)) /\
    (h_encoding hd <> 0 /\ h_encoding hd <> 6 ->
     Video_read st = (Raise (ValueError_encoding (h_encoding hd)), st1)) /\
    (forall e st',
        Video_read st = (Raise (ValueError_encoding e), st') ->
        h_encoding hd <> 0 /\ h_encoding hd <> 6 /\
        e = h_encoding hd /\ st' = st1).
Proof.
  intros st hd st1 Hh r.
  pose proof (read_header_ok _ _ _ Hh) as ((Hself & _ & Hstr & Hoth) & _).
  split; [auto|].
  rewrite (Video_read_after_header _ _ _ Hh). unfold read_body, bind.
  split.
  - intros (H0 & H6).
    destruct (read_payload hd st1) as [x s2] eqn:Hp.
    apply read_payload_inv in Hp.
    destruct Hp as (_ & [(_ & _ & -> & ->) | ([E | E] & _)]);
      [reflexivity | contradiction | contradiction].
  - intros e st'.
    destruct (read_payload hd st1) as [x s2] eqn:Hp.
    apply read_payload_inv in Hp.
    destruct Hp as (_ & [(H0 & H6 & -> & ->) | (_ & [-> | [-> | (p & ->)]])]).
    + intros Heq. injection Heq as <- <-. auto.
    + discriminate.
    + discriminate.
    + intros Hst. apply store_rect_inv in Hst.
      destruct Hst as (_ & [(X & _) | ([X | X] & _)]); discriminate.
Qed.

Lemma Video_read_unsupported_encoding_witness :
  Video_read st_enc5
  = (Raise (ValueError_encoding 5), snd (read_header st_enc5)).
Proof.
  refine (proj1 (proj2 (Video_read_unsupported_encoding
                          st_enc5 (MkHeader 0 0 1 1 5)
                          (snd (read_header st_enc5)) _)) _).
  - reflexivity.
  - split; discriminate.
Defined.

(** C8 fails as stated: with encoding 0 and a stream that ends after the
    header, [Video.read] raises although the encoding is supported. *)
Lemma Video_read_raw_short_stream :
  fst (read_header st_raw_short) = Ok (MkHeader 0 0 1 1 0) /\
  fst (Video_read st_raw_short) = Raise IncompleteReadError.
Proof. split; reflexivity. Qed.

(** A rectangle that does not fit the buffer: the buffer is allocated, and
    the assignment of the decoded pixels raises. *)
Lemma Video_read_rectangle_outside_buffer :
  fst (Video_read st_raw_2x2) = Raise ValueError_broadcast /\
  data (self (snd (Video_read st_raw_2x2))) = Some [[px0]].
Proof. split; reflexivity. Qed.

(** ** [Client.read] *)

Lemma read_header_raises : forall st e st',
  read_header st = (Raise e, st') -> e = IncompleteReadError.
Proof.
  intros st e st'. unfold read_header, bind at 1, get_self.
  set (r := reader (self st)).
  unfold bind at 1.
  destruct (read_int r 2 st) as [[x|e1] s1] eqn:E1;
    [| apply read_int_inv in E1; intros Heq; injection Heq as <- <-;
       destruct E1 as [(X & _) | (X & _)]; congruence].
  unfold bind at 1.
  destruct (read_int r 2 s1) as [[y|e2] s2] eqn:E2;
    [| apply read_int_inv in E2; intros Heq; injection Heq as <- <-;
       destruct E2 as [(X & _) | (X & _)]; congruence].
  unfold bind at 1.
  destruct (read_int r 2 s2) as [[w|e3] s3] eqn:E3;
    [| apply read_int_inv in E3; intros Heq; injection Heq as <- <-;
       destruct E3 as [(X & _) | (X & _)]; congruence].
  unfold bind at 1.
  destruct (read_int r 2 s3) as [[h|e4] s4] eqn:E4;
    [| apply read_int_inv in E4; intros Heq; injection Heq as <- <-;
       destruct E4 as [(X & _) | (X & _)]; congruence].
  unfold bind at 1.
  destruct (read_int r 4 s4) as [[enc|e5] s5] eqn:E5;
    [| apply read_int_inv in E5; intros Heq; injection Heq as <- <-;
       destruct E5 as [(X & _) | (X & _)]; congruence].
  unfold ret. discriminate.
Qed.

(** [Video.read] never raises the exception of an unknown update type. *)
Lemma Video_read_raises : forall st e st',
  Video_read st = (Raise e, st') -> forall c, e <> ValueError_update_type c.
Proof.
  intros st e st' Hrd c. unfold Video_read, bind in Hrd.
  destruct (read_header st) as [[hd|e1] s1] eqn:Hh.
  - unfold read_body, bind in Hrd.
    destruct (read_payload hd s1) as [x s2] eqn:Hp.
    apply read_payload_inv in Hp.
    destruct Hp as (_ & [(_ & _ & -> & ->) | (_ & [-> | [-> | (p & ->)]])]).
    + injection Hrd as <- <-. discriminate.
    + injection Hrd as <- <-. discriminate.
    + injection Hrd as <- <-. discriminate.
    + apply store_rect_inv in Hrd.
      destruct Hrd as (_ & [(X & _) | ([X | X] & _)]);
        [discriminate X | injection X as -> | injection X as ->];
        discriminate.
  - injection Hrd as <- <-. apply read_header_raises in Hh. subst. discriminate.
Qed.

Lemma with_video_raises {A} (m : M Video A) : forall st e st',
  with_video m st = (Raise e, st') ->
  exists sv sv', m sv = (Raise e, sv').
Proof.
  intros st e st'. unfold with_video.
  destruct (m _) as [x sv'] eqn:Hm. intros Heq. injection Heq as -> <-.
  eauto.
Qed.

Lemma repeatM_iterates {O} (m : M O unit) : forall n st st',
  iterates m n st st' -> repeatM n m st = (Ok tt, st').
Proof.
  intros n st st' Hit. induction Hit as [st | k st st1 st2 Hm _ IH]; simpl.
  - reflexivity.
  - unfold bind. rewrite Hm. exact IH.
Qed.

Lemma repeatM_iterates_raise {O} (m : M O unit) : forall k st st5,
  iterates m k st st5 ->
  forall n e st6, (k < n)%nat -> m st5 = (Raise e, st6) ->
  repeatM n m st = (Raise e, st6).
Proof.
  intros k st st5 Hit.
  induction Hit as [st | k st st1 st2 Hm _ IH]; intros n e st6 Hk Hr;
    destruct n as [|n]; try lia; simpl; unfold bind.
  - rewrite Hr. reflexivity.
  - rewrite Hm. apply IH; [lia | exact Hr].
Qed.

Lemma repeatM_raises {O} (m : M O unit) : forall n st e st',
  repeatM n m st = (Raise e, st') ->
  exists k st5, (k < n)%nat /\ iterates m k st st5 /\ m st5 = (Raise e, st').
Proof.
  induction n as [|n IH]; intros st e st'; simpl.
  - unfold ret. discriminate.
  - unfold bind. destruct (m st) as [[[]|e1] s1] eqn:Hm.
    + intros Hrest. destruct (IH _ _ _ Hrest) as (k & st5 & Hk & Hit & Hr).
      exists (S k), st5. split; [lia|]. split; [|exact Hr].
      econstructor; eassumption.
    + intros Heq. injection Heq as <- <-.
      exists 0%nat, st. split; [lia|]. split; [constructor | exact Hm].
Qed.

Lemma from_bytes_single : forall b, from_bytes [b] = byte_val b.
Proof. intros b. unfold from_bytes. simpl. lia. Qed.

Lemma Client_read_first_byte : forall st b rest,
  streams st (c_reader (self st)) = b :: rest ->
  exists s1,
    consumed (c_reader (self st)) 1 st s1 /\
    Client_read st = after_code (c_reader (self st)) (byte_val b) s1.
Proof.
  intros st b rest Hs.
  unfold Client_read, bind at 1, get_self.
  set (r := c_reader (self st)) in *.
  unfold bind at 1.
  destruct (read_int r 1 st) as [x s1] eqn:R1.
  apply read_int_inv in R1. rewrite Hs in R1. simpl in R1.
  destruct R1 as [(-> & C1) | (_ & Hl & _)]; [| simpl in Hl; lia].
  rewrite from_bytes_single. exists s1. split; [exact C1 | reflexivity].
Qed.

(** C9, as the code has it.  With a first byte other than 0, [Client.read]
    raises the exception of an unknown update type, having taken that one
    byte only.  With a first byte 0 it never raises that exception; it
    takes the padding byte and the two bytes of the count [n] and then
    calls [Video.read]: when [n] calls in a row succeed it returns
    [VIDEO]; when the call after [k < n] successes raises, [Client.read]
    raises the same exception. *)
Theorem Client_read_update_type :
  forall st b rest,
    let r := c_reader (self st) in
    streams st r = b :: rest ->
    (byte_val b <> 0 ->
     exists st1,
       Client_read st = (Raise (ValueError_update_type (byte_val b)), st1) /\
       consumed r 1 st st1) /\
    (byte_val b = 0 ->
     (forall e st', Client_read st = (Raise e, st') ->
                    forall c, e <> ValueError_update_type c) /\
     (forall pad n1 n0 rest',
         rest = pad :: n1 :: n0 :: rest' ->
         exists st4,
           consumed r 4 st st4 /\
           let n := Z.to_nat (from_bytes [n1; n0]) in
           let m := with_video Video_read in
           (forall st', iterates m n st4 st' ->
                        Client_read st = (Ok VIDEO, st')) /\
           (forall k st5 e st6,
               (k < n)%nat -> iterates m k st4 st5 ->
               m st5 = (Raise e, st6) ->
               Client_read st = (Raise e, st6)))).
Proof.
  intros st b rest r Hs.
  destruct (Client_read_first_byte st b rest Hs) as (s1 & C1 & ->).
  fold r in C1 |- *. unfold after_code, UpdateType_of.
  split.
  - intros Hb. apply Z.eqb_neq in Hb. rewrite Hb.
    exists s1. split; [reflexivity | exact C1].
  - intros Hb. rewrite Hb. simpl (0 =? 0).
    cbv iota.
    split.
    + intros e st'. unfold bind at 1. unfold bind at 1.
      destruct (readexactly r 1 s1) as [[pad|e1] s2] eqn:R2.
      * unfold bind at 1.
        destruct (read_int r 2 s2) as [[n|e2] s3] eqn:R3.
        -- destruct (repeatM _ _ s3) as [[[]|e3] s4] eqn:R4.
           ++ unfold ret. discriminate.
           ++ intros Heq. injection Heq as <- <-.
              apply repeatM_raises in R4.
              destruct R4 as (k & st5 & _ & _ & Hr).
              apply with_video_raises in Hr. destruct Hr as (sv & sv' & Hr).
              apply (Video_read_raises _ _ _ Hr).
        -- intros Heq. injection Heq as <- <-.
           apply read_int_inv in R3.
           destruct R3 as [(X & _) | (X & _)]; [discriminate|].
           injection X as ->. discriminate.
      * intros Heq. injection Heq as <- <-.
        apply readexactly_inv in R2.
        destruct R2 as [(X & _) | (X & _)]; [discriminate|].
        injection X as ->. discriminate.
    + intros pad n1 n0 rest' ->.
      pose proof C1 as (Hself1 & _ & Hstr1 & _). rewrite Hs in Hstr1.
      simpl in Hstr1.
      destruct (readexactly r 1 s1) as [x2 s2] eqn:R2.
      pose proof R2 as R2'.
      apply readexactly_inv in R2'. rewrite Hstr1 in R2'. simpl in R2'.
      destruct R2' as [(-> & C2) | (_ & Hl & _)]; [| simpl in Hl; lia].
      pose proof C2 as (Hself2 & _ & Hstr2 & _). rewrite Hstr1 in Hstr2.
      simpl in Hstr2.
      destruct (read_int r 2 s2) as [x3 s3] eqn:R3.
      pose proof R3 as R3'.
      apply read_int_inv in R3'. rewrite Hstr2 in R3'. simpl in R3'.
      destruct R3' as [(-> & C3) | (_ & Hl & _)]; [| simpl in Hl; lia].
      exists s3. split.
      * apply (consumed_trans r 2 2 st s2 s3);
          [apply (consumed_trans r 1 1 st s1 s2)|]; assumption.
      * cbv zeta. split.
        -- intros st' Hit. apply repeatM_iterates in Hit.
           unfold bind. rewrite R2, R3, Hit. reflexivity.
        -- intros k st5 e st6 Hk Hit Hr.
           unfold bind. rewrite R2, R3.
           rewrite (repeatM_iterates_raise _ _ _ _ Hit _ _ _ Hk Hr).
           reflexivity.
Qed.

Lemma Client_read_update_type_witness :
  exists st1,
    Client_read client_type1 = (Raise (ValueError_update_type 1), st1) /\
    consumed 0 1 client_type1 st1.
Proof.
  refine (proj1 (Client_read_update_type client_type1 x01 [x00; x00; x00] _) _).
  - reflexivity.
  - discriminate.
Defined.

(** C9 fails as stated: the update type is 0, and [Client.read] raises,
    because [Video.read] does. *)
Lemma Client_read_raises_on_type_0 :
  hd_error (streams client_enc5 (c_reader (self client_enc5))) = Some x00 /\
  fst (Client_read client_enc5) = Raise (ValueError_encoding 5).
Proof. split; reflexivity. Qed.

(** ** Completeness of the buffer *)

Lemma shape_np_zeros : forall h w, shape_ok h w (np_zeros h w).
Proof.
  intros h w. unfold shape_ok, np_zeros. split.
  - apply repeat_length.
  - apply Forall_forall. intros row Hrow. apply repeat_spec in Hrow. subst.
    apply repeat_length.
Qed.

Lemma get2_np_zeros : forall h w i j, get2 px0 (np_zeros h w) i j = px0.
Proof.
  intros h w i j. unfold get2, np_zeros.
  destruct (Nat.lt_ge_cases i h) as [Hi|Hi].
  - rewrite (nth_repeat_lt (repeat px0 w) [] Hi). apply nth_repeat.
  - rewrite (nth_overflow (repeat (repeat px0 w) h) [])
      by (rewrite repeat_length; exact Hi).
    destruct j; reflexivity.
Qed.

Lemma shape_row {A} (h w : nat) (d : list (list A)) (i : nat) :
  length d = h -> Forall (fun row => length row = w) d ->
  (i < h)%nat -> length (nth i d []) = w.
Proof.
  intros Hl Hrows Hi. rewrite Forall_forall in Hrows. apply Hrows.
  apply nth_In. lia.
Qed.

Lemma shape_assign_region : forall h w r0 r1 c0 c1 src buf,
  shape_ok h w buf -> shape_ok h w (assign_region r0 r1 c0 c1 src buf).
Proof.
  intros h w r0 r1 c0 c1 src buf (Hl & Hrows). unfold assign_region. split.
  - rewrite length_blit_with. exact Hl.
  - apply Forall_blit_with; [|exact Hrows].
    intros s row Hrow. rewrite length_blit_with. exact Hrow.
Qed.

Lemma shape_assign_chan : forall h w r0 r1 c0 c1 k v buf,
  shape_ok h w buf -> shape_ok h w (assign_chan r0 r1 c0 c1 k v buf).
Proof.
  intros h w r0 r1 c0 c1 k v buf (Hl & Hrows). unfold assign_chan. split.
  - rewrite length_update_range. exact Hl.
  - apply Forall_update_range; [|exact Hrows].
    intros row Hrow. rewrite length_update_range. exact Hrow.
Qed.

Lemma get2_assign_region_out : forall r0 r1 c0 c1 src buf i j,
  ~ ((r0 <= i < r1)%nat /\ (c0 <= j < c1)%nat) ->
  get2 px0 (assign_region r0 r1 c0 c1 src buf) i j = get2 px0 buf i j.
Proof.
  intros r0 r1 c0 c1 src buf i j Hout. unfold get2, assign_region.
  pose proof (length_fit (r1 - r0) src) as Hfr.
  destruct (Nat.lt_ge_cases i (length buf)) as [Hi|Hi].
  2:{ rewrite !(nth_overflow _ []); try reflexivity; try exact Hi.
      rewrite length_blit_with. exact Hi. }
  destruct (Nat.lt_ge_cases i r0) as [Hlo|Hlo].
  { rewrite nth_blit_with_out by lia. reflexivity. }
  destruct (Nat.lt_ge_cases i (r0 + length (fit (r1 - r0) src))) as [Hhi|Hhi].
  2:{ rewrite nth_blit_with_out by lia. reflexivity. }
  destruct (nth_blit_with_in
              (fun srow drow => blit_with (fun p _ => p) c0 (fit (c1 - c0) srow) drow)
              [] buf r0 (fit (r1 - r0) src) i) as (s & _ & ->); [lia | exact Hi |].
  pose proof (length_fit (c1 - c0) s) as Hfc.
  apply nth_blit_with_out. lia.
Qed.

Lemma chan_set_chan : forall k v p, chan k (set_chan k v p) = v.
Proof. intros [|[|[|k]]] v p; reflexivity. Qed.

Lemma get2_assign_chan_in : forall h w r0 r1 c0 c1 k v buf i j,
  shape_ok h w buf -> (i < h)%nat -> (j < w)%nat ->
  (r0 <= i < r1)%nat -> (c0 <= j < c1)%nat ->
  chan k (get2 px0 (assign_chan r0 r1 c0 c1 k v buf) i j) = v.
Proof.
  intros h w r0 r1 c0 c1 k v buf i j (Hl & Hrows) Hi Hj Hr Hc.
  unfold get2, assign_chan.
  rewrite nth_update_range_in by lia.
  rewrite nth_update_range_in;
    [apply chan_set_chan | lia | rewrite (shape_row h w) by assumption; lia].
Qed.

Lemma get2_assign_chan_out : forall r0 r1 c0 c1 k v buf i j,
  ~ ((r0 <= i < r1)%nat /\ (c0 <= j < c1)%nat) ->
  get2 px0 (assign_chan r0 r1 c0 c1 k v buf) i j = get2 px0 buf i j.
Proof.
  intros r0 r1 c0 c1 k v buf i j Hout. unfold get2, assign_chan.
  destruct (Nat.lt_ge_cases i (length buf)) as [Hi|Hi].
  2:{ rewrite !(nth_overflow _ []); try reflexivity; try exact Hi.
      rewrite length_update_range. exact Hi. }
  destruct (Nat.lt_ge_cases i r0) as [Hlo|Hlo].
  { rewrite nth_update_range_out by lia. reflexivity. }
  destruct (Nat.lt_ge_cases i r1) as [Hhi|Hhi].
  2:{ rewrite nth_update_range_out by lia. reflexivity. }
  rewrite nth_update_range_in by lia.
  apply nth_update_range_out. lia.
Qed.

(** The rows and columns a header selects are those of its rectangle that
    exist in the buffer. *)
Lemma rows_inside : forall H hd i,
  0 <= h_y hd -> 0 <= h_height hd -> (i < H)%nat ->
  ((row_lo H hd <= i < row_hi H hd)%nat <->
   h_y hd <= Z.of_nat i < h_y hd + h_height hd).
Proof.
  intros H hd i Hy Hh Hi. unfold row_lo, row_hi, norm_idx.
  destruct (h_y hd <? 0) eqn:E1; [apply Z.ltb_lt in E1; lia|].
  destruct (h_y hd + h_height hd <? 0) eqn:E2; [apply Z.ltb_lt in E2; lia|].
  lia.
Qed.

Lemma cols_inside : forall W hd j,
  0 <= h_x hd -> 0 <= h_width hd -> (j < W)%nat ->
  ((col_lo W hd <= j < col_hi W hd)%nat <->
   h_x hd <= Z.of_nat j < h_x hd + h_width hd).
Proof.
  intros W hd j Hx Hw Hj. unfold col_lo, col_hi, norm_idx.
  destruct (h_x hd <? 0) eqn:E1; [apply Z.ltb_lt in E1; lia|].
  destruct (h_x hd + h_width hd <? 0) eqn:E2; [apply Z.ltb_lt in E2; lia|].
  lia.
Qed.

Lemma inside_dec : forall hd i j, {inside hd i j} + {~ inside hd i j}.
Proof.
  intros hd i j. unfold inside.
  destruct (Z_le_dec (h_y hd) (Z.of_nat i));
    destruct (Z_lt_dec (Z.of_nat i) (h_y hd + h_height hd));
    destruct (Z_le_dec (h_x hd) (Z.of_nat j));
    destruct (Z_lt_dec (Z.of_nat j) (h_x hd + h_width hd));
    try (left; lia); right; lia.
Qed.

(** The alpha bytes after one rectangle was stored: 255 inside it,
    untouched elsewhere, whatever the payload. *)
Lemma stored_alpha : forall hd payload v i j,
  shape_ok (height v) (width v) (buffer_of v) ->
  0 <= h_x hd -> 0 <= h_y hd -> 0 <= h_width hd -> 0 <= h_height hd ->
  (i < height v)%nat -> (j < width v)%nat ->
  let a := mode_index (mode v) ch_a in
  shape_ok (height v) (width v) (stored hd payload v) /\
  chan a (get2 px0 (stored hd payload v) i j)
  = if inside_dec hd i j then xff else chan a (get2 px0 (buffer_of v) i j).
Proof.
  intros hd payload v i j Hshape Hx Hy Hw Hh Hi Hj a. unfold stored.
  split.
  - apply shape_assign_chan, shape_assign_region, Hshape.
  - pose proof (rows_inside (height v) hd i Hy Hh Hi) as Hrows.
    pose proof (cols_inside (width v) hd j Hx Hw Hj) as Hcols.
    destruct (inside_dec hd i j) as [Hin | Hout].
    + destruct Hin as (Hr & Hc).
      apply (get2_assign_chan_in (height v) (width v));
        try assumption; [apply shape_assign_region, Hshape | tauto | tauto].
    + unfold inside in Hout.
      rewrite get2_assign_chan_out by tauto.
      rewrite get2_assign_region_out by tauto. reflexivity.
Qed.

Lemma Forall_get2 {A} (P : A -> Prop) (dflt : A) (h w : nat) (d : list (list A)) :
  length d = h -> Forall (fun row => length row = w) d ->
  (Forall (Forall P) d <->
   forall i j, (i < h)%nat -> (j < w)%nat -> P (get2 dflt d i j)).
Proof.
  intros Hl Hrows. unfold get2. split.
  - intros Hall i j Hi Hj. rewrite Forall_forall in Hall.
    assert (Hrow : In (nth i d []) d) by (apply nth_In; lia).
    specialize (Hall _ Hrow). rewrite Forall_forall in Hall. apply Hall.
    apply nth_In. rewrite (shape_row h w) by assumption. exact Hj.
  - intros Hall. apply Forall_forall. intros row Hrow.
    destruct (In_nth _ _ [] Hrow) as (i & Hi & <-).
    apply Forall_forall. intros p Hp.
    destruct (In_nth _ _ dflt Hp) as (j & Hj & <-).
    rewrite (shape_row h w) in Hj by (try assumption; lia).
    apply Hall; lia.
Qed.

Lemma buffer_inv_step : forall H W a st seen hd st1 st2,
  buffer_inv H W a (self st) seen ->
  read_header st = (Ok hd, st1) ->
  read_body hd st1 = (Ok tt, st2) ->
  buffer_inv H W a (self st2) (hd :: seen).
Proof.
  intros H W a st seen hd st1 st2 (HH & HW & Ha & Hdata) Hh Hb.
  apply read_header_ok in Hh.
  destruct Hh as ((Hself1 & _) & Hx & Hy & Hw & Hhh).
  unfold read_body, bind in Hb.
  destruct (read_payload hd st1) as [[p|e] s2] eqn:Hp; [|discriminate].
  apply read_payload_inv in Hp.
  destruct Hp as ((_ & Kw & Kh & Km & Kd) & _).
  apply store_rect_inv in Hb.
  destruct Hb as (_ & [(_ & Hself2) | ([X | X] & _)]); try discriminate.
  rewrite Hself1 in Kw, Kh, Km, Kd.
  set (v := self s2) in *.
  assert (Hbuf : shape_ok H W (buffer_of v) /\
                 forall i j, (i < H)%nat -> (j < W)%nat ->
                   (chan a (get2 px0 (buffer_of v) i j) = xff /\ covered seen i j) \/
                   (chan a (get2 px0 (buffer_of v) i j) = x00 /\ ~ covered seen i j)).
  { unfold buffer_of. rewrite Kd, Kh, Kw, HH, HW.
    destruct (data (self st)) as [d|]; [exact Hdata|].
    split; [apply shape_np_zeros|].
    intros i j _ _. right. rewrite get2_np_zeros. split.
    - destruct a as [|[|[|a]]]; reflexivity.
    - subst seen. intros (hd' & [] & _). }
  destruct Hbuf as (Hshape & Halpha).
  rewrite Hself2. unfold buffer_inv. simpl.
  rewrite Kh, Kw, Km.
  split; [exact HH|]. split; [exact HW|]. split; [exact Ha|]. split.
  - unfold stored. apply shape_assign_chan, shape_assign_region. exact Hshape.
  - intros i j Hi Hj.
    assert (Hs : shape_ok (height v) (width v) (buffer_of v))
      by (rewrite Kh, Kw, HH, HW; exact Hshape).
    destruct (stored_alpha hd p v i j Hs Hx Hy Hw Hhh) as (_ & Hch);
      try lia.
    rewrite Km, Ha in Hch. rewrite Hch.
    destruct (inside_dec hd i j) as [Hin | Hout].
    + left. split; [reflexivity|]. exists hd. split; [left; reflexivity | exact Hin].
    + destruct (Halpha i j Hi Hj) as [(Hff & Hcov) | (H00 & Hncov)].
      * left. split; [exact Hff|]. destruct Hcov as (hd' & Hin' & Hins).
        exists hd'. split; [right; exact Hin' | exact Hins].
      * right. split; [exact H00|]. intros (hd' & [<- | Hin'] & Hins).
        -- contradiction.
        -- apply Hncov. exists hd'. auto.
Qed.

Lemma buffer_inv_decodes : forall st hds st',
  decodes st hds st' ->
  forall H W a seen,
    buffer_inv H W a (self st) seen ->
    buffer_inv H W a (self st') (rev hds ++ seen).
Proof.
  intros st hds st' Hdec.
  induction Hdec as [st | st hd st1 st2 hds st3 Hh Hb _ IH];
    intros H W a seen Hinv.
  - exact Hinv.
  - simpl. rewrite <- app_assoc. simpl. apply IH.
    eapply buffer_inv_step; eassumption.
Qed.

(** The buffers [Video.read] builds hold alpha bytes 0 and 255 only. *)
Lemma decodes_alpha_0_or_255 : forall st hds st' d,
  data (self st) = None ->
  decodes st hds st' ->
  data (self st') = Some d ->
  Forall (Forall (fun p => chan (mode_index (mode (self st')) ch_a) p = x00 \/
                           chan (mode_index (mode (self st')) ch_a) p = xff)) d.
Proof.
  intros st hds st' d Hnone Hdec Hd.
  assert (Hinv0 : buffer_inv (height (self st)) (width (self st))
                    (mode_index (mode (self st)) ch_a) (self st) []).
  { unfold buffer_inv. rewrite Hnone. repeat split. }
  pose proof (buffer_inv_decodes _ _ _ Hdec _ _ _ _ Hinv0) as Hinv.
  destruct Hinv as (_ & _ & Ha & Hdata). rewrite Hd in Hdata.
  destruct Hdata as ((Hl & Hrows) & Halpha). rewrite Ha.
  apply (Forall_get2 _ px0 _ _ d Hl Hrows). intros i j Hi Hj.
  destruct (Halpha i j Hi Hj) as [(Hff & _) | (H00 & _)]; auto.
Qed.

(** One step of [decodes] is one successful call of [Video.read]. *)
Lemma Video_read_ok_iff : forall st st2,
  Video_read st = (Ok tt, st2) <->
  exists hd st1, read_header st = (Ok hd, st1) /\
                 read_body hd st1 = (Ok tt, st2).
Proof.
  intros st st2. unfold Video_read, bind. split.
  - destruct (read_header st) as [[hd|e] st1]; [|discriminate].
    intros Hb. exists hd, st1. split; [reflexivity | exact Hb].
  - intros (hd & st1 & -> & Hb). exact Hb.
Qed.

Lemma buffer_inv_reads : forall v hds v',
  reads v hds v' ->
  forall H W a seen,
    buffer_inv H W a v seen ->
    buffer_inv H W a v' (rev hds ++ seen).
Proof.
  intros v hds v' Hr.
  induction Hr as [v | v ss hd st2 hds v' Hread Hhd _ IH];
    intros H W a seen Hinv.
  - exact Hinv.
  - simpl. rewrite <- app_assoc. simpl. apply IH.
    apply Video_read_ok_iff in Hread.
    destruct Hread as (hd' & st1 & Hh & Hb).
    rewrite Hh in Hhd. simpl in Hhd. injection Hhd as ->.
    exact (buffer_inv_step H W a (MkSt ss v) seen hd st1 st2 Hinv Hh Hb).
Qed.

Lemma covered_dec : forall hds i j, {covered hds i j} + {~ covered hds i j}.
Proof.
  induction hds as [|hd hds IH]; intros i j.
  - right. intros (hd & [] & _).
  - destruct (inside_dec hd i j) as [Hin | Hout].
    + left. exists hd. split; [left; reflexivity | exact Hin].
    + destruct (IH i j) as [Hc | Hn].
      * left. destruct Hc as (hd' & Hin' & Hins). exists hd'.
        split; [right; exact Hin' | exact Hins].
      * right. intros (hd' & [<- | Hin'] & Hins); [contradiction|].
        apply Hn. exists hd'. auto.
Qed.

(** C5, as the code has it.  After any number of successful [Video.read]
    calls on a video that had no buffer, whatever went through the streams
    between the calls, the alpha byte of a pixel is 255 when one of the
    decoded rectangles holds the pixel and 0 when none does, whatever
    bytes the payloads held; and [is_complete] is true exactly when at
    least one call was made and every pixel lies inside one of the decoded
    rectangles. *)
Theorem is_complete_iff_covered :
  forall v hds v',
    data v = None ->
    reads v hds v' ->
    (is_complete v' = true <->
     hds <> [] /\
     forall i j, (i < height v)%nat -> (j < width v)%nat ->
                 exists hd, In hd hds /\ inside hd i j) /\
    (hds <> [] <-> data v' <> None) /\
    (forall d i j,
        data v' = Some d -> (i < height v)%nat -> (j < width v)%nat ->
        ((exists hd, In hd hds /\ inside hd i j) ->
         chan (mode_index (mode v) ch_a) (get2 px0 d i j) = xff) /\
        (~ (exists hd, In hd hds /\ inside hd i j) ->
         chan (mode_index (mode v) ch_a) (get2 px0 d i j) = x00)).
Proof.
  intros v hds v' Hnone Hr.
  set (H := height v). set (W := width v).
  set (a := mode_index (mode v) ch_a).
  assert (Hinv0 : buffer_inv H W a v []).
  { unfold buffer_inv. rewrite Hnone. repeat split. }
  pose proof (buffer_inv_reads _ _ _ Hr _ _ _ _ Hinv0) as Hinv.
  rewrite app_nil_r in Hinv.
  destruct Hinv as (_ & _ & Ha & Hdata).
  assert (Hcov : forall i j,
             covered (rev hds) i j <-> exists hd, In hd hds /\ inside hd i j).
  { intros i j. unfold covered.
    split; intros (hd & Hin & Hins); exists hd; (split; [|exact Hins]).
    - apply in_rev. exact Hin.
    - apply in_rev. rewrite rev_involutive. exact Hin. }
  assert (Hnil : data v' = None -> hds = []).
  { intros Hd. rewrite Hd in Hdata.
    destruct hds as [|hd hds]; [reflexivity|].
    simpl in Hdata. destruct (rev hds); discriminate. }
  assert (Hsome : hds = [] -> data v' = None).
  { intros ->. inversion Hr; subst. exact Hnone. }
  split; [| split].
  - unfold is_complete. rewrite Ha.
    destruct (data v') as [d|] eqn:Hd.
    + destruct Hdata as ((Hl & Hrows) & Halpha).
      rewrite all_nonzero_Forall.
      rewrite (Forall_get2 _ px0 H W d Hl Hrows).
      split.
      * intros Hall. split.
        -- intros Hn. specialize (Hsome Hn). discriminate.
        -- intros i j Hi Hj. apply Hcov.
           destruct (Halpha i j Hi Hj) as [(_ & Hc) | (H00 & _)];
             [exact Hc|].
           exfalso. exact (Hall i j Hi Hj H00).
      * intros (_ & Hall) i j Hi Hj.
        destruct (Halpha i j Hi Hj) as [(Hff & _) | (_ & Hncov)].
        -- rewrite Hff. discriminate.
        -- exfalso. apply Hncov, Hcov. exact (Hall i j Hi Hj).
    + split; [discriminate|]. intros (Hne & _). exfalso.
      exact (Hne (Hnil eq_refl)).
  - split.
    + intros Hne Hd. exact (Hne (Hnil Hd)).
    + intros Hd Hn. exact (Hd (Hsome Hn)).
  - intros d i j Hd Hi Hj. rewrite Hd in Hdata.
    destruct Hdata as (_ & Halpha).
    destruct (Halpha i j Hi Hj) as [(Hff & Hc) | (H00 & Hncov)]; split.
    + intros _. exact Hff.
    + intros Hn. exfalso. apply Hn, Hcov. exact Hc.
    + intros Hc. exfalso. apply Hncov, Hcov. exact Hc.
    + intros _. exact H00.
Qed.

Lemma is_complete_iff_covered_witness :
  is_complete (self (snd (Video_read st_raw_1px))) = true <->
  [MkHeader 0 0 1 1 0] <> [] /\
  forall i j, (i < 1)%nat -> (j < 1)%nat ->
              exists hd, In hd [MkHeader 0 0 1 1 0] /\ inside hd i j.
Proof.
  refine (proj1 (is_complete_iff_covered video_1x1 [MkHeader 0 0 1 1 0]
                   (self (snd (Video_read st_raw_1px))) _ _)).
  - reflexivity.
  - apply (reads_cons video_1x1 (streams st_raw_1px) (MkHeader 0 0 1 1 0)
                      (snd (Video_read st_raw_1px)) []);
      [vm_compute; reflexivity | vm_compute; reflexivity | apply reads_nil].
Defined.

(** C5 fails as stated on a video of no pixel before its first read:
    every pixel lies inside a decoded rectangle, there being none, and
    [is_complete] is false, there being no buffer. *)
Lemma is_complete_zero_area :
  data video_0x0 = None /\
  reads video_0x0 [] video_0x0 /\
  is_complete video_0x0 = false /\
  (forall i j, (i < height video_0x0)%nat -> (j < width video_0x0)%nat ->
               exists hd, In hd (@nil Header) /\ inside hd i j).
Proof.
  split; [reflexivity|]. split; [apply reads_nil|]. split; [reflexivity|].
  intros i j Hi. simpl in Hi. lia.
Qed.

(** ** The padded mask *)

Lemma view_get_work : forall A ro co r c i j,
  view_get A (MkView OfWork ro co r c) i j
  = get2 0 (work A) (ro + i) (co + j).
Proof. reflexivity. Qed.

(** Line 204 on one byte: [b // 255] as int8 is 1 for 255, else 0. *)
Lemma mask_cell : forall b,
  int8 (byte_val b / 255) = if byte_val b =? 255 then 1 else 0.
Proof.
  intros b. pose proof (byte_val_range b) as Hb.
  destruct (byte_val b =? 255) eqn:E.
  - apply Z.eqb_eq in E. rewrite E. reflexivity.
  - apply Z.eqb_neq in E. rewrite Z.div_small by lia. reflexivity.
Qed.

Lemma length_initial_mask : forall h w k d,
  length (initial_mask h w k d) = (h + 2)%nat.
Proof.
  intros h w k d. unfold initial_mask, np_pad. simpl.
  rewrite length_app, !length_map, length_seq. simpl. lia.
Qed.

Lemma rows_initial_mask : forall h w k d,
  Forall (fun row => length row = (w + 2)%nat) (initial_mask h w k d).
Proof.
  intros h w k d. unfold initial_mask, np_pad.
  constructor; [apply repeat_length|].
  apply Forall_app. split.
  - apply Forall_forall. intros row Hrow.
    rewrite map_map in Hrow. apply in_map_iff in Hrow.
    destruct Hrow as (i & <- & _). simpl.
    rewrite length_app, length_map, length_seq. simpl. lia.
  - constructor; [apply repeat_length | constructor].
Qed.

(** The cells of the initial mask: a border of zeros around the cells
    [b // 255] of the alpha channel. *)
Lemma get2_initial_mask : forall h w k d i j,
  get2 0 (initial_mask h w k d) i j
  = match i, j with
    | S i', S j' =>
        if (i' <? h)%nat && (j' <? w)%nat
        then (if byte_val (chan k (get2 px0 d i' j')) =? 255 then 1 else 0)
        else 0
    | _, _ => 0
    end.
Proof.
  intros h w k d i j. unfold initial_mask, np_pad, get2 at 1.
  destruct i as [|i'].
  - simpl. rewrite nth_repeat. destruct j; reflexivity.
  - cbn [nth]. rewrite map_map.
    destruct (Nat.lt_ge_cases i' h) as [Hi|Hi].
    + rewrite app_nth1 by (rewrite length_map, length_seq; exact Hi).
      rewrite nth_map_seq by exact Hi.
      destruct j as [|j']; [reflexivity|]. cbn [nth].
      apply Nat.ltb_lt in Hi. rewrite Hi. simpl andb.
      destruct (Nat.lt_ge_cases j' w) as [Hj|Hj].
      * rewrite app_nth1 by (rewrite length_map, length_seq; exact Hj).
        rewrite nth_map_seq by exact Hj.
        apply Nat.ltb_lt in Hj. rewrite Hj.
        unfold view_get, alpha_view. simpl. apply mask_cell.
      * rewrite app_nth2 by (rewrite length_map, length_seq; exact Hj).
        apply Nat.ltb_ge in Hj. rewrite Hj.
        destruct (j' - length _)%nat as [|[|n]]; reflexivity.
    + rewrite app_nth2 by (rewrite length_map, length_seq; exact Hi).
      rewrite length_map, length_seq.
      apply Nat.ltb_ge in Hi. rewrite Hi. simpl andb.
      destruct (i' - h)%nat as [|n]; cbn [nth].
      * rewrite nth_repeat. destruct j; reflexivity.
      * destruct n; destruct j; reflexivity.
Qed.

Lemma bit_mask_initial : forall h w k d, bit_mask (initial_mask h w k d).
Proof.
  intros h w k d i j. rewrite get2_initial_mask.
  destruct i; [auto|]. destruct j; [auto|].
  destruct (_ && _); [|auto]. destruct (_ =? 255); auto.
Qed.

(** ** Corner tests *)

Lemma corner_test_bits : forall p q r,
  (p = 0 \/ p = 1) -> (q = 0 \/ q = 1) -> (r = 0 \/ r = 1) ->
  corner_test p q r = corner_spec p q r /\
  corner_test p q r = (p =? 0) && (q =? 0) && (r =? 1).
Proof.
  intros p q r [-> | ->] [-> | ->] [-> | ->]; split; reflexivity.
Qed.

(** C6.  On a mask of zeros and ones, the code's test, the bitwise AND of
    the two differences compared with -1, holds exactly where both
    differences are -1: each of the four corner classes it collects is
    the class of the specification. *)
Theorem corner_test_refines_spec :
  forall H W A,
    bit_mask (work A) ->
    (forall p q r, In p [0; 1] -> In q [0; 1] -> In r [0; 1] ->
       (corner_test p q r = true <-> p - r = -1 /\ q - r = -1)) /\
    top_left H W A = corners_spec H W A (mask_b H W) (mask_c H W) (mask_a H W) /\
    top_right H W A = corners_spec H W A (mask_a H W) (mask_d H W) (mask_b H W) /\
    bottom_left H W A = corners_spec H W A (mask_d H W) (mask_a H W) (mask_c H W) /\
    bottom_right H W A = corners_spec H W A (mask_c H W) (mask_b H W) (mask_d H W).
Proof.
  intros H W A Hbit.
  assert (Hext : forall p q r,
             corners_where H W A (MkView OfWork (fst p) (snd p) (H + 1) (W + 1))
                           (MkView OfWork (fst q) (snd q) (H + 1) (W + 1))
                           (MkView OfWork (fst r) (snd r) (H + 1) (W + 1))
             = corners_spec H W A (MkView OfWork (fst p) (snd p) (H + 1) (W + 1))
                            (MkView OfWork (fst q) (snd q) (H + 1) (W + 1))
                            (MkView OfWork (fst r) (snd r) (H + 1) (W + 1))).
  { intros p q r. unfold corners_where, corners_spec. apply argwhere_ext.
    intros i j _ _. rewrite !view_get_work.
    apply corner_test_bits; apply Hbit. }
  split; [| repeat split].
  - intros p q r Hp Hq Hr. simpl in Hp, Hq, Hr.
    destruct (corner_test_bits p q r) as (-> & _); try tauto; try (intuition congruence).
    unfold corner_spec. rewrite andb_true_iff, !Z.eqb_eq. tauto.
  - exact (Hext (1, 0)%nat (0, 1)%nat (1, 1)%nat).
  - exact (Hext (1, 1)%nat (0, 0)%nat (1, 0)%nat).
  - exact (Hext (0, 0)%nat (1, 1)%nat (0, 1)%nat).
  - exact (Hext (0, 1)%nat (1, 0)%nat (0, 0)%nat).
Qed.

Lemma corner_test_refines_spec_witness :
  top_left 1 1 arrays_1x1
  = corners_spec 1 1 arrays_1x1 (mask_b 1 1) (mask_c 1 1) (mask_a 1 1).
Proof.
  exact (proj1 (proj2 (corner_test_refines_spec 1 1 arrays_1x1
                         (bit_mask_initial 1 1 3 [[opaque_px]])))).
Defined.

(** ** [limit_denominator] and [Screen.score] *)

Lemma lim_inv_d_pos : forall D maxd s,
  maxd < D -> lim_inv D maxd s -> 0 < l_d s.
Proof.
  intros D maxd s HD (Heq & Hg & Hn & Hd & Hq0 & Hq1).
  destruct (Z.eq_dec (l_d s) 0) as [E|E]; [|lia].
  rewrite E in Heq, Hg. rewrite Z.gcd_0_r in Hg.
  rewrite Z.abs_eq in Hg by lia. nia.
Qed.

Lemma lim_inv_step : forall D maxd s,
  maxd < D -> lim_inv D maxd s ->
  let a := l_n s / l_d s in
  l_q0 s + a * l_q1 s <= maxd ->
  lim_inv D maxd (MkLim (l_p1 s) (l_q1 s) (l_p0 s + a * l_p1 s)
                        (l_q0 s + a * l_q1 s) (l_d s) (l_n s - a * l_d s)) /\
  0 <= l_n s - a * l_d s < l_d s.
Proof.
  intros D maxd s HD Hinv a Hq2.
  pose proof (lim_inv_d_pos _ _ _ HD Hinv) as Hdpos.
  destruct Hinv as (Heq & Hg & Hn & Hd & Hq0 & Hq1).
  assert (Hmod : l_n s - a * l_d s = l_n s mod l_d s).
  { unfold a. rewrite Z.mod_eq by lia. lia. }
  assert (Ha : 0 <= a) by (apply Z.div_pos; lia).
  pose proof (Z.mod_pos_bound (l_n s) (l_d s) Hdpos) as Hbound.
  split; [|lia].
  unfold lim_inv. simpl. repeat split; try lia; try nia.
  rewrite Hmod. rewrite Z.gcd_comm, Z.gcd_mod by lia.
  rewrite Z.gcd_comm. exact Hg.
Qed.

Lemma lim_loop_total : forall D maxd fuel s,
  maxd < D -> lim_inv D maxd s -> l_d s <= Z.of_nat fuel ->
  exists s', lim_loop fuel maxd s = Some s' /\ lim_inv D maxd s' /\
             maxd < l_q0 s' + (l_n s' / l_d s') * l_q1 s'.
Proof.
  intros D maxd fuel. induction fuel as [|fuel IH]; intros s HD Hinv Hfuel.
  - pose proof (lim_inv_d_pos _ _ _ HD Hinv). lia.
  - pose proof (lim_inv_d_pos _ _ _ HD Hinv) as Hdpos.
    simpl. destruct (l_d s =? 0) eqn:E0; [apply Z.eqb_eq in E0; lia|].
    destruct (l_q0 s + l_n s / l_d s * l_q1 s >? maxd) eqn:Eq.
    + exists s. rewrite Z.gtb_ltb in Eq. apply Z.ltb_lt in Eq. auto.
    + rewrite Z.gtb_ltb in Eq. apply Z.ltb_ge in Eq.
      destruct (lim_inv_step D maxd s HD Hinv Eq) as (Hinv' & Hdec).
      apply IH; [exact HD | exact Hinv' | simpl; lia].
Qed.

Lemma limit_denominator_total : forall maxd f,
  1 <= maxd -> 0 < numerator f -> 0 < denominator f ->
  Z.gcd (numerator f) (denominator f) = 1 ->
  exists r, limit_denominator maxd f = Some r /\ 0 < denominator r <= maxd.
Proof.
  intros maxd f Hmax Hn Hd Hg. unfold limit_denominator.
  destruct (denominator f <=? maxd) eqn:E.
  - apply Z.leb_le in E. exists f. split; [reflexivity | lia].
  - apply Z.leb_gt in E.
    destruct (lim_loop_total (denominator f) maxd (Z.to_nat (denominator f))
                (MkLim 0 1 1 0 (numerator f) (denominator f)))
      as (s & -> & Hinv & Hbreak).
    + exact E.
    + unfold lim_inv. simpl. repeat split; try lia; try exact Hg.
    + simpl. lia.
    + destruct Hinv as (_ & _ & _ & _ & Hq0 & Hq1).
      assert (Hq1pos : 0 < l_q1 s).
      { destruct (Z.eq_dec (l_q1 s) 0) as [E1|E1]; [|lia].
        rewrite E1 in Hbreak. lia. }
      set (k := (maxd - l_q0 s) / l_q1 s).
      assert (Hk : 0 <= k) by (apply Z.div_pos; lia).
      assert (Hkq : k * l_q1 s <= maxd - l_q0 s).
      { unfold k. rewrite Z.mul_comm. apply Z.mul_div_le. exact Hq1pos. }
      assert (Hpos : 0 < l_q0 s + k * l_q1 s).
      { destruct (Z.eq_dec (l_q0 s) 0) as [E0|E0]; [|nia].
        assert (1 <= k); [|nia].
        unfold k. rewrite E0, Z.sub_0_r.
        apply Z.div_le_lower_bound; lia. }
      destruct (_ <=? denominator f); eexists; (split; [reflexivity|]);
        simpl; lia.
Qed.

Lemma mk_fraction_reduced : forall n d,
  0 < n -> 0 < d ->
  0 < numerator (mk_fraction n d) /\ 0 < denominator (mk_fraction n d) /\
  Z.gcd (numerator (mk_fraction n d)) (denominator (mk_fraction n d)) = 1.
Proof.
  intros n d Hn Hd. unfold mk_fraction.
  destruct (d <? 0) eqn:E; [apply Z.ltb_lt in E; lia|].
  simpl.
  pose proof (Z.gcd_nonneg n d) as Hg0.
  assert (Hg : Z.gcd n d <> 0).
  { intros E0. apply Z.gcd_eq_0_l in E0. lia. }
  pose proof (Z.gcd_divide_l n d) as (a & Ha).
  pose proof (Z.gcd_divide_r n d) as (b & Hb).
  repeat split.
  - rewrite Ha at 1. rewrite Z.div_mul by exact Hg. nia.
  - rewrite Hb at 1. rewrite Z.div_mul by exact Hg. nia.
  - apply Z.gcd_div_gcd; [exact Hg | reflexivity].
Qed.

(** For a screen of positive width and height the two ratios exist, with
    denominators between 1 and 64, and the score is defined. *)
Lemma score_ratios_total : forall s,
  0 < s_width s -> 0 < s_height s ->
  exists r1 r2,
    limit_denominator 64 (mk_fraction (s_width s) (s_height s)) = Some r1 /\
    limit_denominator 64 (mk_fraction (s_height s) (s_width s)) = Some r2 /\
    0 < denominator r1 <= 64 /\ 0 < denominator r2 <= 64 /\
    score_ratios s = Some (r1, r2).
Proof.
  intros s Hw Hh.
  destruct (mk_fraction_reduced (s_width s) (s_height s) Hw Hh) as (A1 & B1 & G1).
  destruct (mk_fraction_reduced (s_height s) (s_width s) Hh Hw) as (A2 & B2 & G2).
  destruct (limit_denominator_total 64 _ ltac:(lia) A1 B1 G1) as (r1 & E1 & D1).
  destruct (limit_denominator_total 64 _ ltac:(lia) A2 B2 G2) as (r2 & E2 & D2).
  exists r1, r2. repeat split; try assumption; try lia.
  unfold score_ratios, Fraction_new.
  destruct (s_height s =? 0) eqn:Eh; [apply Z.eqb_eq in Eh; lia|].
  rewrite E1.
  destruct (s_width s =? 0) eqn:Ew; [apply Z.eqb_eq in Ew; lia|].
  rewrite E2. reflexivity.
Qed.

(** The numerators of the convergents stay below their denominators when
    the fraction is at most one; [lim_low] is what the loop keeps after its
    first step. *)
Lemma lim_low_step : forall D maxd s,
  maxd < D -> lim_inv D maxd s -> lim_low s ->
  l_q0 s + (l_n s / l_d s) * l_q1 s <= maxd ->
  lim_low (MkLim (l_p1 s) (l_q1 s) (l_p0 s + (l_n s / l_d s) * l_p1 s)
                 (l_q0 s + (l_n s / l_d s) * l_q1 s)
                 (l_d s) (l_n s - (l_n s / l_d s) * l_d s)).
Proof.
  intros D maxd s HD Hinv (Hp0 & Hp1 & Hle & Hcase) Hq2.
  pose proof (lim_inv_d_pos _ _ _ HD Hinv) as Hdpos.
  destruct (lim_inv_step D maxd s HD Hinv Hq2) as (_ & Hrem).
  destruct Hinv as (_ & _ & Hn & _ & Hq0 & Hq1).
  assert (Ha : 0 <= l_n s / l_d s) by (apply Z.div_pos; lia).
  unfold lim_low. simpl.
  destruct Hcase as [Hnorm | (E0 & E1 & E2 & E3 & Hdn)].
  - repeat split; first [nia | left; lia].
  - assert (1 <= l_n s / l_d s)
      by (apply Z.div_le_lower_bound; lia).
    rewrite E0, E1, E2, E3. repeat split; first [lia | left; lia].
Qed.

Lemma lim_loop_low : forall D maxd fuel s s',
  maxd < D -> lim_inv D maxd s -> lim_low s ->
  lim_loop fuel maxd s = Some s' -> lim_low s'.
Proof.
  intros D maxd fuel. induction fuel as [|fuel IH];
    intros s s' HD Hinv Hlow Hrun; [discriminate|].
  simpl in Hrun. destruct (l_d s =? 0); [discriminate|].
  destruct (l_q0 s + l_n s / l_d s * l_q1 s >? maxd) eqn:Eq.
  - injection Hrun as <-. exact Hlow.
  - rewrite Z.gtb_ltb in Eq. apply Z.ltb_ge in Eq.
    refine (IH _ s' HD _ _ Hrun).
    + apply (lim_inv_step D maxd s HD Hinv Eq).
    + apply (lim_low_step D maxd s HD Hinv Hlow Eq).
Qed.

Lemma lim_nonneg_step : forall D maxd fuel s s',
  maxd < D -> lim_inv D maxd s -> 0 <= l_p0 s -> 0 <= l_p1 s ->
  lim_loop fuel maxd s = Some s' -> 0 <= l_p0 s' /\ 0 <= l_p1 s'.
Proof.
  intros D maxd fuel. induction fuel as [|fuel IH];
    intros s s' HD Hinv Hp0 Hp1 Hrun; [discriminate|].
  simpl in Hrun. destruct (l_d s =? 0); [discriminate|].
  destruct (l_q0 s + l_n s / l_d s * l_q1 s >? maxd) eqn:Eq.
  - injection Hrun as <-. auto.
  - rewrite Z.gtb_ltb in Eq. apply Z.ltb_ge in Eq.
    pose proof (lim_inv_d_pos _ _ _ HD Hinv) as Hdpos.
    assert (Ha : 0 <= l_n s / l_d s)
      by (apply Z.div_pos; destruct Hinv as (_ & _ & ? & _); lia).
    refine (IH _ s' HD _ _ _ Hrun); simpl.
    + apply (lim_inv_step D maxd s HD Hinv Eq).
    + exact Hp1.
    + nia.
Qed.

Lemma limit_denominator_nonneg : forall maxd f,
  1 <= maxd -> 0 < numerator f -> 0 < denominator f ->
  Z.gcd (numerator f) (denominator f) = 1 ->
  forall r, limit_denominator maxd f = Some r -> 0 <= numerator r.
Proof.
  intros maxd f Hmax Hn Hd Hg r. unfold limit_denominator.
  destruct (denominator f <=? maxd) eqn:E.
  - intros Hr. injection Hr as <-. lia.
  - apply Z.leb_gt in E.
    set (s0 := MkLim 0 1 1 0 (numerator f) (denominator f)).
    assert (Hinv0 : lim_inv (denominator f) maxd s0)
      by (unfold lim_inv; simpl; repeat split; try lia; exact Hg).
    destruct (lim_loop_total (denominator f) maxd
                (Z.to_nat (denominator f)) s0 E Hinv0 ltac:(simpl; lia))
      as (s & Hs & Hinv & Hbreak).
    rewrite Hs.
    destruct (lim_nonneg_step _ _ _ _ _ E Hinv0 ltac:(simpl; lia)
                ltac:(simpl; lia) Hs) as (Hp0 & Hp1).
    destruct Hinv as (_ & _ & _ & _ & Hq0 & Hq1).
    assert (Hq1pos : 0 < l_q1 s).
    { destruct (Z.eq_dec (l_q1 s) 0) as [E1|E1]; [|lia].
      rewrite E1 in Hbreak. lia. }
    assert (Hk : 0 <= (maxd - l_q0 s) / l_q1 s) by (apply Z.div_pos; lia).
    destruct (_ <=? denominator f); intros Hr; injection Hr as <-; simpl; nia.
Qed.

Lemma limit_denominator_le_1 : forall maxd f,
  1 <= maxd -> 0 < numerator f <= denominator f ->
  Z.gcd (numerator f) (denominator f) = 1 ->
  forall r, limit_denominator maxd f = Some r ->
            0 <= numerator r <= denominator r.
Proof.
  intros maxd f Hmax Hn Hg r. unfold limit_denominator.
  destruct (denominator f <=? maxd) eqn:E.
  - intros Hr. injection Hr as <-. lia.
  - apply Z.leb_gt in E.
    assert (Hlt : numerator f < denominator f).
    { destruct (Z.eq_dec (numerator f) (denominator f)) as [Heq|]; [|lia].
      rewrite Heq, Z.gcd_diag, Z.abs_eq in Hg by lia. lia. }
    destruct (Z.to_nat (denominator f)) as [|fuel] eqn:Ef; [lia|].
    set (s1 := MkLim 1 0 0 1 (denominator f) (numerator f)).
    assert (Hstep : lim_loop (S fuel) maxd
                      (MkLim 0 1 1 0 (numerator f) (denominator f))
                    = lim_loop fuel maxd s1).
    { cbn [lim_loop l_d l_n l_q0 l_q1 l_p0 l_p1].
      destruct (denominator f =? 0) eqn:E0; [apply Z.eqb_eq in E0; lia|].
      rewrite (Z.div_small (numerator f) (denominator f)) by lia.
      replace (1 + 0 * 0 >? maxd) with false
        by (symmetry; rewrite Z.gtb_ltb; apply Z.ltb_ge; lia).
      unfold s1. f_equal. f_equal; lia. }
    rewrite Hstep.
    assert (Hinv1 : lim_inv (denominator f) maxd s1).
    { unfold lim_inv, s1; simpl. repeat split; try lia.
      rewrite Z.gcd_comm. exact Hg. }
    assert (Hlow1 : lim_low s1).
    { unfold lim_low, s1; simpl. repeat split; first [lia | right; lia]. }
    destruct (lim_loop_total (denominator f) maxd fuel s1 E Hinv1
                ltac:(unfold s1; simpl; lia))
      as (s & Hs & Hinv & Hbreak).
    rewrite Hs.
    pose proof (lim_loop_low _ _ _ _ _ E Hinv1 Hlow1 Hs)
      as (Hp0 & Hp1 & Hle & Hcase).
    destruct Hinv as (_ & _ & _ & _ & Hq0 & Hq1).
    assert (Hq1pos : 0 < l_q1 s).
    { destruct (Z.eq_dec (l_q1 s) 0) as [E1|E1]; [|lia].
      rewrite E1 in Hbreak. lia. }
    assert (Hk : 0 <= (maxd - l_q0 s) / l_q1 s) by (apply Z.div_pos; lia).
    destruct (_ <=? denominator f); intros Hr; injection Hr as <-; simpl;
      [lia|].
    destruct Hcase as [Hnorm | (E0 & E1 & E2 & E3 & _)]; [nia|].
    rewrite E0, E1, E2, E3, Z.sub_0_r, Z.div_1_r. lia.
Qed.

Lemma mk_fraction_le : forall n d,
  0 < n <= d ->
  numerator (mk_fraction n d) <= denominator (mk_fraction n d).
Proof.
  intros n d Hnd. unfold mk_fraction.
  destruct (d <? 0) eqn:E; [apply Z.ltb_lt in E; lia|]. simpl.
  apply Z.div_le_mono; [|lia].
  pose proof (Z.gcd_nonneg n d).
  assert (Z.gcd n d <> 0) by (intros E0; apply Z.gcd_eq_0_l in E0; lia).
  lia.
Qed.

Lemma frac_min_le_1 : forall a b,
  0 < denominator a -> 0 < denominator b ->
  0 <= numerator a -> 0 <= numerator b ->
  numerator a <= denominator a \/ numerator b <= denominator b ->
  0 <= numerator (frac_min a b) <= denominator (frac_min a b) /\
  0 < denominator (frac_min a b).
Proof.
  intros a b Hda Hdb Hna Hnb Hle. unfold frac_min, frac_leb.
  destruct (_ <=? _) eqn:E.
  - apply Z.leb_le in E. destruct Hle; [lia|]. nia.
  - apply Z.leb_gt in E. destruct Hle; [|lia]. nia.
Qed.

(** ** Rounding to a float *)

Lemma round_half_even_exact : forall q d,
  0 < d -> round_half_even (q * d) d = q.
Proof.
  intros q d Hd. unfold round_half_even.
  rewrite Z.div_mul, Z.mod_mul by lia.
  replace (2 * 0 <? d) with true by (symmetry; apply Z.ltb_lt; lia).
  reflexivity.
Qed.

(** The rounded quotient is within a half of the quotient. *)
Lemma round_half_even_err : forall n d,
  0 < d ->
  2 * n - d <= 2 * (round_half_even n d * d) <= 2 * n + d.
Proof.
  intros n d Hd. unfold round_half_even.
  pose proof (Z.div_mod n d ltac:(lia)) as Hdm.
  pose proof (Z.mod_pos_bound n d Hd) as Hr.
  destruct (2 * (n mod d) <? d) eqn:E1.
  - apply Z.ltb_lt in E1. nia.
  - apply Z.ltb_ge in E1. destruct (d <? 2 * (n mod d)) eqn:E2.
    + apply Z.ltb_lt in E2. nia.
    + apply Z.ltb_ge in E2. destruct (Z.even (n / d)); nia.
Qed.

Lemma round_half_even_le : forall n d c,
  0 < d -> n <= c * d -> round_half_even n d <= c.
Proof.
  intros n d c Hd Hn.
  pose proof (round_half_even_err n d Hd) as (_ & Hup).
  assert (2 * (round_half_even n d * d) < 2 * ((c + 1) * d)) by nia.
  nia.
Qed.

Lemma round_half_even_ge : forall n d c,
  0 < d -> c * d <= n -> c <= round_half_even n d.
Proof.
  intros n d c Hd Hn.
  pose proof (round_half_even_err n d Hd) as (Hlo & _).
  assert (2 * ((c - 1) * d) < 2 * (round_half_even n d * d)) by nia.
  nia.
Qed.

(** [ilog2 n d] is the exponent of the leading bit of [n / d]. *)
Lemma ilog2_spec : forall n d,
  0 < n -> 0 < d ->
  let k := ilog2 n d in
  (0 <= k -> d * 2 ^ k <= n < d * 2 ^ (k + 1)) /\
  (k < 0 -> d <= n * 2 ^ (- k) /\ n * 2 ^ (- k) < 2 * d).
Proof.
  intros n d Hn Hd.
  pose proof (Z.log2_spec n Hn) as (Ln1 & Ln2).
  pose proof (Z.log2_spec d Hd) as (Ld1 & Ld2).
  pose proof (Z.log2_nonneg n) as Hln.
  pose proof (Z.log2_nonneg d) as Hld.
  rewrite Z.pow_succ_r in Ln2, Ld2 by assumption.
  unfold ilog2.
  set (k0 := Z.log2 n - Z.log2 d).
  destruct (0 <=? k0) eqn:E0.
  - apply Z.leb_le in E0.
    assert (Hn' : 2 ^ Z.log2 n = 2 ^ Z.log2 d * 2 ^ k0).
    { rewrite <- Z.pow_add_r by lia. f_equal. unfold k0. lia. }
    assert (Hp : 0 < 2 ^ k0) by (apply Z.pow_pos_nonneg; lia).
    assert (Hpd : 0 < 2 ^ Z.log2 d) by (apply Z.pow_pos_nonneg; lia).
    destruct (d * 2 ^ k0 <=? n) eqn:E1.
    + apply Z.leb_le in E1. split; [|lia]. intros _.
      rewrite Z.pow_add_r, Z.pow_1_r by lia. split; [exact E1|]. nia.
    + apply Z.leb_gt in E1. split.
      * intros Hk. split.
        -- assert (Hk0 : 2 ^ k0 = 2 * 2 ^ (k0 - 1)).
           { rewrite <- Z.pow_succ_r by lia. f_equal. lia. }
           nia.
        -- replace (k0 - 1 + 1) with k0 by lia. exact E1.
      * intros Hk. assert (k0 = 0) by lia.
        replace (- (k0 - 1)) with 1 by lia. rewrite Z.pow_1_r.
        rewrite H in *. rewrite Z.pow_0_r in *. lia.
  - apply Z.leb_gt in E0.
    assert (Hd' : 2 ^ Z.log2 d = 2 ^ Z.log2 n * 2 ^ (- k0)).
    { rewrite <- Z.pow_add_r by lia. f_equal. unfold k0. lia. }
    assert (Hp : 0 < 2 ^ (- k0)) by (apply Z.pow_pos_nonneg; lia).
    assert (Hpn : 0 < 2 ^ Z.log2 n) by (apply Z.pow_pos_nonneg; lia).
    destruct (d <=? n * 2 ^ (- k0)) eqn:E1.
    + apply Z.leb_le in E1. split; [lia|]. intros _. split; [exact E1|]. nia.
    + apply Z.leb_gt in E1. split; [lia|]. intros _.
      replace (- (k0 - 1)) with (Z.succ (- k0)) by lia.
      rewrite Z.pow_succ_r by lia. split; nia.
Qed.

Lemma Qred_inject_Z : forall n, Qred (inject_Z n) = inject_Z n.
Proof.
  intros n. unfold Qred, inject_Z.
  pose proof (Z.ggcd_gcd n 1) as Hg.
  pose proof (Z.ggcd_correct_divisors n 1) as Hd.
  destruct (Z.ggcd n 1) as (g & aa & bb). simpl in *.
  rewrite Z.gcd_1_r in Hg. subst g. destruct Hd as (Ha & Hb).
  rewrite Z.mul_1_l in Ha, Hb. subst aa bb. reflexivity.
Qed.

(** A quotient that is an integer is held as that integer. *)
Lemma Qred_integer : forall n z p,
  z = n * Zpos p -> Qred (z # p) = inject_Z n.
Proof.
  intros n z p Hz. rewrite <- (Qred_inject_Z n). apply Qred_complete.
  unfold Qeq, inject_Z. simpl. lia.
Qed.

Lemma ilog2_int : forall a, 0 < a -> ilog2 a 1 = Z.log2 a.
Proof.
  intros a Ha. unfold ilog2. change (Z.log2 1) with 0. rewrite Z.sub_0_r.
  pose proof (Z.log2_nonneg a) as Hl.
  pose proof (Z.log2_spec a Ha) as (L1 & _).
  replace (0 <=? Z.log2 a) with true by (symmetry; apply Z.leb_le; lia).
  replace (1 * 2 ^ Z.log2 a <=? a) with true
    by (symmetry; apply Z.leb_le; lia).
  reflexivity.
Qed.

Lemma round_half_even_1 : forall a, round_half_even a 1 = a.
Proof.
  intros a. pose proof (round_half_even_exact a 1 ltac:(lia)) as H.
  rewrite Z.mul_1_r in H. exact H.
Qed.

(** Integers of at most 53 bits are floats. *)
Lemma round64_int_exact : forall n,
  Z.abs n <= 2 ^ 53 -> round64 n 1 = Finite (inject_Z n).
Proof.
  intros n Hn. unfold round64.
  destruct (n =? 0) eqn:E0; [apply Z.eqb_eq in E0; subst; reflexivity|].
  apply Z.eqb_neq in E0.
  assert (Ha : 0 < Z.abs n) by lia.
  rewrite (ilog2_int _ Ha).
  pose proof (Z.log2_nonneg (Z.abs n)) as Hl.
  pose proof (Z.log2_spec _ Ha) as (L1 & L2).
  assert (Hk : Z.log2 (Z.abs n) <= 53).
  { destruct (Z_le_gt_dec (Z.log2 (Z.abs n)) 53) as [|Hgt]; [assumption|].
    assert (2 ^ 54 <= 2 ^ Z.log2 (Z.abs n))
      by (apply Z.pow_le_mono_r; lia).
    assert (2 ^ 53 < 2 ^ 54) by (apply Z.pow_lt_mono_r; lia). lia. }
  set (k := Z.log2 (Z.abs n)) in *.
  rewrite Z.max_l by lia.
  assert (Hsgn : Z.sgn n * Z.abs n = n) by (rewrite Z.mul_comm; apply Z.abs_sgn).
  destruct (0 <=? k - 52) eqn:Ee.
  - apply Z.leb_le in Ee.
    assert (Hcase : k = 52 \/ k = 53) by lia.
    destruct Hcase as [Hk52 | Hk53].
    + rewrite Hk52. change (52 - 52) with 0.
      change (1 * 2 ^ 0) with 1. rewrite round_half_even_1.
      replace (2 ^ 1024 <=? Z.abs n * 2 ^ 0) with false.
      2:{ symmetry. apply Z.leb_gt. rewrite Z.pow_0_r.
          assert (2 ^ 53 < 2 ^ 1024) by (apply Z.pow_lt_mono_r; lia). lia. }
      simpl andb. cbv iota. f_equal. apply Qred_integer.
      change (Z.max 0 0) with 0. change (Z.max (- 0) 0) with 0.
      rewrite Z.pow_0_r. change (Z.to_pos 1) with 1%positive. lia.
    + assert (Habs : Z.abs n = 2 ^ 53).
      { rewrite Hk53 in L1. lia. }
      rewrite Hk53, Habs. change (53 - 52) with 1.
      change (1 * 2 ^ 1) with 2.
      replace (2 ^ 53) with (2 ^ 52 * 2) by reflexivity.
      rewrite round_half_even_exact by lia.
      replace (2 ^ 1024 <=? 2 ^ 52 * 2 ^ 1) with false.
      2:{ symmetry. apply Z.leb_gt. rewrite <- Z.pow_add_r by lia.
          apply Z.pow_lt_mono_r; lia. }
      simpl andb. cbv iota. f_equal. apply Qred_integer.
      change (Z.max 1 0) with 1. change (Z.max (- 1) 0) with 0.
      rewrite Z.pow_0_r, Z.pow_1_r. change (Z.to_pos 1) with 1%positive.
      rewrite <- Hsgn, Habs.
      replace (2 ^ 53) with (2 ^ 52 * 2) by reflexivity.
      lia.
  - apply Z.leb_gt in Ee. simpl andb. cbv iota.
    rewrite round_half_even_1.
    f_equal. apply Qred_integer.
    rewrite (Z.max_r (k - 52) 0), (Z.max_l (- (k - 52)) 0) by lia.
    rewrite Z.pow_0_r.
    assert (Hp : 0 < 2 ^ (- (k - 52))) by (apply Z.pow_pos_nonneg; lia).
    rewrite Z2Pos.id by exact Hp.
    rewrite <- Hsgn at 2. lia.
Qed.

(** Below [2 ^ 1023] no quotient rounds to an infinity. *)
Lemma round64_finite : forall n d,
  0 <= n -> 0 < d -> n < d * 2 ^ 1023 ->
  exists q, round64 n d = Finite q.
Proof.
  intros n d Hn Hd Hlt. unfold round64.
  destruct (n =? 0) eqn:E0; [eauto|]. apply Z.eqb_neq in E0.
  rewrite Z.abs_eq by lia.
  assert (Hn' : 0 < n) by lia.
  destruct (ilog2_spec n d Hn' Hd) as (Hpos & _).
  set (k := ilog2 n d) in *.
  destruct (0 <=? Z.max (k - 52) (-1074)) eqn:Ee; [|simpl; eauto].
  apply Z.leb_le in Ee.
  assert (Hk : 52 <= k) by lia.
  rewrite Z.max_l in * by lia.
  destruct (Hpos ltac:(lia)) as (Hlo & Hhi).
  assert (Hk' : k < 1023).
  { destruct (Z_lt_ge_dec k 1023) as [|Hge]; [assumption|].
    assert (2 ^ 1023 <= 2 ^ k) by (apply Z.pow_le_mono_r; lia). nia. }
  set (e := k - 52) in *.
  assert (He : 0 < 2 ^ e) by (apply Z.pow_pos_nonneg; lia).
  assert (Hm : round_half_even n (d * 2 ^ e) <= 2 ^ 53).
  { apply round_half_even_le; [nia|].
    replace (2 ^ 53 * (d * 2 ^ e)) with (d * 2 ^ (k + 1)); [lia|].
    replace (k + 1) with (53 + e) by (unfold e; lia).
    rewrite Z.pow_add_r by lia. ring. }
  replace (2 ^ 1024 <=? round_half_even n (d * 2 ^ e) * 2 ^ e) with false;
    [simpl; eauto|].
  symmetry. apply Z.leb_gt.
  assert (2 ^ 53 * 2 ^ e < 2 ^ 1024).
  { rewrite <- Z.pow_add_r by lia. apply Z.pow_lt_mono_r; unfold e; lia. }
  nia.
Qed.

(** ** [float], [/] and [Screen.score] *)

Lemma float_of_int_exact : forall n,
  Z.abs n <= 2 ^ 53 -> float_of_int n = Ok (Finite (inject_Z n)).
Proof.
  intros n Hn. unfold float_of_int. rewrite (round64_int_exact n Hn).
  reflexivity.
Qed.

Lemma float_of_int_ok : forall n,
  0 <= n < 2 ^ 1023 -> exists q, float_of_int n = Ok (Finite q).
Proof.
  intros n Hn. unfold float_of_int.
  destruct (round64_finite n 1 ltac:(lia) ltac:(lia) ltac:(lia)) as (q & ->).
  eauto.
Qed.

Lemma float_of_int_raises : forall n e,
  float_of_int n = Raise e -> e = OverflowError_float.
Proof.
  intros n e. unfold float_of_int.
  destruct (round64 n 1); intros E; try discriminate.
  injection E as <-. reflexivity.
Qed.

(** A fraction between 0 and 1 has a float. *)
Lemma Fraction_float_ok : forall f,
  0 < denominator f -> 0 <= numerator f <= denominator f ->
  exists q, Fraction_float f = Ok (Finite q).
Proof.
  intros f Hd Hn. unfold Fraction_float, int_truediv.
  destruct (denominator f =? 0) eqn:E0; [apply Z.eqb_eq in E0; lia|].
  destruct (denominator f <? 0) eqn:E1; [apply Z.ltb_lt in E1; lia|].
  assert (Hlt : numerator f < denominator f * 2 ^ 1023).
  { assert (H1 : 1 < 2 ^ 1023) by (apply (Z.pow_gt_1 2 1023); lia).
    apply Z.le_lt_trans with (denominator f * 1); [lia|].
    apply Z.mul_lt_mono_pos_l; assumption. }
  destruct (round64_finite (numerator f) (denominator f)
              ltac:(lia) Hd Hlt) as (q & ->).
  eauto.
Qed.

(** The smaller of the two ratios of a screen of positive width and
    height lies between 0 and 1. *)
Lemma score_min_ratio : forall s r1 r2,
  0 < s_width s -> 0 < s_height s ->
  score_ratios s = Some (r1, r2) ->
  0 < denominator (frac_min r1 r2) /\
  0 <= numerator (frac_min r1 r2) <= denominator (frac_min r1 r2).
Proof.
  intros s r1 r2 Hw Hh E.
  destruct (score_ratios_total s Hw Hh)
    as (r1' & r2' & E1 & E2 & D1 & D2 & E').
  rewrite E in E'. injection E' as <- <-.
  destruct (mk_fraction_reduced (s_width s) (s_height s) Hw Hh)
    as (A1 & B1 & G1).
  destruct (mk_fraction_reduced (s_height s) (s_width s) Hh Hw)
    as (A2 & B2 & G2).
  pose proof (limit_denominator_nonneg 64 _ ltac:(lia) A1 B1 G1 r1 E1) as N1.
  pose proof (limit_denominator_nonneg 64 _ ltac:(lia) A2 B2 G2 r2 E2) as N2.
  assert (Hle : numerator r1 <= denominator r1 \/
                numerator r2 <= denominator r2).
  { destruct (Z_le_dec (s_width s) (s_height s)) as [L|L].
    - left.
      apply (limit_denominator_le_1 64 (mk_fraction (s_width s) (s_height s)));
        try assumption; try lia.
      split; [exact A1 | apply mk_fraction_le; lia].
    - right.
      apply (limit_denominator_le_1 64 (mk_fraction (s_height s) (s_width s)));
        try assumption; try lia.
      split; [exact A2 | apply mk_fraction_le; lia]. }
  destruct (frac_min_le_1 r1 r2 ltac:(lia) ltac:(lia) N1 N2 Hle)
    as (Hm & Hmd).
  split; assumption.
Qed.

(** For a screen of positive width and height, of an area below
    [2 ^ 1023], the score is defined. *)
Lemma score_total : forall s,
  0 < s_width s -> 0 < s_height s -> s_width s * s_height s < 2 ^ 1023 ->
  exists f, score s = Ok f.
Proof.
  intros s Hw Hh Harea. unfold score.
  destruct (float_of_int_ok (s_width s * s_height s)) as (v & ->); [nia|].
  destruct (score_ratios_total s Hw Hh) as (r1 & r2 & _ & _ & _ & _ & E).
  rewrite E.
  destruct (negb _); [|eauto].
  destruct (score_min_ratio s r1 r2 Hw Hh E) as (Hd & Hn).
  destruct (Fraction_float_ok _ Hd Hn) as (m & ->). eauto.
Qed.

(** For a screen of positive width and height, the one exception the
    score raises is that of [float] on an area beyond the floats. *)
Lemma score_raises : forall s e,
  0 < s_width s -> 0 < s_height s ->
  score s = Raise e -> e = OverflowError_float.
Proof.
  intros s e Hw Hh. unfold score.
  destruct (float_of_int (s_width s * s_height s)) as [v|e'] eqn:Ev.
  - destruct (score_ratios_total s Hw Hh) as (r1 & r2 & _ & _ & _ & _ & E).
    rewrite E.
    destruct (negb _); [|discriminate].
    destruct (score_min_ratio s r1 r2 Hw Hh E) as (Hd & Hn).
    destruct (Fraction_float_ok _ Hd Hn) as (m & ->). discriminate.
  - intros E. injection E as <-. exact (float_of_int_raises _ _ Ev).
Qed.

(** The value of [round64] on a positive quotient below [2 ^ 1023]. *)
Lemma round64_value : forall n d,
  0 < n -> 0 < d -> n < d * 2 ^ 1023 ->
  let e := Z.max (ilog2 n d - 52) (-1074) in
  let m := if 0 <=? e then round_half_even n (d * 2 ^ e)
           else round_half_even (n * 2 ^ (- e)) d in
  round64 n d
  = Finite (Qred (Qmake (m * 2 ^ Z.max e 0) (Z.to_pos (2 ^ Z.max (- e) 0)))).
Proof.
  intros n d Hn Hd Hlt e m. unfold round64.
  destruct (n =? 0) eqn:E0; [apply Z.eqb_eq in E0; lia|].
  rewrite Z.abs_eq, Z.sgn_pos, Z.mul_1_l by lia.
  fold e. fold m.
  replace ((0 <=? e) && (2 ^ 1024 <=? m * 2 ^ e)) with false; [reflexivity|].
  symmetry. apply andb_false_iff.
  destruct (0 <=? e) eqn:Ee; [right | left; reflexivity].
  apply Z.leb_le in Ee. apply Z.leb_gt.
  destruct (ilog2_spec n d Hn Hd) as (Hpos & _).
  set (k := ilog2 n d) in *.
  assert (Hk : 52 <= k) by (unfold e in Ee; lia).
  assert (Hek : e = k - 52) by (unfold e; lia).
  destruct (Hpos ltac:(lia)) as (Hlo & Hhi).
  assert (Hk' : k < 1023).
  { destruct (Z_lt_ge_dec k 1023) as [|Hge]; [assumption|].
    assert (2 ^ 1023 <= 2 ^ k) by (apply Z.pow_le_mono_r; lia). nia. }
  assert (He : 0 < 2 ^ e) by (apply Z.pow_pos_nonneg; lia).
  assert (Hm : m <= 2 ^ 53).
  { unfold m. apply round_half_even_le; [nia|].
    replace (2 ^ 53 * (d * 2 ^ e)) with (d * 2 ^ (k + 1)); [lia|].
    replace (k + 1) with (53 + e) by lia.
    rewrite Z.pow_add_r by lia. ring. }
  assert (2 ^ 53 * 2 ^ e < 2 ^ 1024).
  { rewrite <- Z.pow_add_r by lia. apply Z.pow_lt_mono_r; lia. }
  nia.
Qed.

(** The float nearest to a quotient in the range of the normal floats
    differs from it by at most one part in [2 ^ 53]. *)
Lemma round64_rel : forall n d,
  0 < n -> 0 < d -> d <= n * 2 ^ 1022 -> n < d * 2 ^ 1023 ->
  exists q,
    round64 n d = Finite q /\
    ((n # Z.to_pos d) * (1 - (1 # 2 ^ 53)) <= q /\
     q <= (n # Z.to_pos d) * (1 + (1 # 2 ^ 53)))%Q.
Proof.
  intros n d Hn Hd Hlo Hhi.
  rewrite (round64_value n d Hn Hd Hhi).
  eexists. split; [reflexivity|].
  destruct (ilog2_spec n d Hn Hd) as (Hpos & Hneg).
  set (k := ilog2 n d) in *.
  assert (Hk1 : -1022 <= k).
  { destruct (Z_le_gt_dec (-1022) k) as [|Hgt]; [assumption|exfalso].
    destruct (Hneg ltac:(lia)) as (_ & Hup).
    assert (2 ^ 1023 <= 2 ^ (- k)) by (apply Z.pow_le_mono_r; lia).
    assert (2 ^ 1023 = 2 * 2 ^ 1022) by reflexivity.
    nia. }
  rewrite (Z.max_l (k - 52) (-1074)) by lia.
  set (e := k - 52) in *.
  destruct (0 <=? e) eqn:Ee.
  - apply Z.leb_le in Ee.
    rewrite (Z.max_l e 0), (Z.max_r (- e) 0) by lia.
    destruct (Hpos ltac:(lia)) as (Hlok & _).
    assert (He : 0 < 2 ^ e) by (apply Z.pow_pos_nonneg; lia).
    assert (Hk : 2 ^ k = 2 ^ 52 * 2 ^ e).
    { rewrite <- Z.pow_add_r by lia. f_equal. unfold e. lia. }
    pose proof (round_half_even_err n (d * 2 ^ e) ltac:(nia)) as (E1 & E2).
    set (m := round_half_even n (d * 2 ^ e)) in *.
    rewrite Z.pow_0_r.
    split; rewrite Qred_correct;
      unfold Qle, Qminus, Qplus, Qopp, Qmult; simpl;
      rewrite ?Pos2Z.inj_mul, ?Z2Pos.id by lia;
      change (Z.pos (2 ^ 53)) with (2 * 2 ^ 52); nia.
  - apply Z.leb_gt in Ee.
    rewrite (Z.max_r e 0), (Z.max_l (- e) 0) by lia.
    assert (He : 0 < 2 ^ (- e)) by (apply Z.pow_pos_nonneg; lia).
    pose proof (round_half_even_err (n * 2 ^ (- e)) d Hd) as (E1 & E2).
    set (m := round_half_even (n * 2 ^ (- e)) d) in *.
    assert (Hbig : d * 2 ^ 52 <= n * 2 ^ (- e)).
    { destruct (Z_le_gt_dec 0 k) as [Hk0 | Hk0].
      - destruct (Hpos Hk0) as (Hlok & _).
        assert (2 ^ 52 = 2 ^ k * 2 ^ (- e)).
        { rewrite <- Z.pow_add_r by lia. f_equal. unfold e. lia. }
        nia.
      - destruct (Hneg ltac:(lia)) as (Hlok & _).
        assert (2 ^ (- e) = 2 ^ 52 * 2 ^ (- k)).
        { rewrite <- Z.pow_add_r by lia. f_equal. unfold e. lia. }
        nia. }
    rewrite Z.pow_0_r, Z.mul_1_r.
    split; rewrite Qred_correct;
      unfold Qle, Qminus, Qplus, Qopp, Qmult; simpl;
      rewrite ?Pos2Z.inj_mul, ?Z2Pos.id by lia;
      change (Z.pos (2 ^ 53)) with (2 * 2 ^ 52); nia.
Qed.

(** ** The error of the floats of [score] *)

Lemma near_mul : forall x b q1 q2 c1 c2 : Q,
  (0 <= x -> 0 <= b -> 0 <= c1 <= 1 -> 0 <= c2 <= 1 ->
   near c1 x q1 -> near c2 (q1 * b) q2 ->
   near (c1 + c2 + c1 * c2) (x * b) q2)%Q.
Proof.
  intros x b q1 q2 c1 c2 Hx Hb Hc1 Hc2 (L1 & U1) (L2 & U2).
  assert (Hb1 : (0 <= b * (1 - c2))%Q)
    by (apply Qmult_le_0_compat; [assumption | lra]).
  assert (Hb2 : (0 <= b * (1 + c2))%Q)
    by (apply Qmult_le_0_compat; [assumption | lra]).
  pose proof (Qmult_le_compat_r _ _ _ L1 Hb1) as M1.
  pose proof (Qmult_le_compat_r _ _ _ U1 Hb2) as M2.
  assert (Hxb : (0 <= x * b)%Q) by (apply Qmult_le_0_compat; assumption).
  assert (Hcc : (0 <= c1 * c2)%Q) by (apply Qmult_le_0_compat; tauto).
  assert (Hxbcc : (0 <= x * b * (c1 * c2))%Q)
    by (apply Qmult_le_0_compat; assumption).
  split.
  - apply Qle_trans with (q1 * b * (1 - c2))%Q; [|exact L2].
    apply Qle_trans with (x * (1 - c1) * (b * (1 - c2)))%Q; lra.
  - apply Qle_trans with (q1 * b * (1 + c2))%Q; [exact U2|].
    apply Qle_trans with (x * (1 + c1) * (b * (1 + c2)))%Q; lra.
Qed.

Lemma near_weaken : forall c c' x q : Q,
  (c <= c' -> 0 <= x -> near c x q -> near c' x q)%Q.
Proof.
  intros c c' x q Hc Hx (L & U).
  assert (H : (0 <= x * (c' - c))%Q)
    by (apply Qmult_le_0_compat; [assumption | lra]).
  split; lra.
Qed.

Lemma near_pos : forall c x q : Q,
  (c < 1 -> 0 < x -> near c x q -> 0 < q)%Q.
Proof.
  intros c x q Hc Hx (L & _).
  assert (H : (0 < x * (1 - c))%Q)
    by (apply Qmult_lt_0_compat; [assumption | lra]).
  lra.
Qed.

(** The float nearest to a rational in the range of the normal floats. *)
Lemma round64_Q : forall x : Q,
  ((1 # 2 ^ 1022) <= x -> x < inject_Z (2 ^ 1023) ->
   exists q, round64 (Qnum x) (Zpos (Qden x)) = Finite q /\
             near (1 # 2 ^ 53) x q)%Q.
Proof.
  intros [n d] Hlo Hhi. unfold Qle in Hlo. unfold Qlt in Hhi.
  cbn [Qnum Qden inject_Z] in *.
  rewrite Z.mul_1_l in Hlo. rewrite Z.mul_1_r in Hhi.
  change (Z.pos (2 ^ 1022)) with (2 ^ 1022)%Z in Hlo.
  assert (Hn : 0 < n).
  { assert (0 < 2 ^ 1022) by (apply Z.pow_pos_nonneg; lia).
    destruct (Z_lt_le_dec 0 n) as [|Hle]; [assumption|exfalso]. nia. }
  destruct (round64_rel n (Zpos d) Hn ltac:(lia) Hlo ltac:(lia))
    as (q & Hq & Hnear).
  exists q. split; [exact Hq|]. exact Hnear.
Qed.

(** The product of two floats, when it is in the range of the normal
    floats. *)
Lemma float_mul_near : forall a b : Q,
  ((1 # 2 ^ 1022) <= a * b -> a * b < inject_Z (2 ^ 1023) ->
   exists q, float_mul (Finite a) (Finite b) = Finite q /\
             near (1 # 2 ^ 53) (a * b) q)%Q.
Proof. intros a b Hlo Hhi. exact (round64_Q (a * b) Hlo Hhi). Qed.

Lemma frac_min_cases : forall a b,
  frac_min a b = a \/ frac_min a b = b.
Proof. intros a b. unfold frac_min. destruct (frac_leb a b); auto. Qed.

(** [frac_min] yields the smaller of two fractions. *)
Lemma frac_min_spec : forall a b,
  0 < denominator a -> 0 < denominator b ->
  (frac_to_Q (frac_min a b) <= frac_to_Q a /\
   frac_to_Q (frac_min a b) <= frac_to_Q b)%Q.
Proof.
  intros a b Ha Hb. unfold frac_min, frac_leb.
  destruct (_ <=? _) eqn:E; unfold frac_to_Q, Qle; simpl;
    rewrite !Z2Pos.id by assumption.
  - apply Z.leb_le in E. lia.
  - apply Z.leb_gt in E. lia.
Qed.

Lemma round64_0 : forall d, round64 0 d = Finite 0.
Proof. reflexivity. Qed.

(** The score of a screen whose ratios are not standard, of at most
    [2 ^ 53] pixels: the area times half the smaller ratio, up to the
    rounding of three float operations. *)
Lemma score_near : forall s r1 r2,
  0 < s_width s -> 0 < s_height s -> s_width s * s_height s <= 2 ^ 53 ->
  score_ratios s = Some (r1, r2) ->
  (is_screen_ratio r1 || is_screen_ratio r2) = false ->
  exists q,
    score s = Ok (Finite q) /\
    near (1 # 2 ^ 51)
         (inject_Z (s_width s * s_height s)
          * (frac_to_Q (frac_min r1 r2) * (1 # 2)))%Q q.
Proof.
  intros s r1 r2 Hw Hh Harea E Hstd.
  destruct (score_min_ratio s r1 r2 Hw Hh E) as (Hd & Hn).
  assert (Hd64 : denominator (frac_min r1 r2) <= 64).
  { destruct (score_ratios_total s Hw Hh)
      as (r1' & r2' & _ & _ & D1 & D2 & E').
    rewrite E in E'. injection E' as <- <-.
    destruct (frac_min_cases r1 r2) as [-> | ->]; lia. }
  unfold score.
  rewrite float_of_int_exact by (rewrite Z.abs_eq; nia).
  rewrite E, Hstd. cbn [negb].
  unfold Fraction_float, int_truediv, frac_to_Q.
  set (n := numerator (frac_min r1 r2)) in *.
  set (d := denominator (frac_min r1 r2)) in *.
  set (area := s_width s * s_height s) in *.
  assert (Harea1 : 1 <= area) by (unfold area; nia).
  clearbody n d area.
  destruct (d =? 0) eqn:E0; [apply Z.eqb_eq in E0; lia|].
  destruct (d <? 0) eqn:E1; [apply Z.ltb_lt in E1; lia|].
  destruct (Z.eq_dec n 0) as [Hn0 | Hn0].
  - rewrite Hn0, round64_0.
    exists 0%Q. split.
    + unfold float_mul. cbn [Qmult Qnum Qden]. rewrite Z.mul_0_l, round64_0.
      cbn [Qmult Qnum Qden inject_Z]. rewrite Z.mul_0_r, round64_0.
      reflexivity.
    + unfold near, Qle, Qmult, Qminus, Qplus, Qopp, inject_Z. simpl.
      rewrite !Z.mul_0_r, !Z.mul_0_l. lia.
  - assert (Hnpos : 0 < n) by lia.
    assert (H1022 : 64 <= 2 ^ 1022)
      by (change 64 with (2 ^ 6); apply Z.pow_le_mono_r; lia).
    assert (H1023 : 1 < 2 ^ 1023) by (apply (Z.pow_gt_1 2 1023); lia).
    assert (Hx1 : ((1 # 64) <= (n # Z.to_pos d) /\ (n # Z.to_pos d) <= 1)%Q).
    { unfold Qle. cbn [Qnum Qden]. rewrite !Z2Pos.id by lia. lia. }
    assert (Hlo : d <= n * 2 ^ 1022).
    { apply Z.le_trans with (1 * 2 ^ 1022); [lia|].
      apply Z.mul_le_mono_nonneg_r; lia. }
    assert (Hhi : n < d * 2 ^ 1023).
    { apply Z.le_lt_trans with (d * 1); [lia|].
      apply Z.mul_lt_mono_pos_l; assumption. }
    destruct (round64_rel n d Hnpos Hd Hlo Hhi) as (m1 & Hm1 & N1).
    rewrite Hm1.
    set (x1 := (n # Z.to_pos d)%Q) in *. clearbody x1.
    assert (Hu : ((1 # 2 ^ 53) == (1 # 9007199254740992))%Q) by reflexivity.
    assert (Hlow : ((1 # 2 ^ 1022) <= (1 # 1024))%Q).
    { unfold Qle. simpl.
      change (Z.pos (2 ^ 1022)) with (2 ^ 1022).
      change 1024 with (2 ^ 10). apply Z.pow_le_mono_r; lia. }
    assert (Hhigh : (inject_Z (2 ^ 55) <= inject_Z (2 ^ 1023))%Q).
    { rewrite <- Zle_Qle. apply Z.pow_le_mono_r; lia. }
    assert (H55 : (inject_Z (2 ^ 55) == 36028797018963968)%Q) by reflexivity.
    assert (Bm1 : ((1 # 128) <= m1 /\ m1 <= 2)%Q).
    { destruct N1 as (L & U).
      assert (0 <= x1 * (1 # 9007199254740992))%Q
        by (apply Qmult_le_0_compat; lra).
      rewrite Hu in L, U. split; lra. }
    destruct (float_mul_near m1 (1 # 2)) as (m2 & Hm2 & N2); [lra | lra |].
    rewrite Hm2.
    assert (Bm2 : ((1 # 512) <= m2 /\ m2 <= 2)%Q).
    { destruct N2 as (L & U). rewrite Hu in L, U.
      assert (0 <= m1 * (1 # 2) * (1 # 9007199254740992))%Q
        by (apply Qmult_le_0_compat; lra).
      split; lra. }
    assert (Ba : (1 <= inject_Z area /\ inject_Z area <= inject_Z (2 ^ 53))%Q).
    { split; [change 1%Q with (inject_Z 1) |]; rewrite <- Zle_Qle; lia. }
    assert (H53 : (inject_Z (2 ^ 53) == 9007199254740992)%Q) by reflexivity.
    assert (Bp : ((1 # 512) <= inject_Z area * m2 /\
                  inject_Z area * m2 <= 18014398509481984)%Q).
    { destruct Ba as (A1 & A2). rewrite H53 in A2. split.
      - apply Qle_trans with (1 * m2)%Q; [lra|].
        apply Qmult_le_compat_r; lra.
      - apply Qle_trans with (9007199254740992 * m2)%Q; [|lra].
        apply Qmult_le_compat_r; lra. }
    destruct (float_mul_near (inject_Z area) m2) as (q & Hq & N3);
      [lra | lra |].
    rewrite Hq. exists q. split; [reflexivity|].
    assert (Hu01 : (0 <= (1 # 2 ^ 53) <= 1)%Q) by (rewrite Hu; lra).
    pose proof (near_mul x1 (1 # 2) m1 m2 _ _ ltac:(lra) ltac:(lra)
                  Hu01 Hu01 N1 N2) as N12.
    assert (N3' : near (1 # 2 ^ 53) (m2 * inject_Z area) q).
    { destruct N3 as (L & U). split; lra. }
    assert (Hc12 : (0 <= (1 # 2 ^ 53) + (1 # 2 ^ 53)
                         + (1 # 2 ^ 53) * (1 # 2 ^ 53) <= 1)%Q)
      by (rewrite Hu; lra).
    pose proof (near_mul (x1 * (1 # 2)) (inject_Z area) m2 q _ _
                  ltac:(lra) ltac:(lra) Hc12 Hu01 N12 N3') as N123.
    apply near_weaken with (c' := (1 # 2 ^ 51)%Q) in N123.
    + destruct N123 as (L & U). split; lra.
    + unfold Qle. vm_compute. discriminate.
    + apply Qmult_le_0_compat; [|lra]. apply Qmult_le_0_compat; lra.
Qed.

(** ** One round of the detection loop *)

Lemma norm_idx_nat : forall n k, (k <= n)%nat -> norm_idx n (Z.of_nat k) = k.
Proof.
  intros n k Hk. unfold norm_idx.
  destruct (Z.of_nat k <? 0) eqn:E; [apply Z.ltb_lt in E; lia|]. lia.
Qed.

Lemma view_all_span : forall H W A x0 y0 x1 y1,
  (x0 <= x1 <= W)%nat -> (y0 <= y1 <= H)%nat ->
  view_all A (mask_a H W) (slices (span x0 y0 x1 y1))
  = forallb (fun row => forallb (fun z => negb (z =? 0))
                                (slice (1 + x0) (1 + x1) row))
            (slice (1 + y0) (1 + y1) (work A)).
Proof.
  intros H W A x0 y0 x1 y1 Hx Hy.
  unfold view_all, mask_a, slices, span, abs_lo, abs_hi. cbn -[norm_idx slice Z.add Z.sub].
  replace (Z.of_nat y0 + (Z.of_nat y1 - Z.of_nat y0)) with (Z.of_nat y1) by lia.
  replace (Z.of_nat x0 + (Z.of_nat x1 - Z.of_nat x0)) with (Z.of_nat x1) by lia.
  rewrite !norm_idx_nat by lia. reflexivity.
Qed.

Lemma view_zero_span : forall H W A x0 y0 x1 y1,
  (x0 <= x1 <= W)%nat -> (y0 <= y1 <= H)%nat ->
  view_zero A (mask_a H W) (slices (span x0 y0 x1 y1))
  = MkArrays (buffer A)
      (update_range (update_range (fun _ => 0) (1 + x0) (1 + x1))
                    (1 + y0) (1 + y1) (work A)).
Proof.
  intros H W A x0 y0 x1 y1 Hx Hy.
  unfold view_zero, mask_a, slices, span, abs_lo, abs_hi. cbn -[norm_idx update_range Z.add Z.sub].
  replace (Z.of_nat y0 + (Z.of_nat y1 - Z.of_nat y0)) with (Z.of_nat y1) by lia.
  replace (Z.of_nat x0 + (Z.of_nat x1 - Z.of_nat x0)) with (Z.of_nat x1) by lia.
  rewrite !norm_idx_nat by lia. reflexivity.
Qed.

(** The cells of a mask after a region was zeroed. *)
Lemma get2_zero_region : forall m r0 r1 c0 c1 i j,
  get2 0 (update_range (update_range (fun _ => 0) c0 c1) r0 r1 m) i j
  = if ((r0 <=? i) && (i <? r1) && (c0 <=? j) && (j <? c1))%nat
    then 0 else get2 0 m i j.
Proof.
  intros m r0 r1 c0 c1 i j. unfold get2.
  destruct (Nat.lt_ge_cases i (length m)) as [Hi|Hi].
  2:{ rewrite !(nth_overflow _ []);
        [| exact Hi | rewrite length_update_range; exact Hi].
      destruct j; destruct (_ && _); reflexivity. }
  destruct (r0 <=? i)%nat eqn:E1; simpl andb.
  2:{ apply Nat.leb_gt in E1. rewrite nth_update_range_out by lia. reflexivity. }
  destruct (i <? r1)%nat eqn:E2; simpl andb.
  2:{ apply Nat.ltb_ge in E2. rewrite nth_update_range_out by lia. reflexivity. }
  apply Nat.leb_le in E1. apply Nat.ltb_lt in E2.
  rewrite nth_update_range_in by lia.
  destruct (Nat.lt_ge_cases j (length (nth i m []))) as [Hj|Hj].
  2:{ rewrite !(nth_overflow _ 0);
        [| exact Hj | rewrite length_update_range; exact Hj].
      destruct (_ && _); reflexivity. }
  destruct (c0 <=? j)%nat eqn:E3; simpl andb.
  2:{ apply Nat.leb_gt in E3. rewrite nth_update_range_out by lia. reflexivity. }
  destruct (j <? c1)%nat eqn:E4.
  2:{ apply Nat.ltb_ge in E4. rewrite nth_update_range_out by lia. reflexivity. }
  apply Nat.leb_le in E3. apply Nat.ltb_lt in E4.
  rewrite nth_update_range_in by lia. reflexivity.
Qed.

Lemma mask_shape_zero_region : forall H W m r0 r1 c0 c1,
  mask_shape H W m ->
  mask_shape H W (update_range (update_range (fun _ => 0) c0 c1) r0 r1 m).
Proof.
  intros H W m r0 r1 c0 c1 (Hl & Hrows). split.
  - rewrite length_update_range. exact Hl.
  - apply Forall_update_range; [|exact Hrows].
    intros row Hrow. rewrite length_update_range. exact Hrow.
Qed.

(** Sums over a list of which a range was updated. *)
Lemma sum_update_range_le {A} (mu : A -> nat) (f : A -> A) :
  (forall x, (mu (f x) <= mu x)%nat) ->
  forall l lo hi,
    (list_sum (map mu (update_range f lo hi l)) <= list_sum (map mu l))%nat.
Proof.
  intros Hf. induction l as [|x l IH]; intros lo hi; simpl; [lia|].
  destruct hi; [simpl; lia|]. destruct lo; simpl.
  - specialize (IH 0%nat hi). specialize (Hf x). lia.
  - specialize (IH lo hi). lia.
Qed.

Lemma sum_update_range_lt {A} (mu : A -> nat) (f : A -> A) (d : A) :
  (forall x, (mu (f x) <= mu x)%nat) ->
  forall l lo hi i,
    (lo <= i < hi)%nat -> (i < length l)%nat ->
    (mu (f (nth i l d)) < mu (nth i l d))%nat ->
    (list_sum (map mu (update_range f lo hi l)) < list_sum (map mu l))%nat.
Proof.
  intros Hf. induction l as [|x l IH]; intros lo hi i Hr Hi Hlt; simpl in *; [lia|].
  destruct hi; [lia|]. destruct lo; simpl.
  - destruct i.
    + pose proof (sum_update_range_le mu f Hf l 0%nat hi). lia.
    + specialize (IH 0%nat hi i). specialize (Hf x).
      assert (i < length l)%nat by lia.
      assert (0 <= i < hi)%nat by lia. specialize (IH H0 H Hlt). lia.
  - destruct i; [lia|].
    specialize (IH lo hi i).
    assert (i < length l)%nat by lia.
    assert (lo <= i < hi)%nat by lia. specialize (IH H0 H Hlt). lia.
Qed.

(** Zeroing a region that holds a non-zero cell shrinks the filled area. *)
Lemma area_zero_region : forall m r0 r1 c0 c1 i j,
  (r0 <= i < r1)%nat -> (c0 <= j < c1)%nat ->
  get2 0 m i j <> 0 ->
  (area (update_range (update_range (fun _ => 0%Z) c0 c1) r0 r1 m) < area m)%nat.
Proof.
  intros m r0 r1 c0 c1 i j Hr Hc Hcell. unfold area, get2 in *.
  assert (Hi : (i < length m)%nat).
  { destruct (Nat.lt_ge_cases i (length m)) as [Hi|Hi]; [exact Hi|].
    rewrite (nth_overflow m []) in Hcell by exact Hi.
    destruct j; contradiction. }
  assert (Hj : (j < length (nth i m []))%nat).
  { destruct (Nat.lt_ge_cases j (length (nth i m []))) as [Hj|Hj]; [exact Hj|].
    rewrite nth_overflow in Hcell by exact Hj. contradiction. }
  assert (Hle : forall row,
             (row_area (update_range (fun _ => 0%Z) c0 c1 row) <= row_area row)%nat).
  { intros row. unfold row_area. apply sum_update_range_le.
    intros x. unfold nz. simpl. lia. }
  apply (sum_update_range_lt row_area _ [] Hle m r0 r1 i Hr Hi).
  unfold row_area.
  apply (sum_update_range_lt nz (fun _ => 0) 0
           (fun x => Nat.le_0_l (nz x)) (nth i m []) c0 c1 j Hc Hj).
  unfold nz. simpl. destruct (_ =? 0) eqn:E; [apply Z.eqb_eq in E; contradiction | lia].
Qed.

Lemma insert_desc_perm : forall x l, Permutation (insert_desc x l) (x :: l).
Proof.
  intros x l. induction l as [|y l IH]; simpl; [reflexivity|].
  destruct (float_lt _ _); [|reflexivity].
  rewrite IH. apply perm_swap.
Qed.

Lemma sort_desc_perm : forall l, Permutation (sort_desc l) l.
Proof.
  induction l as [|x l IH]; simpl; [reflexivity|].
  rewrite insert_desc_perm. constructor. exact IH.
Qed.

Lemma with_keys_snd : forall l kl, with_keys l = Ok kl -> map snd kl = l.
Proof.
  induction l as [|s l IH]; intros kl; simpl.
  - intros Heq. injection Heq as <-. reflexivity.
  - destruct (score s) as [k|e]; [|discriminate].
    destruct (with_keys l) as [kl'|e]; [|discriminate].
    intros Heq. injection Heq as <-. simpl. f_equal. apply IH. reflexivity.
Qed.

Lemma with_keys_total : forall l,
  (forall s, In s l -> exists q, score s = Ok q) ->
  exists kl, with_keys l = Ok kl.
Proof.
  induction l as [|s l IH]; intros Hall; simpl; [eauto|].
  destruct (Hall s (or_introl eq_refl)) as (q & ->).
  destruct IH as (kl & ->); [intros s' Hs'; apply Hall; right; exact Hs'|].
  eauto.
Qed.

(** What the keys raise, a score raised. *)
Lemma with_keys_raises : forall l e,
  with_keys l = Raise e -> exists s, In s l /\ score s = Raise e.
Proof.
  induction l as [|s l IH]; intros e; simpl; [discriminate|].
  destruct (score s) as [k|e'] eqn:Es.
  - destruct (with_keys l) as [kl|e''] eqn:Ek; [discriminate|].
    intros E. injection E as <-.
    destruct (IH _ eq_refl) as (s' & Hin & Hs'). eauto.
  - intros E. injection E as <-. eauto.
Qed.

(** ** Termination of the detection loop *)

Section DetectFacts.

Variable set_iter : list Rect -> list Rect.
Hypothesis set_iter_perm :
  forall l, Permutation (set_iter l) (nodup Rect_eq_dec l).

Variables (H W : nat).

(** Every tuple a combination of corners adds spans at least one column
    and one row, inside the buffer. *)
Lemma in_rects_of : forall a b c d r,
  (fst a <= H /\ snd a <= W)%nat -> (fst b <= H /\ snd b <= W)%nat ->
  (fst c <= H /\ snd c <= W)%nat -> (fst d <= H /\ snd d <= W)%nat ->
  In r (rects_of (a, b, c, d)) ->
  exists x0 y0 x1 y1 : nat,
    r = (Z.of_nat x0, Z.of_nat y0, Z.of_nat x1, Z.of_nat y1) /\
    (x0 < x1 <= W)%nat /\ (y0 < y1 <= H)%nat.
Proof.
  intros [a0 a1] [b0 b1] [c0 c1] [d0 d1] r Ha Hb Hc Hd. simpl in *.
  unfold rects_of. cbn [fst snd].
  rewrite !in_app_iff.
  intros [Hr | [Hr | [Hr | Hr]]];
    match type of Hr with
    | In _ (if ?t then _ else _) => destruct t eqn:Et; [|destruct Hr]
    end;
    destruct Hr as [<- | []];
    rewrite !andb_true_iff, ?Nat.eqb_eq, ?Nat.ltb_lt in Et;
    do 4 eexists; (split; [reflexivity | lia]).
Qed.

Lemma in_candidates : forall A s,
  In s (candidates set_iter H W A) ->
  exists x0 y0 x1 y1 : nat,
    s = span x0 y0 x1 y1 /\ (x0 < x1 <= W)%nat /\ (y0 < y1 <= H)%nat.
Proof.
  intros A s Hin. unfold candidates in Hin.
  apply in_map_iff in Hin. destruct Hin as (r & <- & Hr).
  apply (Permutation_in _ (set_iter_perm _)) in Hr.
  apply nodup_In in Hr. apply in_flat_map in Hr.
  destruct Hr as ([[[a b] c] d] & Hq & Hr).
  apply in_product4 in Hq. destruct Hq as (Ha & Hb & Hc & Hd).
  unfold top_left, top_right, bottom_left, bottom_right, corners_where in *.
  destruct a as [a0 a1], b as [b0 b1], c as [c0 c1], d as [d0 d1].
  apply in_argwhere in Ha, Hb, Hc, Hd.
  destruct (in_rects_of (a0, a1) (b0, b1) (c0, c1) (d0, d1) r)
    as (x0 & y0 & x1 & y1 & -> & Hx & Hy); simpl; try lia; try exact Hr.
  exists x0, y0, x1, y1. split; [reflexivity | split; assumption].
Qed.

(** The keys of a round.  A candidate is no larger than the buffer, so
    below [2 ^ 1023] pixels every candidate has a score; whatever the
    size, the one exception a score raises is that of [float] on an area
    beyond the floats. *)
Lemma with_keys_candidates :
  Z.of_nat H * Z.of_nat W < 2 ^ 1023 ->
  forall A, exists kl, with_keys (candidates set_iter H W A) = Ok kl.
Proof.
  intros Hsize A. apply with_keys_total. intros s Hs.
  destruct (in_candidates A s Hs) as (x0 & y0 & x1 & y1 & -> & Hx & Hy).
  apply score_total; simpl; try lia.
  apply Z.le_lt_trans with (Z.of_nat H * Z.of_nat W); [| exact Hsize].
  rewrite (Z.mul_comm (Z.of_nat H)).
  apply Z.mul_le_mono_nonneg; lia.
Qed.

Lemma with_keys_candidates_raises : forall A e,
  with_keys (candidates set_iter H W A) = Raise e -> e = OverflowError_float.
Proof.
  intros A e Hk. apply with_keys_raises in Hk.
  destruct Hk as (s & Hs & Hr).
  destruct (in_candidates A s Hs) as (x0 & y0 & x1 & y1 & -> & Hx & Hy).
  apply (score_raises (span x0 y0 x1 y1) e); [simpl; lia | simpl; lia | exact Hr].
Qed.

(** What a round that accepts a screen did. *)
Lemma detect_round_accepts : forall A s A',
  mask_shape H W (work A) ->
  detect_round set_iter H W A = Ok (Some (s, A')) ->
  In s (candidates set_iter H W A) /\
  1 <= s_width s /\ 1 <= s_height s /\
  view_all A (mask_a H W) (slices s) = true /\
  A' = view_zero A (mask_a H W) (slices s) /\
  buffer A' = buffer A /\
  mask_shape H W (work A') /\
  (area (work A') < area (work A))%nat.
Proof.
  intros A s A' (Hl & Hrows) Hround. unfold detect_round in Hround.
  destruct (with_keys _) as [kl|e] eqn:Hk; [|discriminate].
  destruct (first_filled _ _ _ _) as [s'|] eqn:Hf; [|discriminate].
  injection Hround as -> <-.
  unfold first_filled in Hf. apply find_some in Hf. destruct Hf as (Hin & Hall).
  assert (Hcand : In s (candidates set_iter H W A)).
  { rewrite <- (with_keys_snd _ _ Hk).
    eapply Permutation_in; [|exact Hin].
    apply Permutation_map, sort_desc_perm. }
  destruct (in_candidates A s Hcand) as (x0 & y0 & x1 & y1 & -> & Hx & Hy).
  split; [exact Hcand|].
  split; [simpl; lia|]. split; [simpl; lia|].
  split; [exact Hall|]. split; [reflexivity|].
  rewrite view_zero_span by lia. simpl.
  split; [reflexivity|].
  split; [apply mask_shape_zero_region; split; assumption|].
  rewrite view_all_span in Hall by lia.
  apply (area_zero_region _ _ _ _ _ (1 + y0) (1 + x0)); try lia.
  assert (Hrow : (1 + y0 < length (work A))%nat) by lia.
  pose proof (forallb_slice_nth _ [] _ _ _ (1 + y0)%nat Hall ltac:(lia) Hrow)
    as Hcells.
  assert (Hcol : (1 + x0 < length (nth (1 + y0) (work A) []))%nat).
  { rewrite Forall_forall in Hrows.
    rewrite (Hrows (nth (1 + y0) (work A) [])) by (apply nth_In; exact Hrow).
    lia. }
  pose proof (forallb_slice_nth _ 0 _ _ _ (1 + x0)%nat Hcells ltac:(lia) Hcol)
    as Hcell.
  apply negb_true_iff, Z.eqb_neq in Hcell. exact Hcell.
Qed.

Lemma detect_round_cases : forall A,
  detect_round set_iter H W A = Ok None \/
  (exists s A', detect_round set_iter H W A = Ok (Some (s, A'))) \/
  detect_round set_iter H W A = Raise OverflowError_float.
Proof.
  intros A. unfold detect_round.
  destruct (with_keys _) as [kl|e] eqn:Hk.
  - destruct (first_filled _ _ _ _); eauto.
  - right. right. rewrite (with_keys_candidates_raises A e Hk). reflexivity.
Qed.

Lemma detect_round_raises_nothing :
  Z.of_nat H * Z.of_nat W < 2 ^ 1023 ->
  forall A e, detect_round set_iter H W A <> Raise e.
Proof.
  intros Hsize A e. unfold detect_round.
  destruct (with_keys_candidates Hsize A) as (kl & ->).
  destruct (first_filled _ _ _ _); discriminate.
Qed.

(** The loop ends within one round per filled cell, and one more, and
    leaves the pixel buffer as it was.  It returns the screens it found,
    unless [float] raised on the area of a candidate, which takes a
    buffer of [2 ^ 1023] pixels or more. *)
Lemma detect_loop_terminates : forall fuel A screens,
  mask_shape H W (work A) ->
  (area (work A) < fuel)%nat ->
  exists r A',
    detect_loop set_iter H W fuel A screens = Some (r, A') /\
    buffer A' = buffer A /\
    (r = Raise OverflowError_float \/ exists screens', r = Ok screens') /\
    (Z.of_nat H * Z.of_nat W < 2 ^ 1023 -> exists screens', r = Ok screens').
Proof.
  induction fuel as [|fuel IH]; intros A screens Hshape Harea; [lia|].
  simpl.
  destruct (detect_round_cases A) as [E | [(s & A' & Hround) | E]].
  - rewrite E. do 2 eexists. repeat split; eauto.
  - rewrite Hround.
    destruct (detect_round_accepts A s A' Hshape Hround)
      as (_ & _ & _ & _ & _ & Hbuf & Hshape' & Hlt).
    destruct (IH A' (screens ++ [s]) Hshape')
      as (r & A'' & -> & Hbuf'' & Hr & Hok); [lia|].
    exists r, A''. repeat split; try assumption; congruence.
  - rewrite E. do 2 eexists. split; [reflexivity|]. split; [reflexivity|].
    split; [left; reflexivity|].
    intros Hsize. exfalso.
    exact (detect_round_raises_nothing Hsize A _ E).
Qed.

(** More fuel does not change a result. *)
Lemma detect_loop_more_fuel : forall fuel A screens r,
  detect_loop set_iter H W fuel A screens = Some r ->
  forall fuel', (fuel <= fuel')%nat ->
  detect_loop set_iter H W fuel' A screens = Some r.
Proof.
  induction fuel as [|fuel IH]; intros A screens r Hrun fuel' Hle;
    [discriminate|].
  destruct fuel' as [|fuel']; [lia|]. simpl in *.
  destruct (detect_round set_iter H W A) as [[[s A']|]|e]; try exact Hrun.
  apply IH; [exact Hrun | lia].
Qed.

End DetectFacts.

(** ** Masks that hold one filled rectangle, or none *)

Lemma corner_test_bool : forall b1 b2 b3 : bool,
  corner_test (if b1 then 1 else 0) (if b2 then 1 else 0) (if b3 then 1 else 0)
  = negb b1 && negb b2 && b3.
Proof. intros [] [] []; reflexivity. Qed.

Lemma nodup_all_equal {A} (dec : forall x y : A, {x = y} + {x <> y}) (r : A) :
  forall l, l <> [] -> (forall x, In x l -> x = r) -> nodup dec l = [r].
Proof.
  induction l as [|x l IH]; intros Hne Hall; [contradiction|].
  simpl. destruct (in_dec dec x l) as [Hin|Hnin].
  - apply IH; [intros ->; destruct Hin | intros y Hy; apply Hall; right; exact Hy].
  - destruct l as [|y l].
    + simpl. f_equal. apply Hall. left. reflexivity.
    + exfalso. apply Hnin. left.
      rewrite (Hall x), (Hall y); simpl; auto.
Qed.

Lemma in_rect_true : forall x0 y0 x1 y1 i j,
  in_rect x0 y0 x1 y1 i j = true <->
  (y0 < i <= y1 /\ x0 < j <= x1)%nat.
Proof.
  intros. unfold in_rect.
  rewrite !andb_true_iff, !Nat.ltb_lt, !Nat.leb_le. lia.
Qed.

Lemma in_rect_false : forall x0 y0 x1 y1 i j,
  in_rect x0 y0 x1 y1 i j = false <->
  ~ (y0 < i <= y1 /\ x0 < j <= x1)%nat.
Proof.
  intros. rewrite <- in_rect_true. symmetry. apply not_true_iff_false.
Qed.

Section DetectRectangle.

Variable set_iter : list Rect -> list Rect.
Hypothesis set_iter_perm :
  forall l, Permutation (set_iter l) (nodup Rect_eq_dec l).

Variables (H W : nat).

Lemma set_iter_nil : set_iter [] = [].
Proof.
  apply Permutation_nil. apply Permutation_sym. exact (set_iter_perm []).
Qed.

Lemma set_iter_all_equal : forall r l,
  l <> [] -> (forall x, In x l -> x = r) -> set_iter l = [r].
Proof.
  intros r l Hne Hall. apply Permutation_length_1_inv.
  rewrite <- (nodup_all_equal Rect_eq_dec r l Hne Hall).
  apply Permutation_sym, set_iter_perm.
Qed.

(** With no filled cell there is no corner, and the round ends the loop. *)
Lemma corners_where_zero : forall A r1 c1 r2 c2 r3 c3,
  zero_mask (work A) ->
  corners_where H W A (MkView OfWork r1 c1 (H + 1) (W + 1))
                (MkView OfWork r2 c2 (H + 1) (W + 1))
                (MkView OfWork r3 c3 (H + 1) (W + 1)) = [].
Proof.
  intros A r1 c1 r2 c2 r3 c3 Hz. unfold corners_where. apply argwhere_nil.
  intros i j _ _. rewrite !view_get_work, !Hz. reflexivity.
Qed.

Lemma detect_round_zero : forall A,
  zero_mask (work A) -> detect_round set_iter H W A = Ok None.
Proof.
  intros A Hz. unfold detect_round, candidates.
  unfold top_left, mask_a, mask_b, mask_c.
  rewrite (corners_where_zero A _ _ _ _ _ _ Hz).
  simpl. rewrite set_iter_nil. reflexivity.
Qed.

Variables (x0 y0 x1 y1 : nat).
Hypothesis Hx : (x0 < x1 <= W)%nat.
Hypothesis Hy : (y0 < y1 <= H)%nat.

Variable A : Arrays.
Hypothesis Hmask : rect_mask x0 y0 x1 y1 (work A).

Ltac corner_cases :=
  cbv beta; unfold mask_a, mask_b, mask_c, mask_d;
  rewrite !view_get_work, !Hmask, corner_test_bool;
  rewrite !andb_true_iff, !negb_true_iff, !in_rect_false, !in_rect_true.

Lemma top_left_rect : top_left H W A = [(y0, x0)].
Proof.
  unfold top_left, corners_where. apply argwhere_single; try lia.
  - corner_cases. lia.
  - intros i j Hi Hj. corner_cases. lia.
Qed.

Lemma top_right_rect : top_right H W A = [(y0, x1)].
Proof.
  unfold top_right, corners_where. apply argwhere_single; try lia.
  - corner_cases. lia.
  - intros i j Hi Hj. corner_cases. lia.
Qed.

Lemma bottom_left_rect : bottom_left H W A = [(y1, x0)].
Proof.
  unfold bottom_left, corners_where. apply argwhere_single; try lia.
  - corner_cases. lia.
  - intros i j Hi Hj. corner_cases. lia.
Qed.

Lemma bottom_right_rect : bottom_right H W A = [(y1, x1)].
Proof.
  unfold bottom_right, corners_where. apply argwhere_single; try lia.
  - corner_cases. lia.
  - intros i j Hi Hj. corner_cases. lia.
Qed.

Lemma candidates_rect : candidates set_iter H W A = [span x0 y0 x1 y1].
Proof.
  unfold candidates.
  rewrite top_left_rect, top_right_rect, bottom_left_rect, bottom_right_rect.
  cbn [product4 flat_map map app].
  rewrite (set_iter_all_equal
             (Z.of_nat x0, Z.of_nat y0, Z.of_nat x1, Z.of_nat y1)).
  - reflexivity.
  - unfold rects_of. cbn [fst snd]. rewrite !Nat.eqb_refl.
    rewrite (proj2 (Nat.ltb_lt x0 x1)) by lia.
    rewrite (proj2 (Nat.ltb_lt y0 y1)) by lia. discriminate.
  - intros r. rewrite app_nil_r. unfold rects_of. cbn [fst snd].
    rewrite !Nat.eqb_refl.
    rewrite (proj2 (Nat.ltb_lt x0 x1)) by lia.
    rewrite (proj2 (Nat.ltb_lt y0 y1)) by lia.
    simpl. intuition congruence.
Qed.

Lemma view_all_rect :
  view_all A (mask_a H W) (slices (span x0 y0 x1 y1)) = true.
Proof.
  rewrite view_all_span by lia.
  apply (slice_forallb_intro _ []). intros i Hi _.
  apply (slice_forallb_intro _ 0). intros j Hj _.
  fold (get2 0 (work A) i j). rewrite Hmask.
  rewrite (proj2 (in_rect_true x0 y0 x1 y1 i j)) by lia. reflexivity.
Qed.

Lemma view_zero_rect :
  zero_mask (work (view_zero A (mask_a H W) (slices (span x0 y0 x1 y1)))).
Proof.
  rewrite view_zero_span by lia. simpl work. intros i j.
  rewrite get2_zero_region.
  destruct (_ && _)%nat eqn:E; [reflexivity|].
  rewrite Hmask.
  rewrite (proj2 (in_rect_false x0 y0 x1 y1 i j)); [reflexivity|].
  intros Hin. apply not_true_iff_false in E. apply E.
  rewrite !andb_true_iff, !Nat.leb_le, !Nat.ltb_lt. lia.
Qed.

Lemma detect_round_rect :
  Z.of_nat (x1 - x0) * Z.of_nat (y1 - y0) < 2 ^ 1023 ->
  detect_round set_iter H W A
  = Ok (Some (span x0 y0 x1 y1,
              view_zero A (mask_a H W) (slices (span x0 y0 x1 y1)))).
Proof.
  intros Hsize.
  unfold detect_round. rewrite candidates_rect.
  destruct (score_total (span x0 y0 x1 y1)) as (q & Hq);
    [simpl; lia | simpl; lia | |].
  { simpl. rewrite <- !Nat2Z.inj_sub by lia. exact Hsize. }
  simpl with_keys. rewrite Hq. simpl.
  unfold first_filled. simpl find. rewrite view_all_rect. reflexivity.
Qed.

(** The loop on such a mask: one screen, then the end. *)
Lemma detect_loop_rect : forall fuel screens,
  (2 <= fuel)%nat ->
  Z.of_nat (x1 - x0) * Z.of_nat (y1 - y0) < 2 ^ 1023 ->
  detect_loop set_iter H W fuel A screens
  = Some (Ok (screens ++ [span x0 y0 x1 y1]),
          view_zero A (mask_a H W) (slices (span x0 y0 x1 y1))).
Proof.
  intros fuel screens Hfuel Hsize.
  destruct fuel as [|[|fuel]]; try lia.
  cbn [detect_loop]. rewrite (detect_round_rect Hsize).
  rewrite (detect_round_zero _ view_zero_rect). reflexivity.
Qed.

Lemma area_rect_pos : (1 <= area (work A))%nat.
Proof.
  pose proof (area_zero_region (work A) (1 + y0) (2 + y0) (1 + x0) (2 + x0)
                (1 + y0) (1 + x0)) as Hlt.
  assert (get2 0 (work A) (1 + y0) (1 + x0) <> 0).
  { rewrite Hmask. rewrite (proj2 (in_rect_true x0 y0 x1 y1 _ _)) by lia.
    discriminate. }
  specialize (Hlt ltac:(lia) ltac:(lia) H0). lia.
Qed.

End DetectRectangle.

(** ** [detect_screens] *)

Lemma set_data_same : forall v d, data v = Some d -> set_data (Some d) v = v.
Proof. intros [] d Hd. simpl in Hd. subst. reflexivity. Qed.

Lemma get2_default_or_in {A} (dflt : A) (d : list (list A)) (i j : nat) :
  get2 dflt d i j = dflt \/
  exists row, In row d /\ In (get2 dflt d i j) row.
Proof.
  unfold get2.
  destruct (Nat.lt_ge_cases i (length d)) as [Hi|Hi].
  - destruct (Nat.lt_ge_cases j (length (nth i d []))) as [Hj|Hj].
    + right. exists (nth i d []). split; apply nth_In; assumption.
    + left. apply nth_overflow. exact Hj.
  - left. rewrite (nth_overflow d []) by exact Hi. destruct j; reflexivity.
Qed.

Section DetectScreens.

Variable set_iter : list Rect -> list Rect.
Hypothesis set_iter_perm :
  forall l, Permutation (set_iter l) (nodup Rect_eq_dec l).

(** Whatever the buffer holds, [detect_screens] comes to an end and
    leaves the video as it was.  It returns a list of screens, unless
    [float] raised on the area of a candidate, which takes a buffer of
    [2 ^ 1023] pixels or more. *)
Lemma detect_screens_total : forall v,
  exists r,
    detect_screens set_iter v = Some (r, v) /\
    (r = Raise OverflowError_float \/ exists screens, r = Ok screens) /\
    (Z.of_nat (height v) * Z.of_nat (width v) < 2 ^ 1023 ->
     exists screens, r = Ok screens).
Proof.
  intros v. unfold detect_screens.
  destruct (data v) as [d|] eqn:Hd.
  2:{ exists (Ok []). split; [reflexivity|]. split; eauto. }
  set (m := initial_mask _ _ _ d).
  destruct (detect_loop_terminates set_iter set_iter_perm
              (height v) (width v) (S (area m)) (MkArrays d m) [])
    as (r & A' & -> & Hbuf & Hr & Hok).
  - split; [apply length_initial_mask | apply rows_initial_mask].
  - simpl. lia.
  - simpl in Hbuf. rewrite Hbuf, (set_data_same v d Hd). eauto.
Qed.

(** A buffer whose alpha bytes are 255 exactly on rows [y0 .. y1 - 1]
    and columns [x0 .. x1 - 1] holds one screen, that rectangle. *)
Lemma detect_screens_rectangle : forall v d x0 y0 x1 y1,
  data v = Some d ->
  (x0 < x1 <= width v)%nat -> (y0 < y1 <= height v)%nat ->
  Z.of_nat (x1 - x0) * Z.of_nat (y1 - y0) < 2 ^ 1023 ->
  (forall i j, (i < height v)%nat -> (j < width v)%nat ->
     (byte_val (chan (mode_index (mode v) ch_a) (get2 px0 d i j)) = 255 <->
      (y0 <= i < y1 /\ x0 <= j < x1)%nat)) ->
  detect_screens set_iter v = Some (Ok [span x0 y0 x1 y1], v).
Proof.
  intros v d x0 y0 x1 y1 Hd Hx Hy Hsize Hfill. unfold detect_screens.
  rewrite Hd.
  set (m := initial_mask _ _ _ d).
  assert (Hmask : rect_mask x0 y0 x1 y1 (work (MkArrays d m))).
  { intros i j. simpl work. unfold m. rewrite get2_initial_mask.
    destruct i as [|i'].
    { rewrite (proj2 (in_rect_false _ _ _ _ _ _)) by lia. reflexivity. }
    destruct j as [|j'].
    { rewrite (proj2 (in_rect_false _ _ _ _ _ _)) by lia. reflexivity. }
    destruct ((i' <? height v)%nat && (j' <? width v)%nat) eqn:Ein.
    - apply andb_true_iff in Ein. destruct Ein as (Hi & Hj).
      apply Nat.ltb_lt in Hi, Hj. specialize (Hfill i' j' Hi Hj).
      destruct (_ =? 255) eqn:E.
      + apply Z.eqb_eq in E.
        rewrite (proj2 (in_rect_true _ _ _ _ _ _)) by lia. reflexivity.
      + apply Z.eqb_neq in E.
        rewrite (proj2 (in_rect_false _ _ _ _ _ _)) by lia. reflexivity.
    - apply andb_false_iff in Ein.
      rewrite (proj2 (in_rect_false _ _ _ _ _ _)); [reflexivity|].
      destruct Ein as [E | E]; apply Nat.ltb_ge in E; lia. }
  rewrite (detect_loop_rect set_iter set_iter_perm (height v) (width v)
             x0 y0 x1 y1 Hx Hy (MkArrays d m) Hmask).
  - rewrite view_zero_span by lia. simpl.
    rewrite (set_data_same v d Hd). reflexivity.
  - pose proof (area_rect_pos (height v) (width v) x0 y0 x1 y1 Hx Hy
                              (MkArrays d m) Hmask) as Hpos.
    simpl in Hpos. lia.
  - exact Hsize.
Qed.

(** A buffer without any alpha byte 255 holds no screen. *)
Lemma detect_screens_none : forall v d,
  data v = Some d ->
  (forall i j, (i < height v)%nat -> (j < width v)%nat ->
     byte_val (chan (mode_index (mode v) ch_a) (get2 px0 d i j)) <> 255) ->
  detect_screens set_iter v = Some (Ok [], v).
Proof.
  intros v d Hd Hfill. unfold detect_screens. rewrite Hd.
  set (m := initial_mask _ _ _ d).
  assert (Hz : zero_mask (work (MkArrays d m))).
  { intros i j. simpl work. unfold m. rewrite get2_initial_mask.
    destruct i; [reflexivity|]. destruct j; [reflexivity|].
    destruct (i <? height v)%nat eqn:Hi; [|reflexivity].
    destruct (j <? width v)%nat eqn:Hj; [|reflexivity].
    apply Nat.ltb_lt in Hi, Hj. simpl.
    destruct (_ =? 255) eqn:E; [|reflexivity].
    apply Z.eqb_eq in E. exfalso. exact (Hfill _ _ Hi Hj E). }
  cbn [detect_loop].
  rewrite (detect_round_zero set_iter set_iter_perm _ _ _ Hz).
  simpl. rewrite (set_data_same v d Hd). reflexivity.
Qed.

End DetectScreens.

(** ** What [detect_screens] returns *)

Lemma set_order_perm :
  forall l, Permutation (set_order l) (nodup Rect_eq_dec l).
Proof. intros l. apply Permutation_refl. Qed.

Lemma filled_region_cells : forall H W A x0 y0 x1 y1 i j,
  mask_shape H W (work A) ->
  (x0 <= x1 <= W)%nat -> (y0 <= y1 <= H)%nat ->
  view_all A (mask_a H W) (slices (span x0 y0 x1 y1)) = true ->
  (y0 <= i < y1)%nat -> (x0 <= j < x1)%nat ->
  view_get A (mask_a H W) i j <> 0.
Proof.
  intros H W A x0 y0 x1 y1 i j (Hl & Hrows) Hx Hy Hall Hi Hj.
  rewrite view_all_span in Hall by lia.
  unfold mask_a. rewrite view_get_work. unfold get2.
  assert (Hrow : (1 + i < length (work A))%nat) by lia.
  pose proof (forallb_slice_nth _ [] _ _ _ (1 + i)%nat Hall ltac:(lia) Hrow)
    as Hcells.
  assert (Hcol : (1 + j < length (nth (1 + i) (work A) []))%nat).
  { rewrite Forall_forall in Hrows.
    rewrite (Hrows (nth (1 + i) (work A) [])) by (apply nth_In; exact Hrow).
    lia. }
  pose proof (forallb_slice_nth _ 0 _ _ _ (1 + j)%nat Hcells ltac:(lia) Hcol)
    as Hcell.
  apply negb_true_iff, Z.eqb_neq in Hcell. exact Hcell.
Qed.

Lemma zeroed_region_cells : forall H W A x0 y0 x1 y1 i j,
  (x0 <= x1 <= W)%nat -> (y0 <= y1 <= H)%nat ->
  (y0 <= i < y1)%nat -> (x0 <= j < x1)%nat ->
  view_get (view_zero A (mask_a H W) (slices (span x0 y0 x1 y1)))
           (mask_a H W) i j = 0.
Proof.
  intros H W A x0 y0 x1 y1 i j Hx Hy Hi Hj.
  rewrite view_zero_span by lia. unfold mask_a. rewrite view_get_work.
  simpl work. rewrite get2_zero_region.
  destruct (_ && _)%nat eqn:E; [reflexivity|].
  apply not_true_iff_false in E. exfalso. apply E.
  rewrite !andb_true_iff, !Nat.leb_le, !Nat.ltb_lt. lia.
Qed.

(** C4.  [detect_screens] comes to an end for every buffer: its loop ends
    within the rounds the filled area allows, and the video, its buffer
    included, is as before the call.  What it returns is the list of the
    screens, always so for a buffer of fewer than [2 ^ 1023] pixels;
    beyond, [float] may raise [OverflowError] on the area of a candidate,
    and nothing else is ever raised.  A round that accepts a screen found
    its region, at least one cell wide and high, all set in the working
    mask, zeroes that region there and nowhere else than in the working
    mask, and so strictly reduces the filled area. *)
Theorem detect_screens_terminates :
  forall set_iter,
    (forall l, Permutation (set_iter l) (nodup Rect_eq_dec l)) ->
    forall v,
      (exists r,
          detect_screens set_iter v = Some (r, v) /\
          (r = Raise OverflowError_float \/ exists screens, r = Ok screens) /\
          (Z.of_nat (height v) * Z.of_nat (width v) < 2 ^ 1023 ->
           exists screens, r = Ok screens)) /\
      (forall A s A',
          mask_shape (height v) (width v) (work A) ->
          detect_round set_iter (height v) (width v) A = Ok (Some (s, A')) ->
          let ma := mask_a (height v) (width v) in
          1 <= s_width s /\ 1 <= s_height s /\
          view_all A ma (slices s) = true /\
          A' = view_zero A ma (slices s) /\
          (forall i j : nat,
              s_y s <= Z.of_nat i < s_y s + s_height s ->
              s_x s <= Z.of_nat j < s_x s + s_width s ->
              view_get A ma i j <> 0 /\ view_get A' ma i j = 0) /\
          buffer A' = buffer A /\
          mask_shape (height v) (width v) (work A') /\
          (area (work A') < area (work A))%nat).
Proof.
  intros set_iter Hperm v. split.
  - apply detect_screens_total. exact Hperm.
  - intros A s A' Hshape Hround ma.
    destruct (detect_round_accepts set_iter Hperm _ _ A s A' Hshape Hround)
      as (Hcand & Hw & Hh & Hall & HA' & Hbuf & Hshape' & Hlt).
    subst ma.
    split; [exact Hw|]. split; [exact Hh|]. split; [exact Hall|].
    split; [exact HA'|].
    split; [| split; [exact Hbuf | split; [exact Hshape' | exact Hlt]]].
    destruct (in_candidates set_iter Hperm _ _ A s Hcand)
      as (x0 & y0 & x1 & y1 & -> & Hx & Hy).
    intros i j Hi Hj. simpl in Hi, Hj. subst A'. split.
    + apply (filled_region_cells _ _ A x0 y0 x1 y1); try assumption; lia.
    + apply zeroed_region_cells; lia.
Qed.

Lemma detect_screens_terminates_witness :
  exists screens,
    detect_screens set_order (video_filled 2 1)
    = Some (Ok screens, video_filled 2 1).
Proof.
  destruct (proj1 (detect_screens_terminates set_order set_order_perm
                     (video_filled 2 1)))
    as (r & E & _ & Hok).
  destruct (Hok eq_refl) as (screens & ->).
  exists screens. exact E.
Defined.

Lemma get2_filled : forall w h i j,
  (i < h)%nat -> (j < w)%nat ->
  get2 px0 (repeat (repeat opaque_px w) h) i j = opaque_px.
Proof.
  intros w h i j Hi Hj. unfold get2.
  rewrite (nth_repeat_lt (repeat opaque_px w) [] Hi).
  apply nth_repeat_lt. exact Hj.
Qed.

Lemma span_origin : forall w h,
  span 0 0 w h = MkScreen 0 0 (Z.of_nat w) (Z.of_nat h).
Proof. intros w h. unfold span. simpl Z.of_nat. rewrite !Z.sub_0_r. reflexivity. Qed.

(** C3, as the code has it.  A buffer of [w] columns and [h] rows that is
    filled everywhere, of fewer than [2 ^ 1023] pixels, holds exactly the
    screen [(0, 0, w, h)].  The score of that screen is a float.  For at
    most [2 ^ 53] pixels it is [w * h] itself when one of [w/h] and
    [h/w], limited to denominators of at most 64, is a common screen
    ratio; otherwise it is the float product of [w * h] and of half the
    float of the smaller of the two limited ratios, which is [w * h]
    times half that ratio up to one part in [2 ^ 51], and not always
    that number: it is 5000 for 100 by 100, 2073600 for 1920 by 1080,
    1049088 for 1366 by 768, whose ratio is limited to 16/9,
    0.49999999999999994 for 49 by 1 and for 1 by 49, and
    244999.99999999997 for 1000 by 700. *)
Theorem detect_screens_full_mask :
  forall set_iter,
    (forall l, Permutation (set_iter l) (nodup Rect_eq_dec l)) ->
    forall v d,
      data v = Some d ->
      (0 < width v)%nat -> (0 < height v)%nat ->
      (forall i j, (i < height v)%nat -> (j < width v)%nat ->
                   chan (mode_index (mode v) ch_a) (get2 px0 d i j) = xff) ->
      let w := Z.of_nat (width v) in
      let h := Z.of_nat (height v) in
      let s := MkScreen 0 0 w h in
      (w * h < 2 ^ 1023 -> detect_screens set_iter v = Some (Ok [s], v)) /\
      (w * h <= 2 ^ 53 ->
       exists r1 r2,
         limit_denominator 64 (mk_fraction w h) = Some r1 /\
         limit_denominator 64 (mk_fraction h w) = Some r2 /\
         0 < denominator r1 <= 64 /\ 0 < denominator r2 <= 64 /\
         if is_screen_ratio r1 || is_screen_ratio r2
         then score s = Ok (Finite (inject_Z (w * h)))
         else
           exists q ratio,
             score s = Ok (Finite q) /\
             (ratio = frac_to_Q r1 \/ ratio = frac_to_Q r2) /\
             (ratio <= frac_to_Q r1 /\ ratio <= frac_to_Q r2)%Q /\
             near (1 # 2 ^ 51) (inject_Z (w * h) * (ratio * (1 # 2)))%Q q) /\
      score (MkScreen 0 0 100 100) = Ok (Finite 5000%Q) /\
      score (MkScreen 0 0 1920 1080) = Ok (Finite 2073600%Q) /\
      score (MkScreen 0 0 1366 768) = Ok (Finite 1049088%Q) /\
      score (MkScreen 0 0 49 1)
      = Ok (Finite (9007199254740991 # 18014398509481984)) /\
      score (MkScreen 0 0 1 49)
      = Ok (Finite (9007199254740991 # 18014398509481984)) /\
      score (MkScreen 0 0 1000 700)
      = Ok (Finite (8418135900159999 # 34359738368)).
Proof.
  intros set_iter Hperm v d Hd Hw Hh Hfill w h s.
  split; [| split; [| repeat split; vm_compute; reflexivity]].
  - intros Hsize. unfold s, w, h. rewrite <- span_origin.
    assert (Hsize' : Z.of_nat (width v - 0) * Z.of_nat (height v - 0)
                     < 2 ^ 1023).
    { rewrite !Nat.sub_0_r. fold w h. exact Hsize. }
    apply (detect_screens_rectangle set_iter Hperm v d 0 0 (width v) (height v)
             Hd ltac:(lia) ltac:(lia) Hsize').
    intros i j Hi Hj. rewrite (Hfill i j Hi Hj). split; [lia | reflexivity].
  - intros Harea.
    destruct (score_ratios_total s) as (r1 & r2 & E1 & E2 & D1 & D2 & Hr);
      [simpl; lia | simpl; lia |].
    exists r1, r2. repeat (split; [assumption|]).
    destruct (is_screen_ratio r1 || is_screen_ratio r2) eqn:Hstd.
    + unfold score. simpl s_width. simpl s_height.
      rewrite float_of_int_exact by (rewrite Z.abs_eq; lia).
      rewrite Hr, Hstd. reflexivity.
    + destruct (score_near s r1 r2) as (q & Hq & Hnear);
        try assumption; try (simpl; lia).
      exists q, (frac_to_Q (frac_min r1 r2)).
      split; [exact Hq|]. split.
      * destruct (frac_min_cases r1 r2) as [-> | ->]; auto.
      * split; [apply frac_min_spec; lia | exact Hnear].
Qed.

Lemma detect_screens_full_mask_witness :
  detect_screens set_order (video_filled 2 1)
  = Some (Ok [MkScreen 0 0 2 1], video_filled 2 1).
Proof.
  refine (proj1 (detect_screens_full_mask set_order set_order_perm
                   (video_filled 2 1) (repeat (repeat opaque_px 2) 1)
                   _ _ _ _) _).
  - reflexivity.
  - simpl. lia.
  - simpl. lia.
  - intros i j Hi Hj. simpl in Hi, Hj.
    rewrite get2_filled by assumption. reflexivity.
  - reflexivity.
Defined.

(** C3 fails as stated on the filled buffer of 1000 by 700: its one
    screen has the limited ratios 10/7 and 7/10, neither of them common,
    and its score is 244999.99999999997, the float product, not the
    245000 that 1000 * 700 * 0.5 * 7/10 is. *)
Lemma detect_screens_full_mask_1000x700 :
  detect_screens set_order (video_filled 1000 700)
  = Some (Ok [MkScreen 0 0 1000 700], video_filled 1000 700) /\
  score_ratios (MkScreen 0 0 1000 700)
  = Some (MkFrac 10 7, MkFrac 7 10) /\
  (is_screen_ratio (MkFrac 10 7) || is_screen_ratio (MkFrac 7 10)) = false /\
  score (MkScreen 0 0 1000 700)
  = Ok (Finite (8418135900159999 # 34359738368)) /\
  ~ ((8418135900159999 # 34359738368)
     == inject_Z (1000 * 700) * ((1 # 2) * (7 # 10)))%Q.
Proof.
  split; [| split; [| split; [| split]]].
  - change (MkScreen 0 0 1000 700) with (span 0 0 1000 700).
    apply (detect_screens_rectangle set_order set_order_perm
             (video_filled 1000 700) (repeat (repeat opaque_px 1000) 700)).
    + reflexivity.
    + split; [apply Nat.lt_0_succ | apply Nat.le_refl].
    + split; [apply Nat.lt_0_succ | apply Nat.le_refl].
    + reflexivity.
    + intros i j Hi Hj.
      change (height (video_filled 1000 700)) with 700%nat in Hi.
      change (width (video_filled 1000 700)) with 1000%nat in Hj.
      rewrite get2_filled by assumption.
      split; [intros _ | reflexivity].
      split; split; try apply Nat.le_0_l; assumption.
  - vm_compute. reflexivity.
  - vm_compute. reflexivity.
  - vm_compute. reflexivity.
  - unfold Qeq. vm_compute. discriminate.
Qed.

(** C1, as the code has it.  In a buffer where exactly the regions
    (0,0,800,600) and (800,0,800,600) are filled, the two regions form one
    filled rectangle, and [detect_screens] returns that rectangle as a
    single screen (0,0,1600,600): it holds each filled cell once. *)
Theorem detect_screens_adjacent_regions :
  forall set_iter,
    (forall l, Permutation (set_iter l) (nodup Rect_eq_dec l)) ->
    forall v d,
      data v = Some d ->
      (1600 <= width v)%nat -> (600 <= height v)%nat ->
      (forall i j, (i < height v)%nat -> (j < width v)%nat ->
         (chan (mode_index (mode v) ch_a) (get2 px0 d i j) = xff <->
          in_region 0 0 800 600 i j \/ in_region 800 0 800 600 i j)) ->
      let s := MkScreen 0 0 1600 600 in
      detect_screens set_iter v = Some (Ok [s], v) /\
      s_width s * s_height s = 800 * 600 + 800 * 600 /\
      (forall i j : nat,
          s_y s <= Z.of_nat i < s_y s + s_height s ->
          s_x s <= Z.of_nat j < s_x s + s_width s ->
          chan (mode_index (mode v) ch_a) (get2 px0 d i j) = xff).
Proof.
  intros set_iter Hperm v d Hd Hw Hh Hfill s.
  split; [| split].
  - change s with (span 0 0 1600 600).
    apply (detect_screens_rectangle set_iter Hperm v d 0 0 1600 600 Hd
             ltac:(lia) ltac:(lia) eq_refl).
    intros i j Hi Hj. rewrite byte_val_xff, (Hfill i j Hi Hj).
    unfold in_region. lia.
  - reflexivity.
  - intros i j Hi Hj. simpl in Hi, Hj.
    apply Hfill; [lia | lia |]. unfold in_region. lia.
Qed.

Lemma detect_screens_adjacent_regions_witness :
  detect_screens set_order video_two_regions
  = Some (Ok [MkScreen 0 0 1600 600], video_two_regions).
Proof.
  refine (proj1 (detect_screens_adjacent_regions set_order set_order_perm
                   video_two_regions (repeat (repeat opaque_px 1600) 600)
                   _ _ _ _)).
  - reflexivity.
  - apply Nat.le_refl.
  - apply Nat.le_refl.
  - intros i j Hi Hj.
    change (height video_two_regions) with 600%nat in Hi.
    change (width video_two_regions) with 1600%nat in Hj.
    rewrite get2_filled by assumption.
    split; [intros _ | reflexivity].
    unfold in_region. lia.
Defined.

(** C1 fails as stated: on the filled buffer of 1600 by 600, in which the
    two regions are exactly what is filled, [detect_screens] returns one
    screen, and neither of the two. *)
Lemma detect_screens_two_regions_merged :
  detect_screens set_order video_two_regions
  = Some (Ok [MkScreen 0 0 1600 600], video_two_regions) /\
  ~ In (MkScreen 0 0 800 600) [MkScreen 0 0 1600 600] /\
  ~ In (MkScreen 800 0 800 600) [MkScreen 0 0 1600 600].
Proof.
  split; [| split].
  - change (MkScreen 0 0 1600 600) with (span 0 0 1600 600).
    apply (detect_screens_rectangle set_order set_order_perm
             video_two_regions (repeat (repeat opaque_px 1600) 600)).
    + reflexivity.
    + split; [apply Nat.lt_0_succ | apply Nat.le_refl].
    + split; [apply Nat.lt_0_succ | apply Nat.le_refl].
    + reflexivity.
    + intros i j Hi Hj.
      change (height video_two_regions) with 600%nat in Hi.
      change (width video_two_regions) with 1600%nat in Hj.
      rewrite get2_filled by assumption.
      split; [intros _ | reflexivity].
      split; split; try apply Nat.le_0_l; assumption.
  - intros [Heq | []]. discriminate Heq.
  - intros [Heq | []]. discriminate Heq.
Qed.

(** C10.  The mask of [detect_screens] holds 1 exactly where the alpha
    byte is 255: [b // 255] is 1 for 255 only, and 0 for every value from
    1 to 254.  So a buffer whose alpha bytes are 255 on the pixels of a
    rectangle and anything else, 254 or less, on all others holds for
    [detect_screens] exactly that rectangle as its one screen; and a
    buffer whose alpha bytes all lie between 1 and 254 is without any
    screen for [detect_screens], while [is_complete] reports it
    complete. *)
Theorem detect_screens_mask_is_alpha_255 :
  forall set_iter,
    (forall l, Permutation (set_iter l) (nodup Rect_eq_dec l)) ->
    forall v d,
      data v = Some d ->
      let a := mode_index (mode v) ch_a in
      (forall i j, (i < height v)%nat -> (j < width v)%nat ->
         get2 0 (initial_mask (height v) (width v) a d) (S i) (S j)
         = if byte_val (chan a (get2 px0 d i j)) =? 255 then 1 else 0) /\
      (forall b, int8 (byte_val b / 255) = 1 <-> b = xff) /\
      (forall b, 1 <= byte_val b <= 254 -> int8 (byte_val b / 255) = 0) /\
      (forall x0 y0 x1 y1 : nat,
          (x0 < x1 <= width v)%nat -> (y0 < y1 <= height v)%nat ->
          Z.of_nat (x1 - x0) * Z.of_nat (y1 - y0) < 2 ^ 1023 ->
          (forall i j, (i < height v)%nat -> (j < width v)%nat ->
             (chan a (get2 px0 d i j) = xff <->
              (y0 <= i < y1 /\ x0 <= j < x1)%nat)) ->
          detect_screens set_iter v
          = Some (Ok [MkScreen (Z.of_nat x0) (Z.of_nat y0)
                               (Z.of_nat x1 - Z.of_nat x0)
                               (Z.of_nat y1 - Z.of_nat y0)], v)) /\
      ((forall i j, (i < height v)%nat -> (j < width v)%nat ->
          chan a (get2 px0 d i j) <> xff) ->
       detect_screens set_iter v = Some (Ok [], v)) /\
      (Forall (Forall (fun p => 1 <= byte_val (chan a p) <= 254)) d ->
       detect_screens set_iter v = Some (Ok [], v) /\
       is_complete v = true).
Proof.
  intros set_iter Hperm v d Hd a.
  split; [| split; [| split; [| split; [| split]]]].
  - intros i j Hi Hj. rewrite get2_initial_mask.
    apply Nat.ltb_lt in Hi, Hj. rewrite Hi, Hj. reflexivity.
  - intros b. rewrite mask_cell, <- byte_val_xff.
    destruct (byte_val b =? 255) eqn:E.
    + apply Z.eqb_eq in E. tauto.
    + apply Z.eqb_neq in E. split; [discriminate | contradiction].
  - intros b Hb. rewrite mask_cell.
    destruct (byte_val b =? 255) eqn:E; [apply Z.eqb_eq in E; lia | reflexivity].
  - intros x0 y0 x1 y1 Hx Hy Hsize Hfill.
    apply (detect_screens_rectangle set_iter Hperm v d x0 y0 x1 y1);
      try assumption.
    intros i j Hi Hj. rewrite byte_val_xff. exact (Hfill i j Hi Hj).
  - intros Hnone.
    apply (detect_screens_none set_iter Hperm v d Hd).
    intros i j Hi Hj E. apply byte_val_xff in E. exact (Hnone i j Hi Hj E).
  - intros Hall. split.
    + apply (detect_screens_none set_iter Hperm v d Hd).
      intros i j _ _. fold a.
      destruct (get2_default_or_in px0 d i j) as [-> | (row & Hrow & Hp)].
      * assert (Hz : byte_val (chan a px0) = 0)
          by (destruct a as [|[|[|a']]]; reflexivity).
        rewrite Hz. discriminate.
      * rewrite Forall_forall in Hall. specialize (Hall row Hrow).
        rewrite Forall_forall in Hall. specialize (Hall _ Hp). lia.
    + unfold is_complete. rewrite Hd. apply all_nonzero_Forall.
      eapply Forall2_impl; [| exact Hall].
      intros p Hp Heq. unfold a in Hp. rewrite Heq in Hp.
      change (byte_val x00) with 0 in Hp. lia.
Qed.

Lemma detect_screens_mask_is_alpha_255_witness :
  detect_screens set_order video_255_254
  = Some (Ok [MkScreen 0 0 1 1], video_255_254).
Proof.
  refine (proj1 (proj2 (proj2 (proj2
            (detect_screens_mask_is_alpha_255
               set_order set_order_perm video_255_254
               [[Px x00 x00 x00 xff; Px x00 x00 x00 xfe]] _))))
            0%nat 0%nat 1%nat 1%nat _ _ _ _).
  - reflexivity.
  - simpl. lia.
  - simpl. lia.
  - reflexivity.
  - intros i j Hi Hj. simpl in Hi, Hj.
    destruct i as [|i]; [|lia].
    destruct j as [|[|j]]; [| |lia].
    + split; [intros _; lia | reflexivity].
    + split; [discriminate | lia].
Defined.

(** * Properties of the remaining code *)

(** ** Big-endian integers *)

Lemma byte_val_byte_of : forall z, 0 <= z < 256 -> byte_val (byte_of z) = z.
Proof.
  intros z Hz. unfold byte_of, byte_val.
  pose proof (Byte.to_of_N_option_map (Z.to_N z)) as Hopt.
  destruct (Z.to_N z <=? 255)%N eqn:E; [| apply N.leb_gt in E; lia].
  destruct (Byte.of_N (Z.to_N z)) as [b|]; [| discriminate].
  simpl in Hopt. injection Hopt as ->. lia.
Qed.

Lemma byte_of_byte_val : forall b, byte_of (byte_val b) = b.
Proof.
  intros b. unfold byte_of, byte_val. rewrite N2Z.id, Byte.of_to_N.
  reflexivity.
Qed.

Lemma from_bytes_snoc : forall bs b,
  from_bytes (bs ++ [b]) = from_bytes bs * 256 + byte_val b.
Proof. intros bs b. unfold from_bytes. rewrite fold_left_app. reflexivity. Qed.

Lemma from_bytes_upper : forall bs, from_bytes bs < 256 ^ Z.of_nat (length bs).
Proof.
  induction bs as [|b bs IH] using rev_ind; [reflexivity|].
  rewrite from_bytes_snoc, length_app, Nat2Z.inj_add. simpl length.
  rewrite Z.pow_add_r by lia. pose proof (byte_val_range b).
  change (256 ^ Z.of_nat 1) with 256. lia.
Qed.

Lemma length_be_bytes : forall n v, length (be_bytes n v) = n.
Proof.
  induction n as [|n IH]; intros v; simpl; [reflexivity|].
  rewrite length_app, IH. simpl. lia.
Qed.

Lemma from_bytes_be_bytes : forall n v,
  0 <= v < 256 ^ Z.of_nat n -> from_bytes (be_bytes n v) = v.
Proof.
  induction n as [|n IH]; intros v Hv.
  - simpl in *. unfold from_bytes. simpl. lia.
  - cbn [be_bytes]. rewrite from_bytes_snoc.
    rewrite Nat2Z.inj_succ, Z.pow_succ_r in Hv by lia.
    rewrite IH.
    + rewrite byte_val_byte_of by (apply Z.mod_pos_bound; lia).
      pose proof (Z.div_mod v 256 ltac:(lia)). lia.
    + split; [apply Z.div_pos; lia|].
      apply Z.div_lt_upper_bound; lia.
Qed.

Lemma be_bytes_from_bytes : forall bs,
  be_bytes (length bs) (from_bytes bs) = bs.
Proof.
  induction bs as [|b bs IH] using rev_ind; [reflexivity|].
  rewrite length_app, Nat.add_comm. cbn [length Nat.add be_bytes].
  rewrite from_bytes_snoc. pose proof (byte_val_range b) as Hb.
  replace ((from_bytes bs * 256 + byte_val b) / 256) with (from_bytes bs)
    by (apply Z.div_unique with (r := byte_val b); lia).
  replace ((from_bytes bs * 256 + byte_val b) mod 256) with (byte_val b)
    by (apply Z.mod_unique with (q := from_bytes bs); lia).
  rewrite IH, byte_of_byte_val. reflexivity.
Qed.

(** X1.  [read_int] of [n] bytes, on a stream that holds them, returns
    the big-endian value of the first [n] bytes, a number below [256 ^ n]
    whose [n] big-endian bytes are the bytes read, and takes exactly those
    bytes from the stream; on a shorter stream it raises
    [IncompleteReadError] and leaves the stream empty. *)
Theorem read_int_big_endian :
  forall O (st : St O) r n,
    let s := streams st r in
    ((n <= length s)%nat ->
     exists st',
       read_int r n st = (Ok (from_bytes (firstn n s)), st') /\
       0 <= from_bytes (firstn n s) < 256 ^ Z.of_nat n /\
       to_bytes n (from_bytes (firstn n s)) = Some (firstn n s) /\
       self st' = self st /\
       streams st' r = skipn n s /\
       (forall k, k <> r -> streams st' k = streams st k)) /\
    ((length s < n)%nat ->
     exists st',
       read_int r n st = (Raise IncompleteReadError, st') /\
       self st' = self st /\ streams st' r = []).
Proof.
  intros O st r n s. split; intros Hn.
  - destruct (read_int r n st) as [x st'] eqn:Hrd.
    pose proof Hrd as Hinv. apply read_int_inv in Hinv.
    destruct Hinv as [(-> & Hs & _ & Hr & Ho) | (_ & Hl & _)]; [| fold s in Hl; lia].
    exists st'. fold s in Hr |- *.
    assert (Hlen : length (firstn n s) = n) by (rewrite length_firstn; lia).
    assert (Hrange : 0 <= from_bytes (firstn n s) < 256 ^ Z.of_nat n).
    { split; [apply from_bytes_nonneg|].
      rewrite <- Hlen at 2. apply from_bytes_upper. }
    repeat split; try assumption; try lia.
    unfold to_bytes.
    destruct Hrange as (H0 & H1).
    apply Z.leb_le in H0. apply Z.ltb_lt in H1. rewrite H0, H1. simpl.
    rewrite <- Hlen at 1. rewrite be_bytes_from_bytes. reflexivity.
  - unfold read_int, bind, readexactly. fold s.
    apply Nat.leb_gt in Hn. rewrite Hn.
    eexists. split; [reflexivity|]. split; [reflexivity|].
    simpl. unfold set_stream. rewrite Nat.eqb_refl. reflexivity.
Qed.

(** ** [Video.refresh] *)

Lemma to_bytes_in_range : forall n v,
  0 <= v < 256 ^ Z.of_nat n -> to_bytes n v = Some (be_bytes n v).
Proof.
  intros n v (H0 & H1). unfold to_bytes.
  apply Z.leb_le in H0. apply Z.ltb_lt in H1. rewrite H0, H1. reflexivity.
Qed.

Lemma to_bytes_out_of_range : forall n v,
  ~ (0 <= v < 256 ^ Z.of_nat n) -> to_bytes n v = None.
Proof.
  intros n v Hv. unfold to_bytes.
  destruct (0 <=? v) eqn:E0; [|reflexivity].
  destruct (v <? 256 ^ Z.of_nat n) eqn:E1; [|reflexivity].
  apply Z.leb_le in E0. apply Z.ltb_lt in E1. lia.
Qed.

Lemma be_bytes_2 : forall v,
  exists a b, be_bytes 2 v = [a; b].
Proof. intros v. simpl. eauto. Qed.

(** X2.  With [x], [y], width and height between 0 and 65535,
    [Video.refresh] appends ten bytes to the writer and changes nothing
    else: the type 3, the incremental flag, which is 1 exactly when a
    buffer is allocated, and the four numbers, two big-endian bytes each,
    a width or height left out being that of the video.  With a number
    outside that range it raises [OverflowError] and writes nothing. *)
Theorem Video_refresh_request :
  forall st x y w h,
    let v := self st in
    let w' := match w with None => Z.of_nat (width v) | Some w => w end in
    let h' := match h with None => Z.of_nat (height v) | Some h => h end in
    let flag := match data v with Some _ => x01 | None => x00 end in
    let u16 := fun z => 0 <= z < 65536 in
    (u16 x /\ u16 y /\ u16 w' /\ u16 h' ->
     exists msg,
       Video_refresh x y w h st
       = (Done tt, MkSt (set_stream (writer v) (streams st (writer v) ++ msg)
                                    (streams st)) v) /\
       length msg = 10%nat /\
       firstn 2 msg = [x03; flag] /\
       from_bytes (firstn 2 (skipn 2 msg)) = x /\
       from_bytes (firstn 2 (skipn 4 msg)) = y /\
       from_bytes (firstn 2 (skipn 6 msg)) = w' /\
       from_bytes (firstn 2 (skipn 8 msg)) = h') /\
    (~ (u16 x /\ u16 y /\ u16 w' /\ u16 h') ->
     Video_refresh x y w h st = (Fail OverflowError, st)).
Proof.
  intros st x y w h v w' h' flag u16.
  unfold Video_refresh, bindX, liftX, get_self. fold v. cbv zeta.
  fold w' h'. unfold refresh_msg.
  assert (Hflag : to_bytes 1 (match data v with Some _ => 1 | None => 0 end)
                  = Some [flag]).
  { unfold flag. destruct (data v); reflexivity. }
  rewrite Hflag.
  change (256 ^ Z.of_nat 2) with 65536 in *.
  split.
  - intros (Hx & Hy & Hw & Hh).
    rewrite !to_bytes_in_range by (change (256 ^ Z.of_nat 2) with 65536; assumption).
    pose proof (from_bytes_be_bytes 2 x Hx) as Ex.
    pose proof (from_bytes_be_bytes 2 y Hy) as Ey.
    pose proof (from_bytes_be_bytes 2 w' Hw) as Ew.
    pose proof (from_bytes_be_bytes 2 h' Hh) as Eh.
    destruct (be_bytes_2 x) as (x1 & x0 & Bx).
    destruct (be_bytes_2 y) as (y1 & y0 & By).
    destruct (be_bytes_2 w') as (w1 & w0 & Bw).
    destruct (be_bytes_2 h') as (h1 & h0 & Bh).
    rewrite Bx in *. rewrite By in *. rewrite Bw in *. rewrite Bh in *.
    eexists. split; [reflexivity|]. simpl. repeat split; assumption.
  - intros Hout.
    destruct (to_bytes 2 x) eqn:Tx; [|reflexivity].
    destruct (to_bytes 2 y) eqn:Ty; [|reflexivity].
    destruct (to_bytes 2 w') eqn:Tw; [|reflexivity].
    destruct (to_bytes 2 h') eqn:Th; [|reflexivity].
    exfalso. apply Hout. unfold u16.
    repeat split;
      match goal with
      | |- 0 <= ?z =>
          destruct (Z_le_dec 0 z); [assumption|];
          rewrite (to_bytes_out_of_range 2 z) in * by lia; discriminate
      | |- ?z < 65536 =>
          destruct (Z_lt_dec z 65536); [assumption|];
          rewrite (to_bytes_out_of_range 2 z) in *
            by (change (256 ^ Z.of_nat 2) with 65536; lia); discriminate
      end.
Qed.

(** ** [Video.create] *)

Lemma and1_spec : forall b,
  and1 b = if Z.odd (byte_val b) then x01 else x00.
Proof. intros b. destruct b; reflexivity. Qed.

Lemma and1_x01 : forall b, and1 b = x01 <-> Z.odd (byte_val b) = true.
Proof.
  intros b. rewrite and1_spec. destruct (Z.odd _); split; congruence.
Qed.

Lemma and1_x00 : forall b, and1 b = x00 <-> Z.odd (byte_val b) = false.
Proof.
  intros b. rewrite and1_spec. destruct (Z.odd _); split; congruence.
Qed.

Lemma dict_get_In {V} (key : list byte) (d : list (list byte * V)) (v : V) :
  dict_get key d = Some v -> In (key, v) d.
Proof.
  induction d as [|[k v'] d IH]; simpl; [discriminate|].
  destruct (list_eq_dec Byte.byte_eq_dec key k) as [-> | _].
  - intros Heq. injection Heq as ->. left. reflexivity.
  - intros Hget. right. apply IH, Hget.
Qed.

(** X3.  The pixel formats [Video.create] recognises.  The thirteen
    bytes of a server's format select a mode exactly when they say 32 bits
    per pixel, depth 24, a true-colour flag with its low bit set, maxima
    255, and shifts 16, 8, 0 or 0, 8, 16; the mode then follows from the
    shifts and from the low bit of the big-endian flag, and the other bits
    of the two flags do not matter. *)
Theorem video_mode_recognised :
  forall fmt m,
    dict_get (normalise_flags fmt) video_modes = Some m <->
    exists be tc rshift bshift,
      fmt = [x20; x18; be; tc; x00; xff; x00; xff; x00; xff;
             rshift; x08; bshift] /\
      Z.odd (byte_val tc) = true /\
      ((rshift = x10 /\ bshift = x00 /\
        m = if Z.odd (byte_val be) then ARGB else BGRA) \/
       (rshift = x00 /\ bshift = x10 /\
        m = if Z.odd (byte_val be) then ABGR else RGBA)).
Proof.
  intros fmt m. split.
  - intros Hget. apply dict_get_In in Hget.
    assert (Hlen : length fmt = 13%nat).
    { unfold video_modes in Hget. simpl in Hget.
      unfold normalise_flags in Hget.
      destruct Hget as [E | [E | [E | [E | []]]]];
        apply (f_equal fst) in E; apply (f_equal (@length byte)) in E;
        simpl in E; rewrite length_update_range in E; auto. }
    do 13 (destruct fmt as [|? fmt]; [discriminate Hlen|]).
    destruct fmt as [|? fmt]; [|discriminate Hlen].
    unfold normalise_flags, video_modes in Hget. cbn [update_range In] in Hget.
    destruct Hget as [E | [E | [E | [E | []]]]];
      injection E; clear E; intros;
      repeat match goal with
             | Ha : _ = and1 _ |- _ => symmetry in Ha
             end;
      repeat match goal with
             | Ha : and1 _ = x01 |- _ => apply and1_x01 in Ha
             | Ha : and1 _ = x00 |- _ => apply and1_x00 in Ha
             end;
      subst;
      do 4 eexists; (split; [reflexivity|]);
      (split; [assumption|]);
      match goal with
      | Ha : Z.odd (byte_val ?b) = _ |- context [Z.odd (byte_val ?b)] =>
          rewrite Ha
      end; tauto.
  - intros (be & tc & rs & bs & -> & Htc & Hcase).
    unfold normalise_flags. cbn [update_range].
    rewrite !and1_spec, Htc.
    destruct Hcase as [(-> & -> & ->) | (-> & -> & ->)];
      destruct (Z.odd (byte_val be)); reflexivity.
Qed.

Lemma set_stream_same : forall r s ss, set_stream r s ss r = s.
Proof. intros. unfold set_stream. rewrite Nat.eqb_refl. reflexivity. Qed.

Lemma set_stream_other : forall r s ss k,
  k <> r -> set_stream r s ss k = ss k.
Proof.
  intros r s ss k Hk. unfold set_stream. apply Nat.eqb_neq in Hk.
  rewrite Hk. reflexivity.
Qed.

Lemma liftX_readexactly {O} (r n : nat) (st : St O) :
  liftX (readexactly r n) st
  = if (n <=? length (streams st r))%nat
    then (Done (firstn n (streams st r)),
          MkSt (set_stream r (skipn n (streams st r)) (streams st)) (self st))
    else (Fail (Exn IncompleteReadError),
          MkSt (set_stream r [] (streams st)) (self st)).
Proof.
  unfold liftX, readexactly. destruct (_ <=? _)%nat; reflexivity.
Qed.

Lemma liftX_read_int {O} (r n : nat) (st : St O) :
  liftX (read_int r n) st
  = if (n <=? length (streams st r))%nat
    then (Done (from_bytes (firstn n (streams st r))),
          MkSt (set_stream r (skipn n (streams st r)) (streams st)) (self st))
    else (Fail (Exn IncompleteReadError),
          MkSt (set_stream r [] (streams st)) (self st)).
Proof.
  unfold liftX, read_int, bind, readexactly, ret.
  destruct (_ <=? _)%nat; reflexivity.
Qed.

(** The stream of one handle in a store built by [set_stream]. *)
Ltac streams_at :=
  repeat first [ rewrite set_stream_same
               | rewrite set_stream_other by congruence ].

(** One read of [Video.create], on a stream known to hold the bytes. *)
Ltac read_ok Hs :=
  unfold bindX at 1;
  first [ rewrite liftX_read_int | rewrite liftX_readexactly ];
  cbn [streams self];
  rewrite ?set_stream_same, ?Hs, ?skipn_skipn, ?length_skipn;
  match goal with
  | |- context [(?n <=? ?m)%nat] =>
      replace (n <=? m)%nat with true by (symmetry; apply Nat.leb_le; lia)
  end;
  cbn [Nat.add].

(** X4.  [Video.create] on a stream that holds the whole server
    initialisation: two bytes of width, two of height, thirteen of pixel
    format, three of padding, four of name length and the name.  It takes
    exactly those bytes, returns a video of that size and name, without a
    buffer, in the mode of the format, [rgba] when the format is not
    recognised, and writes the list of encodings, after the request for
    [rgba] pixels when the format is not recognised; the format it then
    asks for is the one it knows as [rgba]. *)
Theorem Video_create_reads_server_init :
  forall decode inflate rd wr (st : St unit) name,
    let s := streams st rd in
    let len := Z.to_nat (from_bytes (firstn 4 (skipn 20 s))) in
    let mode := dict_get (normalise_flags (firstn 13 (skipn 4 s))) video_modes in
    (24 + len <= length s)%nat ->
    decode (firstn len (skipn 24 s)) = Some name ->
    rd <> wr ->
    exists st',
      Video_create decode inflate rd wr st
      = (Done (MkVideo rd wr inflate [] name
                       (Z.to_nat (from_bytes (firstn 2 s)))
                       (Z.to_nat (from_bytes (firstn 2 (skipn 2 s))))
                       (match mode with Some m => m | None => RGBA end)
                       None), st') /\
      streams st' rd = skipn (24 + len) s /\
      streams st' wr
      = streams st wr
          ++ (match mode with Some _ => [] | None => set_pixel_format_msg end)
          ++ set_encodings_msg /\
      (forall k, k <> rd -> k <> wr -> streams st' k = streams st k) /\
      dict_get (firstn 13 (skipn 4 set_pixel_format_msg)) video_modes
      = Some RGBA.
Proof.
  intros decode inflate rd wr st name s len mode Hlen Hname Hne.
  assert (Hs : streams st rd = s) by reflexivity.
  assert (Hl : Z.to_nat (from_bytes (firstn 4 (skipn 20 s))) = len)
    by reflexivity.
  assert (Hm : dict_get (normalise_flags (firstn 13 (skipn 4 s))) video_modes
               = mode) by reflexivity.
  clearbody s len mode.
  unfold Video_create.
  read_ok Hs. read_ok Hs. read_ok Hs. rewrite Hm. read_ok Hs.
  unfold bindX at 1. unfold read_text.
  read_ok Hs. rewrite Hl. read_ok Hs.
  replace (len + 24)%nat with (24 + len)%nat by lia.
  rewrite Hname. unfold retX at 1.
  assert (Hwr : wr <> rd) by congruence.
  destruct mode as [m|];
    unfold bindX, retX, write; cbn [streams self];
    (eexists; split; [reflexivity|]); cbn [streams];
    (split; [streams_at; reflexivity|]);
    (split; [streams_at; rewrite <- ?app_assoc; reflexivity|]);
    (split; [|reflexivity]);
    intros k Hk1 Hk2; streams_at; reflexivity.
Qed.

(** One read of [Video.create]: either the bytes are there, or the call
    ends with [IncompleteReadError]. *)
Ltac read_case Hs E :=
  unfold bindX at 1;
  first [ rewrite liftX_read_int | rewrite liftX_readexactly ];
  cbn [streams self];
  rewrite ?set_stream_same, ?Hs, ?skipn_skipn, ?length_skipn;
  match goal with
  | |- context [(?n <=? ?m)%nat] => destruct (n <=? m)%nat eqn:E
  end;
  [ apply Nat.leb_le in E; cbn [Nat.add]
  | apply Nat.leb_gt in E ].

(** X5.  [Video.create] on a stream that ends inside the server
    initialisation raises [IncompleteReadError]; on a name that does not
    decode it raises [UnicodeDecodeError]; in both cases it has written
    nothing. *)
Theorem Video_create_failure :
  forall decode inflate rd wr (st : St unit),
    let s := streams st rd in
    let len := Z.to_nat (from_bytes (firstn 4 (skipn 20 s))) in
    rd <> wr ->
    ((length s < 24 + len)%nat ->
     exists st',
       Video_create decode inflate rd wr st
       = (Fail (Exn IncompleteReadError), st') /\
       streams st' wr = streams st wr) /\
    ((24 + len <= length s)%nat ->
     decode (firstn len (skipn 24 s)) = None ->
     exists st',
       Video_create decode inflate rd wr st = (Fail UnicodeDecodeError, st') /\
       streams st' wr = streams st wr /\
       streams st' rd = skipn (24 + len) s).
Proof.
  intros decode inflate rd wr st s len Hne.
  assert (Hs : streams st rd = s) by reflexivity.
  assert (Hl : Z.to_nat (from_bytes (firstn 4 (skipn 20 s))) = len)
    by reflexivity.
  clearbody s len.
  assert (Hwr : wr <> rd) by congruence.
  split.
  - intros Hshort. unfold Video_create.
    read_case Hs E1;
      [| eexists; split; [reflexivity | cbn [streams]; streams_at; reflexivity]].
    read_case Hs E2;
      [| eexists; split; [reflexivity | cbn [streams]; streams_at; reflexivity]].
    read_case Hs E3;
      [| eexists; split; [reflexivity | cbn [streams]; streams_at; reflexivity]].
    read_case Hs E4;
      [| eexists; split; [reflexivity | cbn [streams]; streams_at; reflexivity]].
    unfold bindX at 1. unfold read_text.
    read_case Hs E5;
      [| eexists; split; [reflexivity | cbn [streams]; streams_at; reflexivity]].
    rewrite Hl.
    read_case Hs E6;
      [lia | eexists; split; [reflexivity | cbn [streams]; streams_at; reflexivity]].
  - intros Hlen Hname. unfold Video_create.
    read_ok Hs. read_ok Hs. read_ok Hs. read_ok Hs.
    unfold bindX at 1. unfold read_text.
    read_ok Hs. rewrite Hl. read_ok Hs.
    replace (len + 24)%nat with (24 + len)%nat by lia.
    rewrite Hname. unfold raiseX.
    eexists. split; [reflexivity|]. cbn [streams].
    split; streams_at; reflexivity.
Qed.

Lemma Video_create_reads_server_init_witness :
  exists st',
    Video_create decode_ascii no_inflate 0 1 st_server_init
    = (Done (MkVideo 0 1 no_inflate [] "ab" 2 1 RGBA None), st') /\
    streams st' 0%nat = [] /\
    streams st' 1%nat = set_pixel_format_msg ++ set_encodings_msg.
Proof.
  destruct (Video_create_reads_server_init decode_ascii no_inflate
              0%nat 1%nat st_server_init "ab")
    as (st' & E & Hrd & Hwr & _).
  - vm_compute. lia.
  - reflexivity.
  - discriminate.
  - exists st'. split; [exact E|]. split; [exact Hrd | exact Hwr].
Defined.

Lemma Video_create_failure_witness :
  exists st',
    Video_create decode_ascii no_inflate 0 1 st_server_short
    = (Fail (Exn IncompleteReadError), st') /\
    streams st' 1%nat = [].
Proof.
  refine (proj1 (Video_create_failure decode_ascii no_inflate
                   0%nat 1%nat st_server_short _) _).
  - discriminate.
  - vm_compute. lia.
Defined.


(** ** Raw rectangles *)

Lemma nth_blit_with_eq {A B} (f : B -> A -> A) (d : A) (s0 : B) (dst : list A) :
  forall off src i,
    (off <= i < off + length src)%nat -> (i < length dst)%nat ->
    nth i (blit_with f off src dst) d = f (nth (i - off) src s0) (nth i dst d).
Proof.
  induction dst as [|x dst IH]; intros off src i Hr Hi; simpl in *; [lia|].
  destruct off.
  - destruct src as [|s src]; simpl in *; [lia|].
    destruct i; [reflexivity|].
    rewrite (IH 0%nat src i) by (simpl; lia).
    rewrite Nat.sub_0_r. reflexivity.
  - destruct i; [lia|]. simpl. apply IH; lia.
Qed.

Lemma fit_id {A} (n : nat) (l : list A) : length l = n -> fit n l = l.
Proof.
  intros <-. unfold fit, bcast.
  destruct l as [|a [|b l]]; try reflexivity.
  apply firstn_all.
Qed.

Lemma length_rows_of : forall h w ps, length (rows_of h w ps) = h.
Proof.
  induction h as [|h IH]; intros w ps; simpl; [reflexivity|].
  rewrite IH. reflexivity.
Qed.

Lemma nth_rows_of : forall h w ps i,
  (i < h)%nat -> nth i (rows_of h w ps) [] = firstn w (skipn (i * w) ps).
Proof.
  induction h as [|h IH]; intros w ps i Hi; [lia|].
  simpl. destruct i as [|i]; [reflexivity|].
  rewrite IH by lia. rewrite skipn_skipn. f_equal. f_equal. simpl. lia.
Qed.

Lemma rows_of_width : forall h w ps,
  (h * w <= length ps)%nat ->
  Forall (fun row => length row = w) (rows_of h w ps).
Proof.
  induction h as [|h IH]; intros w ps Hlen; simpl; constructor.
  - rewrite length_firstn. simpl in Hlen. lia.
  - apply IH. rewrite length_skipn. simpl in Hlen. lia.
Qed.

Lemma length_pixels_of : forall n bs,
  length bs = (4 * n)%nat -> length (pixels_of bs) = n.
Proof.
  induction n as [|n IH]; intros bs Hlen.
  - destruct bs; [reflexivity | discriminate].
  - destruct bs as [|a [|b [|c [|d bs]]]]; simpl in Hlen; try lia.
    simpl. f_equal. apply IH. lia.
Qed.

(** Pixel [k] of a payload: its bytes [4k .. 4k + 3]. *)
Lemma nth_pixels_of : forall k bs,
  (4 * k + 3 < length bs)%nat ->
  nth k (pixels_of bs) px0
  = Px (nth (4 * k) bs x00) (nth (4 * k + 1) bs x00)
       (nth (4 * k + 2) bs x00) (nth (4 * k + 3) bs x00).
Proof.
  induction k as [|k IH]; intros bs Hlen;
    destruct bs as [|a [|b [|c [|d bs]]]]; simpl in Hlen; try lia.
  - reflexivity.
  - cbn [pixels_of nth]. rewrite IH by lia.
    replace (4 * S k)%nat with (S (S (S (S (4 * k))))) by lia.
    replace (S (S (S (S (4 * k)))) + 1)%nat with (S (S (S (S (4 * k + 1))))) by lia.
    replace (S (S (S (S (4 * k)))) + 2)%nat with (S (S (S (S (4 * k + 2))))) by lia.
    replace (S (S (S (S (4 * k)))) + 3)%nat with (S (S (S (S (4 * k + 3))))) by lia.
    reflexivity.
Qed.

Lemma get2_assign_region_in : forall h w r0 r1 c0 c1 src buf i j,
  shape_ok h w buf ->
  length src = (r1 - r0)%nat ->
  Forall (fun row => length row = (c1 - c0)%nat) src ->
  (i < h)%nat -> (j < w)%nat ->
  (r0 <= i < r1)%nat -> (c0 <= j < c1)%nat ->
  get2 px0 (assign_region r0 r1 c0 c1 src buf) i j
  = get2 px0 src (i - r0) (j - c0).
Proof.
  intros h w r0 r1 c0 c1 src buf i j (Hl & Hrows) Hsrc Hcols Hi Hj Hr Hc.
  unfold get2, assign_region.
  rewrite (fit_id _ src Hsrc).
  rewrite (nth_blit_with_eq _ [] []) by lia.
  assert (Hrow : length (nth (i - r0) src []) = (c1 - c0)%nat).
  { rewrite Forall_forall in Hcols. apply Hcols. apply nth_In. lia. }
  rewrite (fit_id _ _ Hrow).
  rewrite (nth_blit_with_eq _ px0 px0);
    [reflexivity | lia | rewrite (shape_row h w) by assumption; lia].
Qed.

Lemma get2_assign_chan_in_eq : forall h w r0 r1 c0 c1 k v buf i j,
  shape_ok h w buf -> (i < h)%nat -> (j < w)%nat ->
  (r0 <= i < r1)%nat -> (c0 <= j < c1)%nat ->
  get2 px0 (assign_chan r0 r1 c0 c1 k v buf) i j
  = set_chan k v (get2 px0 buf i j).
Proof.
  intros h w r0 r1 c0 c1 k v buf i j (Hl & Hrows) Hi Hj Hr Hc.
  unfold get2, assign_chan.
  rewrite nth_update_range_in by lia.
  rewrite nth_update_range_in;
    [reflexivity | lia | rewrite (shape_row h w) by assumption; lia].
Qed.

Lemma store_rect_ok : forall hd payload st,
  let v := self st in
  let h := Z.to_nat (h_height hd) in
  let w := Z.to_nat (h_width hd) in
  (h * w * 4 <= length payload)%nat ->
  broadcast_ok h w (row_hi (height v) hd - row_lo (height v) hd)
               (col_hi (width v) hd - col_lo (width v) hd) = true ->
  store_rect hd payload st
  = (Ok tt, MkSt (streams st) (set_data (Some (stored hd payload v)) v)).
Proof.
  intros hd payload st v h w Hsize Hb.
  unfold store_rect, bind, get_self, put_self. cbv zeta. cbn [self streams].
  fold v. fold (buffer_of v). fold h w.
  apply Nat.leb_le in Hsize. rewrite Hsize. rewrite Hb. reflexivity.
Qed.

Lemma norm_idx_nonneg : forall n z,
  0 <= z -> norm_idx n z = Nat.min (Z.to_nat z) n.
Proof.
  intros n z Hz. unfold norm_idx.
  destruct (z <? 0) eqn:E; [apply Z.ltb_lt in E; lia|]. lia.
Qed.

(** X6.  A Raw rectangle that lies inside the buffer.  [Video.read] takes
    the header and the [4 * width * height] bytes of the body, and leaves
    a buffer of the same shape in which each pixel of the rectangle holds
    its four bytes of the body, row by row, with 255 in place of the alpha
    byte, and every other pixel is as before. *)
Theorem Video_read_raw_rectangle :
  forall st hd st1 payload rest,
    read_header st = (Ok hd, st1) ->
    h_encoding hd = 0 ->
    let v := self st in
    let x := Z.to_nat (h_x hd) in
    let y := Z.to_nat (h_y hd) in
    let w := Z.to_nat (h_width hd) in
    let h := Z.to_nat (h_height hd) in
    streams st1 (reader v) = payload ++ rest ->
    length payload = (h * w * 4)%nat ->
    (x + w <= width v)%nat -> (y + h <= height v)%nat ->
    shape_ok (height v) (width v) (buffer_of v) ->
    exists st2 d',
      Video_read st = (Ok tt, st2) /\
      streams st2 (reader v) = rest /\
      data (self st2) = Some d' /\
      shape_ok (height v) (width v) d' /\
      forall i j, (i < height v)%nat -> (j < width v)%nat ->
        get2 px0 d' i j
        = if ((y <=? i) && (i <? y + h) && (x <=? j) && (j <? x + w))%nat
          then
            let k := ((i - y) * w + (j - x))%nat in
            set_chan (mode_index (mode v) ch_a) xff
              (Px (nth (4 * k) payload x00) (nth (4 * k + 1) payload x00)
                  (nth (4 * k + 2) payload x00) (nth (4 * k + 3) payload x00))
          else get2 px0 (buffer_of v) i j.
Proof.
  intros st hd st1 payload rest Hh Henc v x y w h Hstream Hlen Hxw Hyh Hshape.
  pose proof (read_header_ok _ _ _ Hh) as ((Hself & _) & Hx & Hy & Hw & Hhh).
  rewrite (Video_read_after_header _ _ _ Hh).
  assert (Hn : Z.to_nat (h_height hd * h_width hd * 4) = length payload).
  { rewrite Hlen. unfold h, w. rewrite !Z2Nat.inj_mul by lia. reflexivity. }
  assert (Er0 : row_lo (height v) hd = y)
    by (unfold row_lo; rewrite norm_idx_nonneg by lia; fold y; lia).
  assert (Er1 : row_hi (height v) hd = (y + h)%nat)
    by (unfold row_hi; rewrite norm_idx_nonneg by lia; unfold y, h in *; lia).
  assert (Ec0 : col_lo (width v) hd = x)
    by (unfold col_lo; rewrite norm_idx_nonneg by lia; fold x; lia).
  assert (Ec1 : col_hi (width v) hd = (x + w)%nat)
    by (unfold col_hi; rewrite norm_idx_nonneg by lia; unfold x, w in *; lia).
  unfold read_body, bind at 1, read_payload, bind at 1, get_self.
  rewrite Henc. cbn [Z.eqb]. rewrite Hself. fold v.
  unfold readexactly. rewrite Hstream, Hn, length_app.
  replace (length payload <=? length payload + length rest)%nat with true
    by (symmetry; apply Nat.leb_le; lia).
  rewrite firstn_app, firstn_all, Nat.sub_diag, firstn_O, app_nil_r.
  rewrite skipn_app, skipn_all, Nat.sub_diag, skipn_O. cbn [app].
  rewrite store_rect_ok; cbn [self streams]; rewrite ?Hself; fold v;
    fold h w; rewrite ?Er0, ?Er1, ?Ec0, ?Ec1.
  2:{ lia. }
  2:{ unfold broadcast_ok.
      replace (y + h - y)%nat with h by lia.
      replace (x + w - x)%nat with w by lia.
      rewrite !Nat.eqb_refl. reflexivity. }
  eexists. exists (stored hd payload v).
  split; [reflexivity|]. cbn [streams self].
  split; [apply set_stream_same|].
  split; [destruct v; reflexivity|].
  assert (Hshape1 : forall src,
             shape_ok (height v) (width v)
               (assign_region y (y + h) x (x + w) src (buffer_of v)))
    by (intros src; apply shape_assign_region, Hshape).
  unfold stored. rewrite Er0, Er1, Ec0, Ec1. fold h w.
  split; [apply shape_assign_chan, Hshape1|].
  intros i j Hi Hj.
  destruct ((y <=? i) && (i <? y + h) && (x <=? j) && (j <? x + w))%nat eqn:Ein.
  - rewrite !andb_true_iff, !Nat.leb_le, !Nat.ltb_lt in Ein.
    rewrite (get2_assign_chan_in_eq (height v) (width v))
      by (try apply Hshape1; lia).
    f_equal.
    assert (Hpx : length (pixels_of payload) = (h * w)%nat)
      by (apply length_pixels_of; lia).
    rewrite (get2_assign_region_in (height v) (width v));
      try assumption; try lia.
    + unfold get2. rewrite nth_rows_of by lia.
      rewrite nth_firstn.
      replace (j - x <? w)%nat with true by (symmetry; apply Nat.ltb_lt; lia).
      rewrite nth_skipn. apply nth_pixels_of. nia.
    + rewrite length_rows_of. lia.
    + replace (x + w - x)%nat with w by lia.
      apply rows_of_width. lia.
  - apply not_true_iff_false in Ein.
    rewrite !andb_true_iff, !Nat.leb_le, !Nat.ltb_lt in Ein.
    rewrite get2_assign_chan_out by lia.
    rewrite get2_assign_region_out by lia. reflexivity.
Qed.

Lemma Video_read_raw_rectangle_witness :
  exists st2 d',
    Video_read st_raw_1px = (Ok tt, st2) /\
    streams st2 0%nat = [] /\
    data (self st2) = Some d' /\
    get2 px0 d' 0 0 = Px x0a x0b x0c xff.
Proof.
  destruct (Video_read_raw_rectangle st_raw_1px (MkHeader 0 0 1 1 0)
              (snd (read_header st_raw_1px)) [x0a; x0b; x0c; x00] [])
    as (st2 & d' & E & Hrest & Hd & _ & Hpx).
  - vm_compute. reflexivity.
  - reflexivity.
  - reflexivity.
  - reflexivity.
  - simpl. lia.
  - simpl. lia.
  - split; [reflexivity | repeat constructor].
  - exists st2, d'. split; [exact E|]. split; [exact Hrest|].
    split; [exact Hd|].
    exact (Hpx 0%nat 0%nat (Nat.lt_0_succ 0) (Nat.lt_0_succ 0)).
Defined.

(** ** The screens [detect_screens] returns *)

Lemma covers_span : forall x0 y0 x1 y1 i j,
  covers (span x0 y0 x1 y1) i j <-> (y0 <= i < y1 /\ x0 <= j < x1)%nat.
Proof. intros. unfold covers, span. simpl. lia. Qed.

Section DetectSound.

Variable set_iter : list Rect -> list Rect.
Hypothesis set_iter_perm :
  forall l, Permutation (set_iter l) (nodup Rect_eq_dec l).

Variables (H W : nat).
Variable m0 : list (list Z).

Lemma loop_inv_step : forall A screens s A',
  loop_inv H W m0 A screens ->
  detect_round set_iter H W A = Ok (Some (s, A')) ->
  loop_inv H W m0 A' (screens ++ [s]).
Proof.
  intros A screens s A' (Hshape & Hsub & Hold & Hdisj) Hround.
  destruct (detect_round_accepts set_iter set_iter_perm H W A s A' Hshape Hround)
    as (Hcand & _ & _ & Hall & HA' & _ & Hshape' & _).
  destruct (in_candidates set_iter set_iter_perm H W A s Hcand)
    as (x0 & y0 & x1 & y1 & -> & Hx & Hy).
  assert (Hwork : forall i j,
             get2 0 (work A') i j
             = if ((1 + y0 <=? i) && (i <? 1 + y1) && (1 + x0 <=? j)
                   && (j <? 1 + x1))%nat
               then 0 else get2 0 (work A) i j).
  { intros i j. rewrite HA', view_zero_span by lia. simpl work.
    apply get2_zero_region. }
  assert (Hnew : forall i j, covers (span x0 y0 x1 y1) i j ->
                             get2 0 (work A) (S i) (S j) <> 0).
  { intros i j Hc. apply covers_span in Hc.
    pose proof (filled_region_cells H W A x0 y0 x1 y1 i j Hshape
                  ltac:(lia) ltac:(lia) Hall ltac:(lia) ltac:(lia)) as Hne.
    unfold mask_a in Hne. rewrite view_get_work in Hne. exact Hne. }
  split; [exact Hshape'|]. split; [| split].
  - intros i j Hne. apply Hsub. rewrite Hwork in Hne.
    destruct (_ && _)%nat; [contradiction | exact Hne].
  - intros s Hs. apply in_app_or in Hs. destruct Hs as [Hs | [<- | []]].
    + destruct (Hold s Hs) as (Hspan & Hcells). split; [exact Hspan|].
      intros i j Hc. destruct (Hcells i j Hc) as (Hm & Hz).
      split; [exact Hm|]. rewrite Hwork, Hz. destruct (_ && _)%nat; reflexivity.
    + split; [exists x0, y0, x1, y1; auto|].
      intros i j Hc. split; [apply Hsub, Hnew, Hc|].
      rewrite Hwork. apply covers_span in Hc.
      replace ((1 + y0 <=? S i) && (S i <? 1 + y1) && (1 + x0 <=? S j)
               && (S j <? 1 + x1))%nat with true; [reflexivity|].
      symmetry. rewrite !andb_true_iff, !Nat.leb_le, !Nat.ltb_lt. lia.
  - assert (Hclash : forall s' i j,
               In s' screens -> covers s' i j ->
               covers (span x0 y0 x1 y1) i j -> False).
    { intros s' i j Hs' Hc' Hc. destruct (Hold s' Hs') as (_ & Hcells).
      destruct (Hcells i j Hc') as (_ & Hz). exact (Hnew i j Hc Hz). }
    intros k1 k2 s1 s2 Hk E1 E2 i j (Hc1 & Hc2).
    destruct (Nat.lt_ge_cases k1 (length screens)) as [L1|L1];
      destruct (Nat.lt_ge_cases k2 (length screens)) as [L2|L2].
    + rewrite nth_error_app1 in E1, E2 by assumption.
      exact (Hdisj k1 k2 s1 s2 Hk E1 E2 i j (conj Hc1 Hc2)).
    + rewrite nth_error_app1 in E1 by assumption.
      rewrite nth_error_app2 in E2 by assumption.
      destruct (k2 - length screens)%nat as [|n]; simpl in E2;
        [| destruct n; discriminate].
      injection E2 as <-.
      apply (Hclash s1 i j); [eapply nth_error_In; eassumption | | ]; assumption.
    + rewrite nth_error_app2 in E1 by assumption.
      rewrite nth_error_app1 in E2 by assumption.
      destruct (k1 - length screens)%nat as [|n]; simpl in E1;
        [| destruct n; discriminate].
      injection E1 as <-.
      apply (Hclash s2 i j); [eapply nth_error_In; eassumption | | ]; assumption.
    + rewrite nth_error_app2 in E1, E2 by assumption.
      destruct (k1 - length screens)%nat as [|n1] eqn:D1;
        [| destruct n1; discriminate].
      destruct (k2 - length screens)%nat as [|n2] eqn:D2;
        [| destruct n2; discriminate].
      lia.
Qed.

Lemma loop_inv_loop : forall fuel A screens r A',
  loop_inv H W m0 A screens ->
  detect_loop set_iter H W fuel A screens = Some (r, A') ->
  forall screens', r = Ok screens' -> loop_inv H W m0 A' screens'.
Proof.
  induction fuel as [|fuel IH]; intros A screens r A' Hinv Hrun;
    [discriminate|].
  simpl in Hrun.
  destruct (detect_round_cases set_iter set_iter_perm H W A)
    as [E | [(s & A1 & E) | E]]; rewrite E in Hrun.
  - injection Hrun as <- <-. intros screens' Heq.
    injection Heq as <-. exact Hinv.
  - apply (IH A1 (screens ++ [s])); [| exact Hrun].
    apply (loop_inv_step A screens s A1); assumption.
  - injection Hrun as <- <-. discriminate.
Qed.

End DetectSound.

(** What [detect_screens] returns on a buffer, with what the loop
    established of the screens. *)
Lemma detect_screens_sound : forall set_iter,
  (forall l, Permutation (set_iter l) (nodup Rect_eq_dec l)) ->
  forall v d,
    data v = Some d ->
    exists r,
      detect_screens set_iter v = Some (r, v) /\
      (Z.of_nat (height v) * Z.of_nat (width v) < 2 ^ 1023 ->
       exists screens, r = Ok screens) /\
      forall screens,
        r = Ok screens ->
        exists A,
          loop_inv (height v) (width v)
            (initial_mask (height v) (width v) (mode_index (mode v) ch_a) d)
            A screens.
Proof.
  intros set_iter Hperm v d Hd.
  destruct (detect_screens_total set_iter Hperm v) as (r & Hrun & _ & Hok).
  exists r. split; [exact Hrun|]. split; [exact Hok|].
  intros screens ->.
  unfold detect_screens in Hrun. rewrite Hd in Hrun.
  set (m := initial_mask _ _ _ d) in *.
  destruct (detect_loop _ _ _ _ _ _) as [[r A]|] eqn:Hloop; [|discriminate].
  assert (Hinit : loop_inv (height v) (width v) m (MkArrays d m) []).
  { split; [split; [apply length_initial_mask | apply rows_initial_mask]|].
    split; [intros i j Hne; exact Hne|].
    split; [intros s []|].
    intros k1 k2 s1 s2 _ E1. destruct k1; discriminate. }
  exists A. injection Hrun as -> _.
  exact (loop_inv_loop set_iter Hperm (height v) (width v) m _ _ _ _ _
           Hinit Hloop screens eq_refl).
Qed.

Lemma initial_mask_cell : forall h w k d i j,
  get2 0 (initial_mask h w k d) (S i) (S j) <> 0 ->
  (i < h)%nat /\ (j < w)%nat /\ chan k (get2 px0 d i j) = xff.
Proof.
  intros h w k d i j Hne. rewrite get2_initial_mask in Hne.
  destruct (i <? h)%nat eqn:Hi; [|contradiction].
  destruct (j <? w)%nat eqn:Hj; [|contradiction].
  simpl in Hne. destruct (_ =? 255) eqn:E; [|contradiction].
  apply Nat.ltb_lt in Hi, Hj. apply Z.eqb_eq in E.
  repeat split; try assumption. apply byte_val_xff. exact E.
Qed.

(** X7. Every screen [detect_screens] returns is a rectangle of at least
    one pixel that lies inside the [height] x [width] buffer, and every
    pixel of the buffer it covers has alpha byte 255.  It does return
    screens, for every buffer of fewer than [2 ^ 1023] pixels. *)
Theorem detect_screens_inside_and_opaque :
  forall set_iter,
    (forall l, Permutation (set_iter l) (nodup Rect_eq_dec l)) ->
    forall v d,
      data v = Some d ->
      exists r,
        detect_screens set_iter v = Some (r, v) /\
        (Z.of_nat (height v) * Z.of_nat (width v) < 2 ^ 1023 ->
         exists screens, r = Ok screens) /\
        forall screens,
          r = Ok screens ->
          forall s, In s screens ->
            0 <= s_x s /\ 0 <= s_y s /\ 1 <= s_width s /\ 1 <= s_height s /\
            s_x s + s_width s <= Z.of_nat (width v) /\
            s_y s + s_height s <= Z.of_nat (height v) /\
            forall i j, covers s i j ->
              chan (mode_index (mode v) ch_a) (get2 px0 d i j) = xff.
Proof.
  intros set_iter Hperm v d Hd.
  destruct (detect_screens_sound set_iter Hperm v d Hd)
    as (r & Hrun & Hok & Hsound).
  exists r. split; [exact Hrun|]. split; [exact Hok|].
  intros screens Hr s Hs.
  destruct (Hsound screens Hr) as (A & _ & _ & Hscreens & _).
  destruct (Hscreens s Hs)
    as ((x0 & y0 & x1 & y1 & -> & Hx & Hy) & Hcells).
  unfold span; simpl.
  repeat (split; [lia|]).
  intros i j Hc. destruct (Hcells i j Hc) as (Hm & _).
  apply initial_mask_cell in Hm. tauto.
Qed.

Lemma detect_screens_inside_and_opaque_witness :
  exists screens,
    detect_screens set_order (video_filled 2 1)
    = Some (Ok screens, video_filled 2 1) /\
    forall s, In s screens ->
      0 <= s_x s /\ 0 <= s_y s /\ 1 <= s_width s /\ 1 <= s_height s /\
      s_x s + s_width s <= Z.of_nat (width (video_filled 2 1)) /\
      s_y s + s_height s <= Z.of_nat (height (video_filled 2 1)) /\
      forall i j, covers s i j ->
        chan (mode_index (mode (video_filled 2 1)) ch_a)
             (get2 px0 (repeat (repeat opaque_px 2) 1) i j) = xff.
Proof.
  destruct (detect_screens_inside_and_opaque set_order set_order_perm
              (video_filled 2 1) (repeat (repeat opaque_px 2) 1) eq_refl)
    as (r & E & Hok & Hprops).
  destruct (Hok eq_refl) as (screens & ->).
  exists screens. split; [exact E | exact (Hprops screens eq_refl)].
Defined.

(** X8. The screens [detect_screens] returns do not overlap: no pixel
    belongs to two entries of the list, and no screen is listed twice.
    It does return screens, for every buffer of fewer than [2 ^ 1023]
    pixels. *)
Theorem detect_screens_disjoint :
  forall set_iter,
    (forall l, Permutation (set_iter l) (nodup Rect_eq_dec l)) ->
    forall v,
      exists r,
        detect_screens set_iter v = Some (r, v) /\
        (Z.of_nat (height v) * Z.of_nat (width v) < 2 ^ 1023 ->
         exists screens, r = Ok screens) /\
        forall screens,
          r = Ok screens -> disjoint_screens screens /\ NoDup screens.
Proof.
  intros set_iter Hperm v.
  destruct (data v) as [d|] eqn:Hd.
  - destruct (detect_screens_sound set_iter Hperm v d Hd)
      as (r & Hrun & Hok & Hsound).
    exists r. split; [exact Hrun|]. split; [exact Hok|].
    intros screens Hr.
    destruct (Hsound screens Hr) as (A & _ & _ & Hscreens & Hdisj).
    split; [exact Hdisj|].
    apply NoDup_nth_error. intros k1 k2 Hk E.
    destruct (Nat.eq_dec k1 k2) as [|Hne]; [assumption|exfalso].
    destruct (nth_error screens k1) as [s|] eqn:E1;
      [| apply nth_error_None in E1; lia].
    destruct (Hscreens s (nth_error_In _ _ E1))
      as ((x0 & y0 & x1 & y1 & Hs & Hx & Hy) & _).
    apply (Hdisj k1 k2 s s Hne E1 (eq_sym E) y0 x0).
    rewrite Hs. split; apply covers_span; lia.
  - exists (Ok []). unfold detect_screens. rewrite Hd.
    split; [reflexivity|]. split; [eauto|].
    intros screens Hr. injection Hr as <-. split; [|constructor].
    intros k1 k2 s1 s2 _ E1. destruct k1; discriminate.
Qed.

Lemma detect_screens_disjoint_witness :
  exists screens,
    detect_screens set_order (video_filled 2 1)
    = Some (Ok screens, video_filled 2 1) /\
    disjoint_screens screens /\ NoDup screens.
Proof.
  destruct (detect_screens_disjoint set_order set_order_perm
              (video_filled 2 1))
    as (r & E & Hok & Hprops).
  destruct (Hok eq_refl) as (screens & ->).
  exists screens. split; [exact E | exact (Hprops screens eq_refl)].
Defined.

(** X9. [detect_screens] returns the empty list, and leaves the video as
    it is, when no buffer has been allocated and when no pixel of the
    buffer has alpha byte 255. *)
Theorem detect_screens_nothing_opaque :
  forall set_iter,
    (forall l, Permutation (set_iter l) (nodup Rect_eq_dec l)) ->
    forall v,
      match data v with
      | None => True
      | Some d =>
          forall i j, (i < height v)%nat -> (j < width v)%nat ->
            chan (mode_index (mode v) ch_a) (get2 px0 d i j) <> xff
      end ->
      detect_screens set_iter v = Some (Ok [], v).
Proof.
  intros set_iter Hperm v Hnone.
  destruct (data v) as [d|] eqn:Hd;
    [| unfold detect_screens; rewrite Hd; reflexivity].
  apply (detect_screens_none set_iter Hperm v d Hd).
  intros i j Hi Hj E. apply byte_val_xff in E. exact (Hnone i j Hi Hj E).
Qed.

Lemma detect_screens_nothing_opaque_witness :
  detect_screens set_order video_alpha1 = Some (Ok [], video_alpha1).
Proof.
  apply (detect_screens_nothing_opaque set_order set_order_perm video_alpha1).
  simpl. intros i j Hi Hj.
  destruct i as [|i]; [|lia]. destruct j as [|j]; [|lia].
  vm_compute. discriminate.
Defined.

(** ** [Screen.score] *)

Lemma mk_fraction_scaled : forall a b k,
  0 < b -> 0 < k -> Z.gcd a b = 1 -> mk_fraction (a * k) (b * k) = MkFrac a b.
Proof.
  intros a b k Hb Hk Hg. unfold mk_fraction.
  rewrite Z.gcd_mul_mono_r_nonneg, Hg, Z.mul_1_l by lia.
  destruct (b * k <? 0) eqn:E; [apply Z.ltb_lt in E; nia|].
  rewrite !Z.div_mul by lia. reflexivity.
Qed.

Lemma screen_ratios_pairs : forall r,
  In r screen_ratios ->
  0 < numerator r <= 64 /\ 0 < denominator r <= 64 /\
  Z.gcd (numerator r) (denominator r) = 1 /\ is_screen_ratio r = true.
Proof.
  intros r Hr. unfold screen_ratios in Hr. simpl in Hr.
  repeat (destruct Hr as [<- | Hr]; [vm_compute; intuition discriminate|]).
  contradiction.
Qed.

Lemma limit_denominator_small : forall maxd f,
  denominator f <= maxd -> limit_denominator maxd f = Some f.
Proof.
  intros maxd f Hd. unfold limit_denominator.
  apply Z.leb_le in Hd. rewrite Hd. reflexivity.
Qed.

Lemma score_ratios_standard : forall s r k,
  In r screen_ratios -> 0 < k ->
  s_width s = numerator r * k -> s_height s = denominator r * k ->
  score_ratios s = Some (r, MkFrac (denominator r) (numerator r)).
Proof.
  intros s r k Hr Hk Hw Hh.
  destruct (screen_ratios_pairs r Hr) as (Hn & Hd & Hg & _).
  unfold score_ratios, Fraction_new. rewrite Hw, Hh.
  destruct (denominator r * k =? 0) eqn:E1; [apply Z.eqb_eq in E1; nia|].
  destruct (numerator r * k =? 0) eqn:E2; [apply Z.eqb_eq in E2; nia|].
  assert (Hg' : Z.gcd (denominator r) (numerator r) = 1)
    by (rewrite Z.gcd_comm; exact Hg).
  rewrite (mk_fraction_scaled (numerator r) (denominator r) k
             ltac:(lia) Hk Hg).
  rewrite (mk_fraction_scaled (denominator r) (numerator r) k
             ltac:(lia) Hk Hg').
  rewrite (limit_denominator_small 64 (MkFrac (numerator r) (denominator r)))
    by (cbn [denominator]; lia).
  rewrite (limit_denominator_small 64 (MkFrac (denominator r) (numerator r)))
    by (cbn [denominator]; lia).
  destruct r; reflexivity.
Qed.

Lemma score_ratios_swap : forall s s',
  s_width s' = s_height s -> s_height s' = s_width s ->
  score_ratios s'
  = match score_ratios s with
    | Some (r1, r2) => Some (r2, r1)
    | None => None
    end.
Proof.
  intros s s' Hw Hh. unfold score_ratios. rewrite Hw, Hh.
  destruct (Fraction_new (s_width s) (s_height s)) as [f1|];
    destruct (Fraction_new (s_height s) (s_width s)) as [f2|];
    try reflexivity;
    repeat match goal with
           | |- context [limit_denominator 64 ?f] =>
               destruct (limit_denominator 64 f)
           end; reflexivity.
Qed.

(** X10. A screen whose sides are a common multiple of one of the six
    standard aspect ratios, in landscape or in portrait orientation, has
    as score the float of its pixel area, without a penalty: the area
    itself when it is at most [2 ^ 53], the nearest float beyond, and
    [OverflowError] where [float] raises it. *)
Theorem score_standard_ratio :
  forall s r k,
    In r screen_ratios -> 0 < k ->
    (s_width s = numerator r * k /\ s_height s = denominator r * k) \/
    (s_width s = denominator r * k /\ s_height s = numerator r * k) ->
    score s = float_of_int (s_width s * s_height s) /\
    (s_width s * s_height s <= 2 ^ 53 ->
     score s = Ok (Finite (inject_Z (s_width s * s_height s)))).
Proof.
  intros s r k Hr Hk Hor.
  destruct (screen_ratios_pairs r Hr) as (Hn & Hd & _ & Hstd).
  assert (Hscore : score s = float_of_int (s_width s * s_height s)).
  { unfold score.
    destruct (float_of_int (s_width s * s_height s)) as [value|e];
      [|reflexivity].
    destruct Hor as [(Hw & Hh) | (Hw & Hh)].
    - rewrite (score_ratios_standard s r k Hr Hk Hw Hh), Hstd. reflexivity.
    - rewrite (score_ratios_swap (MkScreen 0 0 (s_height s) (s_width s)) s)
        by reflexivity.
      rewrite (score_ratios_standard (MkScreen 0 0 (s_height s) (s_width s))
                 r k Hr Hk Hh Hw).
      rewrite Hstd, orb_true_r. reflexivity. }
  split; [exact Hscore|].
  intros Harea. rewrite Hscore. apply float_of_int_exact.
  rewrite Z.abs_eq; [exact Harea|].
  destruct Hor as [(-> & ->) | (-> & ->)]; nia.
Qed.

Lemma score_standard_ratio_witness :
  score (MkScreen 0 0 1920 1080) = Ok (Finite 2073600%Q) /\
  score (MkScreen 1920 0 1080 1920) = Ok (Finite 2073600%Q) /\
  score (MkScreen 0 0 402653187 268435458)
  = float_of_int (402653187 * 268435458).
Proof.
  split; [| split].
  - apply (score_standard_ratio (MkScreen 0 0 1920 1080) (mk_fraction 16 9) 120).
    + simpl. tauto.
    + lia.
    + left. split; reflexivity.
    + vm_compute. discriminate.
  - apply (score_standard_ratio (MkScreen 1920 0 1080 1920)
             (mk_fraction 16 9) 120).
    + simpl. tauto.
    + lia.
    + right. split; reflexivity.
    + vm_compute. discriminate.
  - apply (score_standard_ratio (MkScreen 0 0 402653187 268435458)
             (mk_fraction 3 2) 134217729).
    + simpl. tauto.
    + lia.
    + left. split; reflexivity.
Defined.

(** X13. The exceptions of [Screen.score].  With a width or a height of
    0 it raises [ZeroDivisionError].  With a positive width and height it
    returns a float when the area is below [2 ^ 1023], and never raises
    but the [OverflowError] of [float], as it does on the screen of
    [2 ^ 1024] by 1. *)
Theorem score_exceptions :
  forall s,
    (s_width s = 0 \/ s_height s = 0 -> score s = Raise ZeroDivisionError) /\
    (0 < s_width s -> 0 < s_height s ->
     (s_width s * s_height s < 2 ^ 1023 -> exists f, score s = Ok f) /\
     (forall e, score s = Raise e -> e = OverflowError_float)) /\
    score (MkScreen 0 0 (2 ^ 1024) 1) = Raise OverflowError_float /\
    score (MkScreen 0 0 402653187 268435458)
    = Ok (Finite 108086392667504640%Q).
Proof.
  intros s. split; [| split; [| split; vm_compute; reflexivity]].
  - intros Hz. unfold score.
    assert (Harea : s_width s * s_height s = 0) by (destruct Hz; nia).
    rewrite Harea. change (float_of_int 0) with (Ok (Finite 0%Q)).
    unfold score_ratios, Fraction_new.
    destruct (s_height s =? 0) eqn:Eh; [reflexivity|].
    apply Z.eqb_neq in Eh.
    assert (Ew : (s_width s =? 0) = true) by (apply Z.eqb_eq; tauto).
    rewrite Ew. destruct (limit_denominator 64 _); reflexivity.
  - intros Hw Hh. split.
    + intros Harea. apply score_total; assumption.
    + intros e He. exact (score_raises s e Hw Hh He).
Qed.

(** ** [Client.screenshot] *)

Lemma shrinks_refl {O} (st : St O) : shrinks st st.
Proof. intros k. lia. Qed.

Lemma shrinks_trans {O1 O2 O3} (a : St O1) (b : St O2) (c : St O3) :
  shrinks a b -> shrinks b c -> shrinks a c.
Proof. intros H1 H2 k. specialize (H1 k). specialize (H2 k). lia. Qed.

Lemma quiet_ret {O A} (a : A) : quiet (O := O) (ret a).
Proof. intros st x st' E. injection E as _ <-. apply shrinks_refl. Qed.

Lemma quiet_raise {O A} (e : exn) : quiet (O := O) (A := A) (raise e).
Proof. intros st x st' E. injection E as _ <-. apply shrinks_refl. Qed.

Lemma quiet_get_self {O} : quiet (O := O) get_self.
Proof. intros st x st' E. injection E as _ <-. apply shrinks_refl. Qed.

Lemma quiet_put_self {O} (o : O) : quiet (put_self o).
Proof. intros st x st' E. injection E as _ <-. intros k. simpl. lia. Qed.

Lemma quiet_bind {O A B} (m : M O A) (k : A -> M O B) :
  quiet m -> (forall a, quiet (k a)) -> quiet (bind m k).
Proof.
  intros Hm Hk st x st' E. unfold bind in E.
  destruct (m st) as [[a|e] s1] eqn:E1.
  - eapply shrinks_trans; [eapply Hm; exact E1 | eapply Hk; exact E].
  - injection E as _ <-. eapply Hm; exact E1.
Qed.

Lemma quiet_readexactly {O} (r n : nat) : quiet (O := O) (readexactly r n).
Proof.
  intros st x st' E. unfold readexactly in E.
  destruct (n <=? length (streams st r))%nat; injection E as _ <-;
    intros k; simpl; unfold set_stream;
    destruct (k =? r)%nat eqn:Ek; try lia.
  - apply Nat.eqb_eq in Ek. subst k. rewrite length_skipn. lia.
  - simpl. lia.
Qed.

Lemma quiet_read_int {O} (r n : nat) : quiet (O := O) (read_int r n).
Proof.
  unfold read_int. apply quiet_bind; [apply quiet_readexactly|].
  intros bs. apply quiet_ret.
Qed.

Lemma quiet_call_decompress : forall chunk, quiet (call_decompress chunk).
Proof.
  intros chunk. unfold call_decompress.
  apply quiet_bind; [apply quiet_get_self|]. intros v.
  destruct (decompress v (fed v) chunk); [|apply quiet_raise].
  apply quiet_bind; [apply quiet_put_self|]. intros _. apply quiet_ret.
Qed.

Lemma quiet_read_header : quiet read_header.
Proof.
  unfold read_header.
  repeat (apply quiet_bind;
          [first [apply quiet_get_self | apply quiet_read_int] | intros ?]).
  apply quiet_ret.
Qed.

Lemma quiet_read_payload : forall hd, quiet (read_payload hd).
Proof.
  intros hd. unfold read_payload.
  apply quiet_bind; [apply quiet_get_self|]. intros v.
  destruct (h_encoding hd =? 0); [apply quiet_readexactly|].
  destruct (h_encoding hd =? 6); [|apply quiet_raise].
  apply quiet_bind; [apply quiet_read_int|]. intros len.
  apply quiet_bind; [apply quiet_readexactly|]. intros chunk.
  apply quiet_call_decompress.
Qed.

Lemma quiet_store_rect : forall hd payload, quiet (store_rect hd payload).
Proof.
  intros hd payload st x st' E.
  destruct (store_rect_inv hd payload st x st' E) as (Hs & _).
  intros k. rewrite Hs. lia.
Qed.

Lemma quiet_Video_read : quiet Video_read.
Proof.
  unfold Video_read. apply quiet_bind; [apply quiet_read_header|].
  intros hd. unfold read_body.
  apply quiet_bind; [apply quiet_read_payload|].
  intros payload. apply quiet_store_rect.
Qed.

Lemma with_video_inv {A} (m : M Video A) : forall st x st',
  with_video m st = (x, st') ->
  m (video_state st) = (x, video_state st') /\
  c_reader (self st') = c_reader (self st).
Proof.
  intros st x st' E. unfold with_video in E. fold (video_state st) in E.
  destruct (m (video_state st)) as [y [ss sv]] eqn:Em.
  injection E as <- <-. split; reflexivity.
Qed.

Lemma quiet_with_video {A} (m : M Video A) : quiet m -> quiet (with_video m).
Proof.
  intros Hm st x st' E. apply with_video_inv in E. destruct E as (E & _).
  exact (Hm _ _ _ E).
Qed.

Lemma repeatM_ok {O} (m : M O unit) : forall n st st',
  repeatM n m st = (Ok tt, st') -> iterates m n st st'.
Proof.
  induction n as [|n IH]; intros st st' E; simpl in E.
  - injection E as <-. constructor.
  - unfold bind in E. destruct (m st) as [[[]|e] s1] eqn:Em; [|discriminate].
    econstructor; [exact Em | apply IH; exact E].
Qed.

Lemma iterates_shrinks {O} (m : M O unit) : quiet m ->
  forall n st st', iterates m n st st' -> shrinks st st'.
Proof.
  intros Hm n st st' Hit.
  induction Hit as [st | k st st1 st2 E _ IH]; [apply shrinks_refl|].
  eapply shrinks_trans; [exact (Hm _ _ _ E) | exact IH].
Qed.

(** Successive calls of [Video.read] from the client are successive
    decoded rectangles of its video. *)
Lemma iterates_decodes : forall n st st',
  iterates (with_video Video_read) n st st' ->
  c_reader (self st') = c_reader (self st) /\
  exists hds, length hds = n /\
              decodes (video_state st) hds (video_state st').
Proof.
  intros n st st' Hit.
  induction Hit as [st | k st st1 st2 E _ (Hc & hds & Hl & Hd)].
  - split; [reflexivity|]. exists []. split; [reflexivity | constructor].
  - apply with_video_inv in E. destruct E as (E & Hc1).
    apply Video_read_ok_iff in E. destruct E as (hd & s1 & Hh & Hb).
    split; [congruence|]. exists (hd :: hds). split; [simpl; congruence|].
    econstructor; eassumption.
Qed.

(** A successful [Client.read]: four bytes of the client's stream, then
    as many successful calls of [Video.read] as they announce. *)
Lemma Client_read_ok : forall st u st',
  Client_read st = (Ok u, st') ->
  exists s4 n,
    consumed (c_reader (self st)) 4 st s4 /\
    iterates (with_video Video_read) n s4 st'.
Proof.
  intros st u st' E. unfold Client_read in E.
  unfold bind at 1 in E. unfold get_self at 1 in E.
  set (r := c_reader (self st)) in *.
  unfold bind at 1 in E.
  destruct (read_int r 1 st) as [[code|e] s1] eqn:R1; [|discriminate].
  destruct (UpdateType_of code) as [[]|]; [|discriminate].
  unfold bind at 1 in E. unfold bind at 1 in E.
  destruct (readexactly r 1 s1) as [[pad|e] s2] eqn:R2; [|discriminate].
  unfold bind at 1 in E.
  destruct (read_int r 2 s2) as [[n|e] s3] eqn:R3; [|discriminate].
  destruct (repeatM (Z.to_nat n) (with_video Video_read) s3)
    as [[[]|e] s4] eqn:R4; [|discriminate].
  assert (Hst : st' = s4) by (unfold ret in E; congruence). subst st'.
  apply read_int_inv in R1. destruct R1 as [(_ & C1) | (D & _)]; [|discriminate].
  apply readexactly_inv in R2. destruct R2 as [(_ & C2) | (D & _)]; [|discriminate].
  apply read_int_inv in R3. destruct R3 as [(_ & C3) | (D & _)]; [|discriminate].
  exists s3, (Z.to_nat n). split; [| apply repeatM_ok; exact R4].
  exact (consumed_trans r 2 2 _ _ _ (consumed_trans r 1 1 _ _ _ C1 C2) C3).
Qed.

Lemma Client_read_shortens : forall st u st',
  Client_read st = (Ok u, st') ->
  c_reader (self st') = c_reader (self st) /\
  (length (streams st' (c_reader (self st)))
   < length (streams st (c_reader (self st))))%nat.
Proof.
  intros st u st' E.
  destruct (Client_read_ok st u st' E) as (s4 & n & (Hself & Hlen & Hs & _) & Hit).
  pose proof (iterates_shrinks _ (quiet_with_video _ quiet_Video_read)
                _ _ _ Hit (c_reader (self st))) as Hsh.
  destruct (iterates_decodes _ _ _ Hit) as (Hc & _).
  rewrite Hs, length_skipn in Hsh.
  split; [congruence | lia].
Qed.



Lemma refresh_msg_length : forall i x y w h msg,
  refresh_msg i x y w h = Some msg -> length msg = 10%nat.
Proof.
  intros i x y w h msg E. unfold refresh_msg, to_bytes in E.
  repeat match type of E with
         | context [if ?c then _ else _] => destruct c; [|discriminate]
         end.
  injection E as <-. simpl. reflexivity.
Qed.

(** The first two statements of [screenshot]: the buffer is dropped, and
    the request that goes out, if its numbers fit, is not incremental. *)
Lemma screenshot_request : forall st x y w h,
  let c := self st in
  let v := video c in
  let w' := match w with None => Z.of_nat (width v) | Some w => w end in
  let h' := match h with None => Z.of_nat (height v) | Some h => h end in
  let c' := MkClient (c_reader c) (set_data None v) in
  bindX drop_buffer (fun _ => with_videoX (Video_refresh x y w h)) st
  = match refresh_msg 0 x y w' h' with
    | Some msg =>
        (Done tt, MkSt (set_stream (writer v) (streams st (writer v) ++ msg)
                                   (streams st)) c')
    | None => (Fail OverflowError, MkSt (streams st) c')
    end.
Proof.
  intros st x y w h c v w' h' c'.
  unfold drop_buffer, with_videoX, Video_refresh, liftX, get_self,
    write, raiseX.
  unfold bindX.
  cbn [self streams video c_reader set_data data width height writer].
  fold c. fold v. fold w' h'.
  destruct (refresh_msg 0 x y w' h'); reflexivity.
Qed.

Lemma screenshot_loop_terminates : forall fuel st,
  (length (streams st (c_reader (self st))) < fuel)%nat ->
  exists r, forall extra, screenshot_loop (fuel + extra) st = Some r.
Proof.
  induction fuel as [|fuel IH]; intros st Hlen; [lia|].
  destruct (Client_read st) as [[[]|e] st1] eqn:E.
  - destruct (is_complete (video (self st1))) eqn:Hc.
    + eexists. intros extra. simpl. rewrite E, Hc. reflexivity.
    + destruct (Client_read_shortens st VIDEO st1 E) as (Hr & Hlt).
      destruct (IH st1) as (r & Hr').
      { rewrite Hr. lia. }
      exists r. intros extra. simpl. rewrite E, Hc. apply Hr'.
  - eexists. intros extra. simpl. rewrite E. reflexivity.
Qed.


(** X11.  On a recorded stream [Client.screenshot] always comes to an end:
    it returns an array or raises, within as many rounds of its loop as
    the client's stream has bytes, whatever is in the stream; more rounds
    allowed change nothing. *)
Theorem Client_screenshot_terminates :
  forall st x y w h,
    exists r, forall extra,
      Client_screenshot
        (length (streams st (c_reader (self st))) + 11 + extra) x y w h st
      = Some r.
Proof.
  intros st x y w h. unfold Client_screenshot.
  rewrite screenshot_request.
  destruct (refresh_msg 0 x y _ _) as [msg|] eqn:Em.
  - apply refresh_msg_length in Em.
    match goal with
    | |- exists r, forall extra, screenshot_loop _ ?s = _ =>
        destruct (screenshot_loop_terminates
                    (length (streams st (c_reader (self st))) + 11) s)
          as (r & Hr)
    end.
    + cbn [self streams c_reader]. unfold set_stream.
      destruct (_ =? _)%nat eqn:Ek; [|lia].
      apply Nat.eqb_eq in Ek. rewrite Ek, length_app, Em. lia.
    + exists r. exact Hr.
  - eexists. intros extra. reflexivity.
Qed.


